(** * A markdown-to-HTML converter made of regular-expression passes

    Shallow embedding of the parser of the site (functions [parseMarkdown],
    [parseCodeBlocks], [parseInlineCode], [parseHeaders], [generateHeaderId],
    [parseBlockquotes], [parseLists], [wrapListItems], [parseLinks],
    [parseImages], [parseEmphasis], [parseLineBreaks], [parseParagraphs],
    [isBlockElement], [escapeHtml]), of the passes it leaves out of the
    default pipeline ([parseTables], [createTable],
    [parseHorizontalRules]), of the check of the contact form
    ([validateContactForm]) and of the reading of a blog post
    ([parseMarkdownPost]).

    Texts are lists of 8-bit code units read as Latin-1.  The JavaScript
    built-ins the parser relies on ([String.prototype.replace] with a global
    regular expression, [match], [split], [join], [trim], [includes],
    [startsWith], [toLowerCase], [parseInt]) are given as executable
    functions; the regular expressions are terms of a small syntax that are
    run by a backtracking matcher which follows the ECMAScript order of
    choices (greedy and lazy quantifiers, optional groups, captures, [^] and
    [$] under the [m] flag).

    The file has the model first, then the vocabulary of the properties,
    then the properties: the parser on concrete texts, the nesting of the
    list tags, the entry point, the matcher and the replacement loop, the
    fenced-code pass on one block, the parser on its own output for a
    text without markdown syntax, and then each pass on the texts it is
    written for, the tables, the contact form and the blog posts. *)

From Stdlib Require Import Ascii String DecimalString.
From Stdlib Require Import List Bool Arith NArith Lia.
Import ListNotations.

Set Implicit Arguments.

(* ================================================================= *)
(** ** Texts and characters *)

Abbreviation text := (list ascii).

Definition txt (s : string) : text := list_ascii_of_string s.

Definition dq : ascii := "034"%char.
Definition nl : ascii := "010"%char.
Definition q : text := [dq].

Definition code (c : ascii) : N := N_of_ascii c.

Definition between (lo hi : N) (c : ascii) : bool :=
  (N.leb lo (code c) && N.leb (code c) hi)%bool.

(** [\d] *)
Definition is_digit (c : ascii) : bool := between 48 57 c.

(** [\w] is [[A-Za-z0-9_]] *)
Definition is_word (c : ascii) : bool :=
  is_digit c || between 65 90 c || between 97 122 c || Ascii.eqb c "_".

(** Line terminators among the Latin-1 code units: LF and CR. *)
Definition is_lt (c : ascii) : bool :=
  N.eqb (code c) 10 || N.eqb (code c) 13.

(** [\s], also the set that [trim] strips: TAB, LF, VT, FF, CR, space and
    the no-break space. *)
Definition is_space (c : ascii) : bool :=
  between 9 13 c || N.eqb (code c) 32 || N.eqb (code c) 160.

(** [.] (no [s] flag): anything but a line terminator. *)
Definition dot (c : ascii) : bool := negb (is_lt c).

(** [[\s\S]] *)
Definition any (_ : ascii) : bool := true.

(** [[^c]] *)
Definition isnt (c : ascii) (x : ascii) : bool := negb (Ascii.eqb x c).

(** [toLowerCase] on one Latin-1 code unit. *)
Definition lower (c : ascii) : ascii :=
  if between 65 90 c then ascii_of_N (code c + 32)
  else if between 192 222 c && negb (N.eqb (code c) 215)
       then ascii_of_N (code c + 32)
  else c.

Definition toLowerCase (s : text) : text := map lower s.

Fixpoint dropWhile (p : ascii -> bool) (s : text) : text :=
  match s with
  | [] => []
  | c :: s' => if p c then dropWhile p s' else s
  end.

Definition trimStart (s : text) : text := dropWhile is_space s.
Definition trimEnd (s : text) : text := rev (dropWhile is_space (rev s)).
Definition trim (s : text) : text := trimEnd (trimStart s).

Fixpoint startsWith (w s : text) : bool :=
  match w, s with
  | [], _ => true
  | _ :: _, [] => false
  | a :: w', b :: s' => Ascii.eqb a b && startsWith w' s'
  end.

Fixpoint includes (w s : text) : bool :=
  startsWith w s || match s with [] => false | _ :: s' => includes w s' end.

(** [s.split(sep)] for a non-empty separator; [skip] counts the characters
    of a separator found earlier that are still to be passed over. *)
Fixpoint split_go (sep : text) (skip : nat) (s : text) : list text :=
  match s with
  | [] => [[]]
  | c :: s' =>
      match skip with
      | S n => split_go sep n s'
      | O =>
          if startsWith sep s then [] :: split_go sep (length sep - 1) s'
          else match split_go sep 0 s' with
               | p :: ps => (c :: p) :: ps
               | [] => [[c]]
               end
      end
  end.

Definition split (sep s : text) : list text := split_go sep 0 s.

Fixpoint join (sep : text) (l : list text) : text :=
  match l with
  | [] => []
  | [a] => a
  | a :: l' => a ++ sep ++ join sep l'
  end.

(** [parseInt] of a run of decimal digits (exact below 2^53). *)
Definition digit_val (c : ascii) : nat := N.to_nat (code c) - 48.
Definition parseInt (s : text) : nat :=
  fold_left (fun n c => 10 * n + digit_val c) s 0.

(** Decimal writing of a natural number. *)
Definition dec (n : nat) : text := txt (NilEmpty.string_of_uint (Nat.to_uint n)).

(* ================================================================= *)
(** ** Regular expressions *)

Inductive regex : Type :=
| Lit (w : text)                       (* a run of literal characters *)
| Cls (p : ascii -> bool)              (* a character class, once *)
| Rep (greedy : bool) (lo : nat) (hi : option nat) (p : ascii -> bool)
                                        (* a quantified character class *)
| Opt (r : regex)                      (* r? *)
| Grp (i : nat) (r : regex)            (* capture group number i *)
| Seq (r1 r2 : regex)
| Bol                                   (* ^ under the m flag *)
| Eol.                                  (* $ under the m flag *)

Declare Scope regex_scope.
Delimit Scope regex_scope with re.
Bind Scope regex_scope with regex.
Infix ";;" := Seq (at level 61, right associativity) : regex_scope.

Definition star p := Rep true 0 None p.
Definition plus p := Rep true 1 None p.
Definition lazy_star p := Rep false 0 None p.

(** A position in the subject: the characters already passed, last one
    first, and the characters ahead. *)
Definition pos : Type := text * text.

(** Captures, most recent binding first. *)
Definition caps : Type := list (nat * text).

Fixpoint cap (i : nat) (cs : caps) : option text :=
  match cs with
  | [] => None
  | (j, v) :: cs' => if Nat.eqb i j then Some v else cap i cs'
  end.

(** The text passed between two positions of one run of the matcher. *)
Definition passed (p p' : pos) : text :=
  rev (firstn (length (fst p') - length (fst p)) (fst p')).

Definition at_bol (p : pos) : bool :=
  match fst p with [] => true | c :: _ => is_lt c end.

Definition at_eol (p : pos) : bool :=
  match snd p with [] => true | c :: _ => is_lt c end.

Definition outcome : Type := caps * pos.
Definition cont : Type := pos -> caps -> option outcome.

Definition accept : cont := fun p cs => Some (cs, p).

Fixpoint lit (w : text) (k : cont) (b a : text) (cs : caps) : option outcome :=
  match w with
  | [] => k (b, a) cs
  | c :: w' =>
      match a with
      | x :: a' => if Ascii.eqb x c then lit w' k (x :: b) a' cs else None
      | [] => None
      end
  end.

Definition more (hi : option nat) : bool :=
  match hi with Some O => false | _ => true end.

(** A quantified class may stop once no repetition is owed any more. *)
Definition halt (k : cont) (lo : nat) (b a : text) (cs : caps)
    : option outcome :=
  match lo with O => k (b, a) cs | S _ => None end.

(** Quantified class: [lo] repetitions are still owed, [hi] more are
    allowed.  A greedy quantifier first tries to take one more character, a
    lazy one first tries to stop. *)
Fixpoint rep (greedy : bool) (p : ascii -> bool) (k : cont)
    (a : text) (lo : nat) (hi : option nat) (b : text) (cs : caps)
    : option outcome :=
  match a with
  | [] => halt k lo b a cs
  | x :: a' =>
      if greedy then
        match
          (if p x && more hi
           then rep greedy p k a' (pred lo) (option_map pred hi) (x :: b) cs
           else None)
        with
        | Some o => Some o
        | None => halt k lo b a cs
        end
      else
        match halt k lo b a cs with
        | Some o => Some o
        | None =>
            if p x && more hi
            then rep greedy p k a' (pred lo) (option_map pred hi) (x :: b) cs
            else None
        end
  end.

(** [run r k p cs]: match [r] at position [p], then go on with [k];
    the first success in the backtracking order is the answer. *)
Fixpoint run (r : regex) (k : cont) (p : pos) (cs : caps) : option outcome :=
  match r with
  | Lit w => lit w k (fst p) (snd p) cs
  | Cls f =>
      match snd p with
      | x :: a' => if f x then k (x :: fst p, a') cs else None
      | [] => None
      end
  | Rep g lo hi f => rep g f k (snd p) lo hi (fst p) cs
  | Opt r' =>
      match run r' k p cs with
      | Some o => Some o
      | None => k p cs
      end
  | Grp i r' => run r' (fun p' cs' => k p' ((i, passed p p') :: cs')) p cs
  | Seq r1 r2 => run r1 (run r2 k) p cs
  | Bol => if at_bol p then k p cs else None
  | Eol => if at_eol p then k p cs else None
  end.

(** One attempt at one position: the captures, the matched text and the
    position after the match. *)
Definition exec (r : regex) (p : pos) : option outcome := run r accept p [].

(** [s.match(r)] without the [g] flag: the leftmost match. *)
Fixpoint search (r : regex) (b a : text) : option (text * caps) :=
  match exec r (b, a) with
  | Some (cs, p') => Some (passed (b, a) p', cs)
  | None =>
      match a with
      | [] => None
      | x :: a' => search r (x :: b) a'
      end
  end.

Definition js_match (r : regex) (s : text) : option (text * caps) :=
  search r [] s.

(** [s.replace(r, f)] with the [g] flag.  [f] receives the matched text and
    the captures.  [skip] counts the characters of the last match that are
    still to be passed over. *)
Fixpoint replace_go (r : regex) (f : text -> caps -> text)
    (skip : nat) (b a : text) : text :=
  match skip with
  | S n =>
      match a with
      | [] => []
      | x :: a' => replace_go r f n (x :: b) a'
      end
  | O =>
      match exec r (b, a) with
      | Some (cs, p') =>
          f (passed (b, a) p') cs ++
          match a with
          | [] => []
          | x :: a' =>
              match length (fst p') - length b with
              | O => x :: replace_go r f 0 (x :: b) a'
              | S n => replace_go r f n (x :: b) a'
              end
          end
      | None =>
          match a with
          | [] => []
          | x :: a' => x :: replace_go r f 0 (x :: b) a'
          end
      end
  end.

Definition replace (r : regex) (f : text -> caps -> text) (s : text) : text :=
  replace_go r f 0 [] s.

(** [$n] in a replacement pattern: the capture, or nothing when the group
    did not take part in the match. *)
Definition group (i : nat) (cs : caps) : text :=
  match cap i cs with Some v => v | None => [] end.

(* ================================================================= *)
(** ** The passes *)

Definition bt : ascii := "`"%char.
Definition fence : text := [bt; bt; bt].

(** [escapeHtml]: the table [htmlEscapes] and the replacement of every
    character of its class (ampersand, angle brackets, double and single
    quote) by its entry. *)
Definition htmlEscapes (m : text) : option text :=
  if list_eq_dec ascii_dec m (txt "&") then Some (txt "&amp;")
  else if list_eq_dec ascii_dec m (txt "<") then Some (txt "&lt;")
  else if list_eq_dec ascii_dec m (txt ">") then Some (txt "&gt;")
  else if list_eq_dec ascii_dec m q then Some (txt "&quot;")
  else if list_eq_dec ascii_dec m (txt "'") then Some (txt "&#39;")
  else None.

Definition is_special (c : ascii) : bool :=
  Ascii.eqb c "&" || Ascii.eqb c "<" || Ascii.eqb c ">" || Ascii.eqb c dq
  || Ascii.eqb c "'".

Definition escapeHtml (s : text) : text :=
  replace (Cls is_special)
    (fun m _ => match htmlEscapes m with
                | Some e => e | None => txt "undefined" end) s.

(** /```(\w+)?\n([\s\S]*?)\n```/g *)
Definition re_fence_lang : regex :=
  (Lit fence ;; Opt (Grp 1 (plus is_word)) ;; Lit [nl] ;;
   Grp 2 (lazy_star any) ;; Lit (nl :: fence))%re.

(** /```\n([\s\S]*?)\n```/g *)
Definition re_fence : regex :=
  (Lit (fence ++ [nl]) ;; Grp 1 (lazy_star any) ;; Lit (nl :: fence))%re.

Definition parseCodeBlocks (s : text) : text :=
  let s :=
    replace re_fence_lang
      (fun _ cs =>
         let lang :=
           match cap 1 cs with
           | Some language =>
               txt " class=" ++ q ++ txt "language-" ++ language ++ q
           | None => []
           end in
         let escapedCode := escapeHtml (trim (group 2 cs)) in
         txt "<pre><code" ++ lang ++ txt ">" ++ escapedCode
           ++ txt "</code></pre>") s in
  replace re_fence
    (fun _ cs =>
       let escapedCode := escapeHtml (trim (group 1 cs)) in
       txt "<pre><code>" ++ escapedCode ++ txt "</code></pre>") s.

(** /`([^`]+)`/g *)
Definition re_inline_code : regex :=
  (Lit [bt] ;; Grp 1 (plus (isnt bt)) ;; Lit [bt])%re.

Definition parseInlineCode (s : text) : text :=
  replace re_inline_code
    (fun _ cs => txt "<code>" ++ group 1 cs ++ txt "</code>") s.

(** /[^\w\s-]/g, /\s+/g *)
Definition is_slug_char (c : ascii) : bool :=
  is_word c || is_space c || Ascii.eqb c "-".

Definition generateHeaderId (s : text) : text :=
  let s := toLowerCase s in
  let s := replace (Cls (fun c => negb (is_slug_char c))) (fun _ _ => []) s in
  let s := replace (plus is_space) (fun _ _ => txt "-") s in
  trim s.

(** /^(#{1,6})\s+(.+)$/gm *)
Definition re_header : regex :=
  (Bol ;; Grp 1 (Rep true 1 (Some 6) (Ascii.eqb "#")) ;; plus is_space ;;
   Grp 2 (plus dot) ;; Eol)%re.

Definition parseHeaders (s : text) : text :=
  replace re_header
    (fun _ cs =>
       let hashes := group 1 cs in
       let content := group 2 cs in
       let level := dec (length hashes) in
       let id := generateHeaderId content in
       txt "<h" ++ level ++ txt " id=" ++ q ++ id ++ q ++ txt ">"
         ++ trim content ++ txt "</h" ++ level ++ txt ">") s.

(** /^>\s+(.+)$/gm *)
Definition re_blockquote : regex :=
  (Bol ;; Lit (txt ">") ;; plus is_space ;; Grp 1 (plus dot) ;; Eol)%re.

Definition parseBlockquotes (s : text) : text :=
  replace re_blockquote
    (fun _ cs => txt "<blockquote>" ++ group 1 cs ++ txt "</blockquote>") s.

(** The two item patterns, both under the flags [gm]: a line start, a
    captured run of any number of [\s], then the marker (a hyphen, or a run
    of digits and a full stop), then /\s+(.+)$/. *)
Definition re_ul_item : regex :=
  (Bol ;; Grp 1 (star is_space) ;; Lit (txt "-") ;; plus is_space ;;
   Grp 2 (plus dot) ;; Eol)%re.

Definition re_ol_item : regex :=
  (Bol ;; Grp 1 (star is_space) ;; plus is_digit ;; Lit (txt ".") ;;
   plus is_space ;; Grp 2 (plus dot) ;; Eol)%re.

(** The writing of [n / 2] as the template literal prints it. *)
Definition half (n : nat) : text :=
  if Nat.even n then dec (Nat.div2 n) else dec (Nat.div2 n) ++ txt ".5".

Definition data_ordered : text := txt "data-ordered=" ++ q ++ txt "true" ++ q.

(** The pattern of a tagged item line: the opening [li] tag with its
    [data-level] attribute, (\d+) between double quotes, the optional
    [data-ordered] attribute, then a captured greedy run of [.] up to the
    closing [li] tag. *)
Definition re_li : regex :=
  (Lit (txt "<li data-level=" ++ q) ;; Grp 1 (plus is_digit) ;; Lit q ;;
   Opt (Lit (txt " " ++ data_ordered)) ;; Lit (txt ">") ;;
   Grp 2 (star dot) ;; Lit (txt "</li>"))%re.

(** An entry of [listStack]. *)
Record frame : Type := Frame { level : nat; isOrdered : bool }.

(** What [wrapListItems] pushes on [result]: a list tag of its own, an item
    of its own, or a line of the input left as it is. *)
Inductive piece : Type :=
| POpen (ordered : bool)
| PClose (ordered : bool)
| PItem (content : text)
| PLine (line : text).

Definition render (x : piece) : text :=
  match x with
  | POpen true => txt "<ol>"
  | POpen false => txt "<ul>"
  | PClose true => txt "</ol>"
  | PClose false => txt "</ul>"
  | PItem c => txt "<li>" ++ c ++ txt "</li>"
  | PLine l => l
  end.

(** The stack has its top first.
    [while (listStack.length > 0 && top.level >= level) pop, push the closing tag] *)
Fixpoint close_from (lv : nat) (st : list frame) : list piece * list frame :=
  match st with
  | [] => ([], [])
  | f :: st' =>
      if Nat.leb lv (level f)
      then let (out, rest) := close_from lv st' in
           (PClose (isOrdered f) :: out, rest)
      else ([], st)
  end.

(** [while (listStack.length > 0) pop, push the closing tag] *)
Definition close_all (st : list frame) : list piece :=
  map (fun f => PClose (isOrdered f)) st.

(** The state of the loop of [wrapListItems]. *)
Record wstate : Type :=
  WState { inList : bool; listStack : list frame; result : list piece }.

(** What the loop reads off a line: [listMatch] and, when it is not null,
    [level], [isOrdered] and [content]. *)
Definition classify (line : text) : option (nat * bool * text) :=
  match js_match re_li line with
  | Some (_, cs) =>
      Some (parseInt (group 1 cs), includes data_ordered line, group 2 cs)
  | None => None
  end.

(** The branch of the loop for a tagged item line; [None] is the fault of
    reading [.level] of an absent top frame. *)
Definition on_item (s : wstate) (lv : nat) (ord : bool) (content : text)
    : option wstate :=
  if negb (inList s) then
    Some (WState true [Frame lv ord]
            (result s ++ [POpen ord; PItem content]))
  else
    match listStack s with
    | [] => None
    | currentList :: _ =>
        if Nat.eqb lv (level currentList)
           && Bool.eqb ord (isOrdered currentList)
        then Some (WState true (listStack s) (result s ++ [PItem content]))
        else if Nat.ltb (level currentList) lv
        then Some (WState true (Frame lv ord :: listStack s)
                     (result s ++ [POpen ord; PItem content]))
        else
          let (closed, st) := close_from lv (listStack s) in
          match st with
          | [] => Some (WState true [Frame lv ord]
                          (result s ++ closed ++ [POpen ord; PItem content]))
          | _ :: _ => Some (WState true st
                              (result s ++ closed ++ [PItem content]))
          end
    end.

(** The branch of the loop for any other line. *)
Definition on_line (s : wstate) (line : text) : wstate :=
  if inList s
  then WState false [] (result s ++ close_all (listStack s) ++ [PLine line])
  else WState false (listStack s) (result s ++ [PLine line]).

Definition wrap_step (s : wstate) (line : text) : option wstate :=
  match classify line with
  | Some (lv, ord, content) => on_item s lv ord content
  | None => Some (on_line s line)
  end.

Fixpoint wrap_loop (s : wstate) (lines : list text) : option wstate :=
  match lines with
  | [] => Some s
  | l :: lines' =>
      match wrap_step s l with
      | Some s' => wrap_loop s' lines'
      | None => None
      end
  end.

(** The pieces pushed on [result] by the time [wrapListItems] joins them. *)
Definition wrap_pieces (s : text) : option (list piece) :=
  match wrap_loop (WState false [] []) (split [nl] s) with
  | Some st => Some (result st ++ close_all (listStack st))
  | None => None
  end.

Definition wrapListItems (s : text) : option text :=
  option_map (fun ps => join [nl] (map render ps)) (wrap_pieces s).

Definition li_open (lv : text) : text := txt "<li data-level=" ++ q ++ lv ++ q.

Definition tag_list_lines (s : text) : text :=
  let s :=
    replace re_ul_item
      (fun _ cs =>
         let lv := half (length (group 1 cs)) in
         li_open lv ++ txt ">" ++ group 2 cs ++ txt "</li>") s in
  replace re_ol_item
    (fun _ cs =>
       let lv := half (length (group 1 cs)) in
       li_open lv ++ txt " " ++ data_ordered ++ txt ">" ++ group 2 cs
         ++ txt "</li>") s.

Definition parseLists (s : text) : option text :=
  wrapListItems (tag_list_lines s).

(** Links: /\[([^\]]+)\]\(([^)]+)\s+QUOTE([^QUOTE]+)QUOTE\)/g, then
    /\[([^\]]+)\]\(([^)]+)\)/g, then /(https?:\/\/[^\s<]+)/g. *)
Definition re_link_title : regex :=
  (Lit (txt "[") ;; Grp 1 (plus (isnt "]")) ;; Lit (txt "](") ;;
   Grp 2 (plus (isnt ")")) ;; plus is_space ;; Lit q ;;
   Grp 3 (plus (isnt dq)) ;; Lit (q ++ txt ")"))%re.

Definition re_link : regex :=
  (Lit (txt "[") ;; Grp 1 (plus (isnt "]")) ;; Lit (txt "](") ;;
   Grp 2 (plus (isnt ")")) ;; Lit (txt ")"))%re.

Definition re_autolink : regex :=
  Grp 1 (Lit (txt "http") ;; Opt (Lit (txt "s")) ;; Lit (txt "://") ;;
         plus (fun c => negb (is_space c || Ascii.eqb c "<")))%re.

Definition parseLinks (s : text) : text :=
  let s :=
    replace re_link_title
      (fun _ cs =>
         txt "<a href=" ++ q ++ group 2 cs ++ q ++ txt " title=" ++ q
           ++ group 3 cs ++ q ++ txt ">" ++ group 1 cs ++ txt "</a>") s in
  let s :=
    replace re_link
      (fun _ cs =>
         txt "<a href=" ++ q ++ group 2 cs ++ q ++ txt ">" ++ group 1 cs
           ++ txt "</a>") s in
  replace re_autolink
    (fun _ cs =>
       txt "<a href=" ++ q ++ group 1 cs ++ q ++ txt ">" ++ group 1 cs
         ++ txt "</a>") s.

(** Images: the two link patterns after an exclamation mark, the bracketed
    part being allowed to be empty. *)
Definition re_image_title : regex :=
  (Lit (txt "![") ;; Grp 1 (star (isnt "]")) ;; Lit (txt "](") ;;
   Grp 2 (plus (isnt ")")) ;; plus is_space ;; Lit q ;;
   Grp 3 (plus (isnt dq)) ;; Lit (q ++ txt ")"))%re.

Definition re_image : regex :=
  (Lit (txt "![") ;; Grp 1 (star (isnt "]")) ;; Lit (txt "](") ;;
   Grp 2 (plus (isnt ")")) ;; Lit (txt ")"))%re.

Definition parseImages (s : text) : text :=
  let s :=
    replace re_image_title
      (fun _ cs =>
         txt "<img src=" ++ q ++ group 2 cs ++ q ++ txt " alt=" ++ q
           ++ group 1 cs ++ q ++ txt " title=" ++ q ++ group 3 cs ++ q
           ++ txt ">") s in
  replace re_image
    (fun _ cs =>
       txt "<img src=" ++ q ++ group 2 cs ++ q ++ txt " alt=" ++ q
         ++ group 1 cs ++ q ++ txt ">") s.

(** Emphasis: a marker, a captured non-empty run without the marker's
    character, the marker again. *)
Definition re_span (mark : text) (c : ascii) : regex :=
  (Lit mark ;; Grp 1 (plus (isnt c)) ;; Lit mark)%re.

Definition wrap_span (tag : text) : text -> caps -> text :=
  fun _ cs => txt "<" ++ tag ++ txt ">" ++ group 1 cs ++ txt "</" ++ tag
                ++ txt ">".

Definition parseEmphasis (s : text) : text :=
  let s := replace (re_span (txt "**") "*") (wrap_span (txt "strong")) s in
  let s := replace (re_span (txt "__") "_") (wrap_span (txt "strong")) s in
  let s := replace (re_span (txt "*") "*") (wrap_span (txt "em")) s in
  let s := replace (re_span (txt "_") "_") (wrap_span (txt "em")) s in
  replace (re_span (txt "~~") "~") (wrap_span (txt "del")) s.

(** /  \n/g and /\n{2,}/g *)
Definition re_hard_break : regex := Lit (txt "  " ++ [nl]).
Definition re_blank_lines : regex := Rep true 2 None (Ascii.eqb nl).

Definition br : text -> caps -> text := fun _ _ => txt "<br>" ++ [nl].
Definition two_nl : text -> caps -> text := fun _ _ => [nl; nl].

Definition parseLineBreaks (s : text) : text :=
  let s := replace re_hard_break br s in
  replace re_blank_lines two_nl s.

Definition blockTags : list text :=
  map txt
    ["<h1"; "<h2"; "<h3"; "<h4"; "<h5"; "<h6";
     "<p>"; "<div"; "<blockquote"; "<pre"; "<ul"; "<ol"; "<li";
     "<table"; "<form"; "<fieldset"; "<address"]%string.

Definition isBlockElement (s : text) : bool :=
  existsb (fun tag => startsWith tag s) blockTags.

(** The body of the loop of [parseParagraphs]: what one block adds to
    [paragraphs]. *)
Definition paragraph (block : text) : list text :=
  let line := trim block in
  match line with
  | [] => []
  | _ :: _ =>
      if isBlockElement line then [line]
      else [txt "<p>" ++ line ++ txt "</p>"]
  end.

Definition parseParagraphs (s : text) : text :=
  join [nl; nl] (flat_map paragraph (split [nl; nl] s)).

(** The values [parseMarkdown] may be called with. *)
Inductive value : Type :=
| VUndefined
| VNull
| VBoolean (b : bool)
| VNumber (n : N)
| VString (s : text)
| VObject.

(** [!v] *)
Definition falsy (v : value) : bool :=
  match v with
  | VUndefined | VNull => true
  | VBoolean b => negb b
  | VNumber n => N.eqb n 0
  | VString s => match s with [] => true | _ => false end
  | VObject => false
  end.

Definition is_string (v : value) : bool :=
  match v with VString _ => true | _ => false end.

(** The passes after the guard, in the order of the source. *)
Definition pipeline (s : text) : option text :=
  let html := parseCodeBlocks s in
  let html := parseInlineCode html in
  let html := parseHeaders html in
  let html := parseBlockquotes html in
  match parseLists html with
  | None => None
  | Some html =>
      let html := parseLinks html in
      let html := parseImages html in
      let html := parseEmphasis html in
      let html := parseLineBreaks html in
      let html := parseParagraphs html in
      Some (trim html)
  end.

(** [None] stands for a fault (an exception thrown by the call). *)
Definition parseMarkdown (markdown : value) : option text :=
  if falsy markdown || negb (is_string markdown) then Some []
  else match markdown with
       | VString s => pipeline s
       | _ => Some []
       end.


(* ================================================================= *)
(** ** The passes outside the default pipeline *)

(** The two patterns of [parseHorizontalRules], both under the flags
    [gm]: a line of three or more hyphens, or of three or more asterisks. *)
Definition re_hr_dash : regex :=
  (Bol ;; Lit (txt "--") ;; plus (Ascii.eqb "-") ;; Eol)%re.

Definition re_hr_star : regex :=
  (Bol ;; Lit (txt "**") ;; plus (Ascii.eqb "*") ;; Eol)%re.

Definition hr : text -> caps -> text := fun _ _ => txt "<hr>".

Definition parseHorizontalRules (s : text) : text :=
  let s := replace re_hr_dash hr s in
  replace re_hr_star hr s.

(** A continuation that accepts at the end of the subject only: with it, a
    run from the first position is the test of an expression written
    between [^] and [$] without the [m] flag. *)
Definition at_end : cont :=
  fun p cs => match snd p with [] => Some (cs, p) | _ :: _ => None end.

Definition test_whole (r : regex) (s : text) : bool :=
  match run r at_end ([], s) [] with Some _ => true | None => false end.

Definition endsWith (w s : text) : bool := startsWith (rev w) (rev s).

(** [s.slice(1, -1)] *)
Definition slice_inner (s : text) : text := removelast (tl s).

(** [createTable] *)
Definition createTable (rows : list (list text)) : text :=
  match rows with
  | [] => []
  | header :: body =>
      txt "<table>" ++ [nl] ++ txt "<thead>" ++ [nl] ++ txt "<tr>" ++ [nl]
      ++ flat_map (fun cell => txt "<th>" ++ cell ++ txt "</th>" ++ [nl]) header
      ++ txt "</tr>" ++ [nl] ++ txt "</thead>" ++ [nl]
      ++ match body with
         | [] => []
         | _ :: _ =>
             txt "<tbody>" ++ [nl]
             ++ flat_map
                  (fun row =>
                     txt "<tr>" ++ [nl]
                     ++ flat_map
                          (fun cell => txt "<td>" ++ cell ++ txt "</td>" ++ [nl])
                          row
                     ++ txt "</tr>" ++ [nl]) body
             ++ txt "</tbody>" ++ [nl]
         end
      ++ txt "</table>"
  end.

(** A trimmed line is a table row when it starts and ends with a bar. *)
Definition is_row (line : text) : bool :=
  startsWith (txt "|") line && endsWith (txt "|") line.

Definition row_cells (line : text) : list text :=
  map trim (split (txt "|") (slice_inner line)).

(** The separator test: a bar, any run of white space, hyphens and bars, a
    bar, and nothing else. *)
Definition re_separator : regex :=
  (Lit (txt "|") ;;
   star (fun c => is_space c || Ascii.eqb c "-" || Ascii.eqb c "|") ;;
   Lit (txt "|"))%re.

Definition is_separator (line : text) : bool := test_whole re_separator line.

(** The loop of [parseTables] over the lines still to read; it returns what
    it pushes on [result].  A separator line after a row is passed over
    with the row. *)
Fixpoint tables_loop (lines : list text) (inTable : bool)
    (tableRows : list (list text)) : list text :=
  match lines with
  | [] => if inTable then [createTable tableRows] else []
  | l :: rest =>
      let line := trim l in
      if is_row line then
        let tableRows' := (if inTable then tableRows else []) ++ [row_cells line] in
        match rest with
        | next :: rest' =>
            if is_separator (trim next)
            then tables_loop rest' true tableRows'
            else tables_loop rest true tableRows'
        | [] => tables_loop rest true tableRows'
        end
      else
        (if inTable then [createTable tableRows] else [])
        ++ line :: tables_loop rest false []
  end.

Definition parseTables (s : text) : text :=
  join [nl] (tables_loop (split [nl] s) false []).

(* ================================================================= *)
(** ** The contact form *)

(** The form values: a field that is absent is [None]. *)
Record formValues : Type :=
  FormValues { name : option text; email : option text;
               subject : option text; message : option text }.

(** [!v] for a field. *)
Definition missing (v : option text) : bool :=
  match v with Some (_ :: _) => false | _ => true end.

Definition trimmed_length (v : option text) : nat :=
  match v with Some s => length (trim s) | None => 0 end.

(** The pattern of an address: no white space and no at-sign in its three
    parts, an at-sign after the first part and a full stop before the
    last. *)
Definition address_char (c : ascii) : bool :=
  negb (is_space c || Ascii.eqb c "@").

Definition emailRegex : regex :=
  (plus address_char ;; Lit (txt "@") ;; plus address_char ;;
   Lit (txt ".") ;; plus address_char)%re.

Definition valid_email (v : option text) : bool :=
  match v with Some s => test_whole emailRegex s | None => false end.

(** [validateContactForm]: the answer, and the notification it shows when
    the answer is no. *)
Definition form_errors (data : formValues) : list text :=
  (if missing (name data) || Nat.ltb (trimmed_length (name data)) 2
   then [txt "Name must be at least 2 characters long"] else [])
  ++ (if missing (email data) || negb (valid_email (email data))
      then [txt "Please enter a valid email address"] else [])
  ++ (if missing (subject data) || Nat.ltb (trimmed_length (subject data)) 5
      then [txt "Subject must be at least 5 characters long"] else [])
  ++ (if missing (message data) || Nat.ltb (trimmed_length (message data)) 10
      then [txt "Message must be at least 10 characters long"] else []).

Definition validateContactForm (data : formValues) : bool * option text :=
  let errors := form_errors data in
  if Nat.ltb 0 (length errors)
  then (false,
        Some (txt "Please fix the following errors:" ++ [nl]
                ++ join [nl] errors))
  else (true, None).

(* ================================================================= *)
(** ** Blog posts *)

(** [s.replace(w, r)] with a string for pattern: the first occurrence
    only.  The replacement is used with the empty text alone, which has no
    replacement pattern in it. *)
Fixpoint replace_first (w r s : text) : text :=
  if startsWith w s then r ++ skipn (length w) s
  else match s with
       | [] => []
       | c :: s' => c :: replace_first w r s'
       end.

(** The object [parseMarkdownPost] fills in.  [content] is [None] when the
    call of [parseMarkdown] throws: the exception leaves
    [parseMarkdownPost] with it, and the other fields are those the object
    holds at that point. *)
Record post : Type :=
  Post { slug : text; title : text; date : text; category : text;
         tags : list text; excerpt : text; content : option text;
         readingTime : nat }.

Definition set_title (p : post) (v : text) : post :=
  Post (slug p) v (date p) (category p) (tags p) (excerpt p) (content p)
    (readingTime p).
Definition set_date (p : post) (v : text) : post :=
  Post (slug p) (title p) v (category p) (tags p) (excerpt p) (content p)
    (readingTime p).
Definition set_category (p : post) (v : text) : post :=
  Post (slug p) (title p) (date p) v (tags p) (excerpt p) (content p)
    (readingTime p).
Definition set_tags (p : post) (v : list text) : post :=
  Post (slug p) (title p) (date p) (category p) v (excerpt p) (content p)
    (readingTime p).
Definition set_excerpt (p : post) (v : text) : post :=
  Post (slug p) (title p) (date p) (category p) (tags p) v (content p)
    (readingTime p).

(** The front matter: three hyphens and a line feed at the start of the
    input, a captured lazy run of any characters, a line feed and three
    hyphens.  The pattern has no [m] flag, so it is tried at the start of
    the input only. *)
Definition re_frontmatter : regex :=
  (Lit (txt "---" ++ [nl]) ;; Grp 1 (lazy_star any) ;;
   Lit (nl :: txt "---"))%re.

(** The list of tags: a captured lazy run of [.] between brackets. *)
Definition re_tags : regex :=
  (Lit (txt "[") ;; Grp 1 (Rep false 0 None dot) ;; Lit (txt "]"))%re.

(** The first heading of level one, under the flag [m]. *)
Definition re_title : regex :=
  (Bol ;; Lit (txt "#") ;; plus is_space ;; Grp 1 (plus dot) ;; Eol)%re.

Definition text_eqb (a b : text) : bool :=
  if list_eq_dec ascii_dec a b then true else false.

Definition is_quote (c : ascii) : bool :=
  Ascii.eqb c "'" || Ascii.eqb c dq.

(** The body of the [forEach] over the lines of the front matter. *)
Definition front_line (p : post) (line : text) : post :=
  match split (txt ":") line with
  | key :: valueParts =>
      if negb (match key with [] => true | _ :: _ => false end)
         && Nat.ltb 0 (length valueParts)
      then
        let value := trim (join (txt ":") valueParts) in
        let k := trim key in
        if text_eqb k (txt "title") then set_title p value
        else if text_eqb k (txt "date") then set_date p value
        else if text_eqb k (txt "category") then set_category p value
        else if text_eqb k (txt "tags") then
          match js_match re_tags value with
          | Some (_, cs) =>
              set_tags p
                (map (fun tag =>
                        replace (Cls is_quote) (fun _ _ => []) (trim tag))
                   (split (txt ",") (group 1 cs)))
          | None => p
          end
        else if text_eqb k (txt "excerpt") then set_excerpt p value
        else p
      else p
  | [] => p
  end.

(** [toUpperCase] on one character of the class [\w]. *)
Definition upper (c : ascii) : ascii :=
  if between 97 122 c then ascii_of_N (code c - 32) else c.

(** The replacement of every word character at a word boundary by its
    upper case: a word character is at a boundary when no word character
    stands before it. *)
Fixpoint capitalize_words (after_word : bool) (s : text) : text :=
  match s with
  | [] => []
  | c :: s' =>
      (if is_word c && negb after_word then upper c else c)
        :: capitalize_words (is_word c) s'
  end.

Definition excerptLength : nat := 200.

Definition is_mark (c : ascii) : bool :=
  Ascii.eqb c "#" || Ascii.eqb c "*" || Ascii.eqb c bt.

(** The excerpt made of the content when the front matter gives none. *)
Definition generated_excerpt (content : text) : text :=
  let textContent :=
    trim (replace (plus (Ascii.eqb nl)) (fun _ _ => txt " ")
            (replace (Cls is_mark) (fun _ _ => []) content)) in
  firstn excerptLength textContent
    ++ (if Nat.ltb excerptLength (length textContent) then txt "..." else []).

(** The number of runs of white space: the pieces of a split at such runs
    are one more. *)
Fixpoint count_runs (in_run : bool) (s : text) : nat :=
  match s with
  | [] => 0
  | c :: s' =>
      if is_space c
      then (if in_run then 0 else 1) + count_runs true s'
      else count_runs false s'
  end.

Definition parseMarkdownPost (markdown name_of_file : text) : post :=
  let p0 := Post name_of_file [] [] [] [] [] None 0 in
  let '(p1, content) :=
    match exec re_frontmatter ([], markdown) with
    | Some (cs, p') =>
        let frontmatter := group 1 cs in
        let content :=
          trim (replace_first (passed ([], markdown) p') [] markdown) in
        (fold_left front_line (split [nl] frontmatter) p0, content)
    | None => (p0, markdown)
    end in
  let p2 :=
    match title p1 with
    | [] =>
        match js_match re_title content with
        | Some (_, cs) => set_title p1 (group 1 cs)
        | None =>
            set_title p1
              (capitalize_words false
                 (replace (Cls (Ascii.eqb "-")) (fun _ _ => txt " ")
                    name_of_file))
        end
    | _ :: _ => p1
    end in
  let p3 :=
    match excerpt p2 with
    | [] => set_excerpt p2 (generated_excerpt content)
    | _ :: _ => p2
    end in
  let html := parseMarkdown (VString content) in
  let wordCount := S (count_runs false content) in
  Post (slug p3) (title p3) (date p3) (category p3) (tags p3) (excerpt p3)
    html
    (match html with
     | Some _ => Nat.max 1 ((wordCount + 199) / 200)
     | None => 0
     end).

(* ================================================================= *)
(** ** Vocabulary of the properties *)

(** A text given line by line. *)
Definition lines (l : list string) : text := join [nl] (map txt l).

(** Nesting check of the list tags among pieces: [open] holds the kinds of
    the lists that are open, innermost first.  A closing tag has to match
    the innermost open list, and a line of the input may only come while no
    list is open.  The answer is the lists left open at the end. *)
Fixpoint nest (open : list bool) (ps : list piece) : option (list bool) :=
  match ps with
  | [] => Some open
  | POpen o :: ps' => nest (o :: open) ps'
  | PClose o :: ps' =>
      match open with
      | o' :: open' => if Bool.eqb o o' then nest open' ps' else None
      | [] => None
      end
  | PItem _ :: ps' => nest open ps'
  | PLine _ :: ps' =>
      match open with
      | [] => nest [] ps'
      | _ :: _ => None
      end
  end.

(** No white space at either end. *)
Definition starts_clean (s : text) : bool :=
  match s with [] => true | c :: _ => negb (is_space c) end.

Definition trimmed (s : text) : bool :=
  starts_clean s && starts_clean (rev s).

(** The inputs the guard of [parseMarkdown] turns away. *)
Definition invalid (v : value) : bool :=
  match v with
  | VString (_ :: _) => false
  | _ => true
  end.

(** The tagged item lines of given levels, as [wrapListItems] reads them. *)
Definition items (s : wstate) (l : list (nat * bool * text)) : option wstate :=
  fold_left
    (fun acc it =>
       match acc with
       | Some st => let '(lv, ord, c) := it in on_item st lv ord c
       | None => None
       end) l (Some s).

Definition start : wstate := WState false [] [].

(** What holds of the state of the loop of [wrapListItems] between two
    lines: the pieces pushed so far nest well and leave open exactly the
    lists of [listStack], and [inList] tells whether the stack has a frame. *)
Definition wf (s : wstate) : Prop :=
  nest [] (result s) = Some (map isOrdered (listStack s))
  /\ (inList s = false -> listStack s = [])
  /\ (inList s = true -> listStack s <> []).

(** *** What a match looks like

    [fits r b w a] reads: at a position with [b] behind (last character
    first) and [w ++ a] ahead, the expression [r] can take exactly [w]. *)
Inductive fits : regex -> text -> text -> text -> Prop :=
| fits_lit w b a : fits (Lit w) b w a
| fits_cls f x b a : f x = true -> fits (Cls f) b [x] a
| fits_rep g lo hi f w b a :
    Forall (fun x => f x = true) w -> lo <= length w ->
    fits (Rep g lo hi f) b w a
| fits_opt_in r b w a : fits r b w a -> fits (Opt r) b w a
| fits_opt_out r b a : fits (Opt r) b [] a
| fits_grp i r b w a : fits r b w a -> fits (Grp i r) b w a
| fits_seq r1 r2 b w1 w2 a :
    fits r1 b w1 (w2 ++ a) -> fits r2 (rev w1 ++ b) w2 a ->
    fits (Seq r1 r2) b (w1 ++ w2) a
| fits_bol b a : at_bol (b, a) = true -> fits Bol b [] a
| fits_eol b a : at_eol (b, a) = true -> fits Eol b [] a.

(** [must P r]: whatever [r] takes holds a character that satisfies [P]. *)
Inductive must (P : ascii -> Prop) : regex -> Prop :=
| must_lit w : Exists P w -> must P (Lit w)
| must_cls f : (forall x, f x = true -> P x) -> must P (Cls f)
| must_rep g lo hi f :
    1 <= lo -> (forall x, f x = true -> P x) -> must P (Rep g lo hi f)
| must_grp i r : must P r -> must P (Grp i r)
| must_seq_l r1 r2 : must P r1 -> must P (Seq r1 r2)
| must_seq_r r1 r2 : must P r2 -> must P (Seq r1 r2).

(** The run of [replace_go] from a position, told as a derivation: the
    subject ahead, and what is written for it. *)
Inductive replaced (r : regex) (f : text -> caps -> text)
    : text -> text -> text -> Prop :=
| rp_end b : exec r (b, []) = None -> replaced r f b [] []
| rp_end_match b cs p' :
    exec r (b, []) = Some (cs, p') -> replaced r f b [] (f [] cs)
| rp_keep b x a o :
    exec r (b, x :: a) = None ->
    replaced r f (x :: b) a o -> replaced r f b (x :: a) (x :: o)
| rp_empty b x a o cs :
    exec r (b, x :: a) = Some (cs, (b, x :: a)) ->
    replaced r f (x :: b) a o ->
    replaced r f b (x :: a) (f [] cs ++ x :: o)
| rp_match b m a o cs :
    m <> [] ->
    exec r (b, m ++ a) = Some (cs, (rev m ++ b, a)) ->
    replaced r f (rev m ++ b) a o ->
    replaced r f b (m ++ a) (f m cs ++ o).

(** *** Plain texts *)

(** No two neighbours of the text are related by [R]. *)
Fixpoint pair_free (R : ascii -> ascii -> bool) (s : text) : bool :=
  match s with
  | x :: s' =>
      match s' with
      | y :: _ => negb (R x y) && pair_free R s'
      | [] => true
      end
  | [] => true
  end.



(** The marker of an ordered item is a digit followed by a full stop, the
    one of a bare address a colon followed by a slash. *)
Definition digit_dot (x y : ascii) : bool := is_digit x && Ascii.eqb y ".".
Definition colon_slash (x y : ascii) : bool :=
  Ascii.eqb x ":" && Ascii.eqb y "/".


(** A [>] at the start of a line, as a pair with the line terminator
    before it. *)
Definition bol_gt (x y : ascii) : bool := is_lt x && Ascii.eqb y ">".


(** The text of a hard line break, and two line feeds as neighbours. *)
Definition hard_break : text := txt "  " ++ [nl].
Definition two_newlines (x y : ascii) : bool := Ascii.eqb x nl && Ascii.eqb y nl.

Definition ends_nonblank (s : text) : bool :=
  match rev s with [] => true | c :: _ => negb (Ascii.eqb c " ") end.

(** A block as [parseParagraphs] leaves it: it starts with the [<] of a
    block tag, does not end with white space, and holds neither a blank
    line nor a hard line break. *)
Definition tidy (s : text) : Prop :=
  hd_error s = Some "<"%char
  /\ starts_clean (rev s) = true
  /\ pair_free two_newlines s = true
  /\ includes hard_break s = false
  /\ isBlockElement s = true.


(** The last three steps of the pipeline. *)
Definition assemble (s : text) : text :=
  trim (parseParagraphs (parseLineBreaks s)).

(** What [escapeHtml] writes for one character. *)
Definition escaped (c : ascii) : text :=
  if is_special c
  then match htmlEscapes [c] with Some e => e | None => txt "undefined" end
  else [c].

(** *** Vocabulary of the further properties *)

(** The characters that open or close markup in HTML text and attribute
    values. *)
Definition is_markup (c : ascii) : bool :=
  Ascii.eqb c "<" || Ascii.eqb c ">" || Ascii.eqb c dq || Ascii.eqb c "'".

(** The characters a heading id is made of: lower-case letters, digits,
    the underscore and the hyphen. *)
Definition slug_char (c : ascii) : bool :=
  between 97 122 c || is_digit c || Ascii.eqb c "_" || Ascii.eqb c "-".

(** A quantifier bound that allows [n] repetitions. *)
Definition within (hi : option nat) (n : nat) : Prop :=
  match hi with None => True | Some h => n <= h end.

(** An expression whose quantifiers have no upper bound. *)
Fixpoint unbounded (r : regex) : bool :=
  match r with
  | Rep _ _ hi _ => match hi with None => true | Some _ => false end
  | Opt r' | Grp _ r' => unbounded r'
  | Seq r1 r2 => unbounded r1 && unbounded r2
  | _ => true
  end.

(** What [wrapListItems] makes of a line, list tags apart. *)
Definition line_piece (l : text) : piece :=
  match classify l with
  | Some (_, _, content) => PItem content
  | None => PLine l
  end.

Definition is_tag (x : piece) : bool :=
  match x with POpen _ | PClose _ => true | _ => false end.

(** The levels of a stack go down strictly from its top. *)
Fixpoint descending (st : list frame) : Prop :=
  match st with
  | [] => True
  | f :: st' =>
      match st' with
      | [] => True
      | g :: _ => level g < level f
      end /\ descending st'
  end.

(** An expression that does not look behind the position it starts at:
    it has no line-start anchor. *)
Fixpoint unanchored (r : regex) : bool :=
  match r with
  | Bol => false
  | Opt r' | Grp _ r' => unanchored r'
  | Seq r1 r2 => unanchored r1 && unanchored r2
  | _ => true
  end.

(** Two answers of the matcher that differ only in what lies behind the
    start: [b] for the one, [b'] for the other. *)
Definition alike (b b' : text) (o o' : option outcome) : Prop :=
  match o, o' with
  | None, None => True
  | Some (cs, (p, a)), Some (cs', (p', a')) =>
      cs = cs' /\ a = a' /\ exists w, p = w ++ b /\ p' = w ++ b'
  | _, _ => False
  end.

Definition alike_cont (b b' : text) (k k' : cont) : Prop :=
  forall w a cs, alike b b' (k (w ++ b, a) cs) (k' (w ++ b', a) cs).

(** A text in which the character [c] does not stand. *)
Definition free_of (c : ascii) (s : text) : bool := forallb (isnt c) s.

(** A text without any of the emphasis characters. *)
Definition unmarked (s : text) : bool :=
  free_of "*" s && free_of "_" s && free_of "~" s.

(** The markers of [parseEmphasis] with the tags they stand for. *)
Definition emphasis_marks : list (text * text) :=
  [(txt "**", txt "strong"); (txt "__", txt "strong"); (txt "*", txt "em");
   (txt "_", txt "em"); (txt "~~", txt "del")].

Definition element (tag body : text) : text :=
  txt "<" ++ tag ++ txt ">" ++ body ++ txt "</" ++ tag ++ txt ">".

(** The content of a line as the line patterns capture it whole: not
    empty, no white space in front, no line terminator. *)
Definition line_content (c : text) : bool :=
  match c with [] => false | x :: _ => negb (is_space x) end
  && forallb dot c.

(** An address as the contact form takes it: three non-empty parts
    without white space and without at-sign, an at-sign after the first
    and a full stop before the last. *)
Definition address (s : text) : Prop :=
  exists l d t,
    s = l ++ txt "@" ++ d ++ txt "." ++ t
    /\ l <> [] /\ d <> [] /\ t <> []
    /\ forallb address_char (l ++ d ++ t) = true.

(** A table row as it is written: the cells between bars, each with a
    space on either side. *)
Definition pad (c : text) : text := txt " " ++ c ++ txt " ".

Definition print_row (row : list text) : text :=
  txt "|" ++ join (txt "|") (map pad row) ++ txt "|".

(** A cell that can be written in a row: no white space at its ends, no
    bar and no line feed. *)
Definition cell (c : text) : bool :=
  trimmed c && free_of "|" c && free_of nl c.

(** A row of at least one cell. *)
Definition table_row (row : list text) : bool :=
  match row with [] => false | _ :: _ => true end && forallb cell row.

(** A row that cannot be read as a separator line: some cell holds a
    character other than white space, hyphens and bars. *)
Definition solid (row : list text) : bool :=
  existsb
    (existsb (fun x => negb (is_space x || Ascii.eqb x "-" || Ascii.eqb x "|")))
    row.

(** The line [tag_list_lines] writes for an item: its level, its kind and
    its content. *)
Definition item_line (lv : text) (ord : bool) (c : text) : text :=
  li_open lv ++ (if ord then txt " " ++ data_ordered else [])
    ++ txt ">" ++ c ++ txt "</li>".

(** The content of an item line that does not itself hold the text of
    the attribute of ordered items. *)
Definition item_content (c : text) : bool :=
  line_content c && negb (includes data_ordered c).

(** A line of text that is no item line of either kind: it starts with
    a character that is neither white space, nor a digit, nor a hyphen,
    has no line terminator and does not hold an item tag. *)
Definition text_line (l : text) : bool :=
  match l with
  | [] => false
  | x :: _ => negb (is_space x || is_digit x || Ascii.eqb x "-")
  end
  && forallb dot l
  && negb (includes (txt "<li data-level=") l).



(** The characters of a content that no inline pass takes up: no
    backtick, asterisk, underscore, tilde, opening bracket, colon or
    opening angle bracket. *)
Definition tame (x : ascii) : bool :=
  negb (existsb (Ascii.eqb x) ["`"; "*"; "_"; "~"; "["; ":"; "<"]%char).

Definition simple (c : text) : bool := line_content c && forallb tame c.

(** A line of markup that the passes after [parseHeaders] leave alone: it
    starts with an angle bracket, has no line terminator, none of the
    characters of emphasis, links and addresses, no item tag, and does not
    end with white space. *)
Definition calm (x : ascii) : bool :=
  negb (existsb (Ascii.eqb x) ["*"; "_"; "~"; "["; ":"]%char).

Definition markup_line (l : text) : bool :=
  startsWith (txt "<") l && forallb dot l && forallb calm l
  && negb (includes (txt "<li data-level=") l) && starts_clean (rev l).

(** A space before a line feed, as neighbours. *)
Definition space_newline (x y : ascii) : bool :=
  Ascii.eqb x " " && Ascii.eqb y nl.

(** The content of an item without inline syntax. *)
Definition plain_item (c : text) : bool :=
  simple c && negb (includes data_ordered c).

(** A word of a file name: word characters, at least one. *)
Definition slug_word (w : text) : bool :=
  match w with [] => false | _ :: _ => true end && forallb is_word w.

(** A word with its first character in upper case. *)
Definition capital (w : text) : text :=
  match w with [] => [] | c :: w' => upper c :: w' end.

(* ================================================================= *)
(** ** The parser on the examples of the specification *)

Example heading_hello_world :
  parseMarkdown (VString (txt "## Hello, World!"))
  = Some (txt "<h2 id=" ++ q ++ txt "hello-world" ++ q
            ++ txt ">Hello, World!</h2>").
Proof. vm_compute. reflexivity. Qed.

Example bold_before_italic :
  parseMarkdown (VString (txt "**a** *b*"))
  = Some (txt "<p><strong>a</strong> <em>b</em></p>").
Proof. vm_compute. reflexivity. Qed.

Example plain_paragraph :
  parseMarkdown (VString (txt "hello world")) = Some (txt "<p>hello world</p>").
Proof. vm_compute. reflexivity. Qed.

Example marker_switch_at_top_level :
  parseMarkdown (VString (lines ["- a"; "1. b"]%string))
  = Some (lines ["<ul>"; "<li>a</li>"; "</ul>"; "<ol>"; "<li>b</li>"; "</ol>"]%string).
Proof. vm_compute. reflexivity. Qed.

(** C1: the later passes run over the element the fenced-code pass has
    written as over any other text, and rewrite the body of the block where
    one of their patterns matches it.  The fenced-code pass writes the body
    with its asterisks; the emphasis pass then makes an [em] element of it.
    A line of the body that starts with a hash, after the first, becomes a
    heading that swallows the closing tags, and a link of the body becomes
    an anchor.  The body of the example of the specification stays as it
    is: once the element is written its hash is not at the start of a
    line. *)
Theorem C1_fenced_body_rewritten :
  parseCodeBlocks (lines ["```"; "*a*"; "```"]%string)
  = txt "<pre><code>*a*</code></pre>"
  /\ parseMarkdown (VString (lines ["```"; "*a*"; "```"]%string))
     = Some (txt "<pre><code><em>a</em></code></pre>")
  /\ parseMarkdown (VString (lines ["```"; "*a*"; "```"]%string))
     <> Some (txt "<pre><code>*a*</code></pre>")
  /\ parseMarkdown (VString (lines ["```"; "x"; "# h"; "```"]%string))
     = Some (txt "<pre><code>x" ++ [nl] ++ txt "<h1 id=" ++ q
               ++ txt "hcodepre" ++ q ++ txt ">h</code></pre></h1>")
  /\ parseMarkdown (VString (lines ["```"; "[t](u)"; "```"]%string))
     = Some (txt "<pre><code><a href=" ++ q ++ txt "u" ++ q
               ++ txt ">t</a></code></pre>")
  /\ parseMarkdown (VString (lines ["```"; "# not a heading"; "```"]%string))
     = Some (txt "<pre><code># not a heading</code></pre>").
Proof.
  repeat split; vm_compute; first [reflexivity|discriminate].
Qed.

(** C6: a switch of marker inside a nested list.  For an item at level 0
    followed by an unordered and an ordered item, both at level 1, the pass
    closes the nested [ul], opens no [ol], and pushes the ordered item into
    the enclosing [ul]: after the closing loop the stack still holds the
    frame of level 0, and the branch opens a list only when the stack is
    empty.  At the outermost level the same branch finds the stack empty
    and opens the adjacent [ol]. *)
Theorem C6_marker_switch_nested_no_new_list :
  parseLists (lines ["- x"; "  - a"; "  1. b"]%string)
  = Some (lines ["<ul>"; "<li>x</li>"; "<ul>"; "<li>a</li>"; "</ul>";
                 "<li>b</li>"; "</ul>"]%string)
  /\ wrap_pieces (tag_list_lines (lines ["- x"; "  - a"; "  1. b"]%string))
     = Some [POpen false; PItem (txt "x"); POpen false; PItem (txt "a");
             PClose false; PItem (txt "b"); PClose false]
  /\ option_map (includes (txt "<ol>"))
       (parseLists (lines ["- x"; "  - a"; "  1. b"]%string))
     = Some false
  /\ parseLists (lines ["- a"; "1. b"]%string)
     = Some (lines ["<ul>"; "<li>a</li>"; "</ul>";
                    "<ol>"; "<li>b</li>"; "</ol>"]%string).
Proof. repeat split; vm_compute; reflexivity. Qed.

(** C2: an image expression with a non-empty alternative text never reaches
    the image pass, because the link pass runs first in the pipeline and
    rewrites the bracketed part: the output is an exclamation mark followed
    by an anchor, and holds no [img] tag. *)
Theorem C2_image_taken_by_link_pass :
  parseMarkdown (VString (txt "![alt](src)"))
  = Some (txt "<p>!<a href=" ++ q ++ txt "src" ++ q ++ txt ">alt</a></p>")
  /\ parseLinks (txt "![alt](src)")
     = txt "!<a href=" ++ q ++ txt "src" ++ q ++ txt ">alt</a>"
  /\ parseImages (txt "![alt](src)")
     = txt "<img src=" ++ q ++ txt "src" ++ q ++ txt " alt=" ++ q
         ++ txt "alt" ++ q ++ txt ">".
Proof. repeat split; vm_compute; reflexivity. Qed.

(** C3: on a link whose address starts with http the third rewrite of
    [parseLinks] matches again inside the anchor the second rewrite has just
    produced, from the address up to the next [<], and wraps that run in an
    anchor of its own: the [href] of the first anchor is broken. *)
Theorem C3_autolink_rewrites_inside_anchor :
  parseLinks (txt "[t](http://x.y)")
  = txt "<a href=" ++ q ++ txt "<a href=" ++ q ++ txt "http://x.y" ++ q
      ++ txt ">t" ++ q ++ txt ">http://x.y" ++ q ++ txt ">t</a></a>"
  /\ parseLinks (txt "[t](http://x.y)")
     <> txt "<a href=" ++ q ++ txt "http://x.y" ++ q ++ txt ">t</a>".
Proof. split; [vm_compute; reflexivity | vm_compute; discriminate]. Qed.

(** C4: for the unordered items at levels 0,1,1,0 the list pass closes the
    level-0 list together with the nested one when the fourth line comes,
    and opens a second top-level list for it: two outer lists, not one. The
    tags are balanced. *)
Theorem C4_levels_0110_two_outer_lists :
  parseLists (lines ["- a"; "  - b"; "  - c"; "- d"]%string)
  = Some (lines ["<ul>"; "<li>a</li>"; "<ul>"; "<li>b</li>"; "<li>c</li>";
                 "</ul>"; "</ul>"; "<ul>"; "<li>d</li>"; "</ul>"]%string)
  /\ wrap_pieces (tag_list_lines (lines ["- a"; "  - b"; "  - c"; "- d"]%string))
     = Some [POpen false; PItem (txt "a"); POpen false; PItem (txt "b");
             PItem (txt "c"); PClose false; PClose false;
             POpen false; PItem (txt "d"); PClose false].
Proof. split; vm_compute; reflexivity. Qed.

(** C7: the last step of [generateHeaderId] strips white space, of which
    none is left once the runs of white space have become hyphens, so a
    hyphen at an end of the slug stays: a heading line with a space after
    its content gets an id with a hyphen at its end. *)
Theorem C7_slug_keeps_trailing_hyphen :
  parseHeaders (txt "# a ")
  = txt "<h1 id=" ++ q ++ txt "a-" ++ q ++ txt ">a</h1>"
  /\ generateHeaderId (txt "a ") = txt "a-"
  /\ generateHeaderId (txt "Hello, World!") = txt "hello-world".
Proof. repeat split; vm_compute; reflexivity. Qed.

(* ================================================================= *)
(** ** The list pass: nesting of the tags it emits *)

Lemma nest_app (ps1 ps2 : list piece) :
  forall open,
    nest open (ps1 ++ ps2)
    = match nest open ps1 with
      | Some open' => nest open' ps2
      | None => None
      end.
Proof.
  induction ps1 as [|x ps1 IH]; intros open; simpl; [reflexivity|].
  destruct x; auto.
  - destruct open as [|o' open']; [reflexivity|].
    destruct (Bool.eqb ordered o'); auto.
  - destruct open; auto.
Qed.

Lemma close_all_nest (st : list frame) :
  nest (map isOrdered st) (close_all st) = Some [].
Proof.
  induction st as [|f st IH]; simpl; [reflexivity|].
  rewrite Bool.eqb_reflx. exact IH.
Qed.

Lemma close_from_nest (lv : nat) (st : list frame) :
  nest (map isOrdered st) (fst (close_from lv st))
  = Some (map isOrdered (snd (close_from lv st))).
Proof.
  induction st as [|f st IH]; simpl; [reflexivity|].
  destruct (Nat.leb lv (level f)); simpl; [|reflexivity].
  destruct (close_from lv st) as [out rest]; simpl in *.
  rewrite Bool.eqb_reflx. exact IH.
Qed.

Lemma wf_start : wf start.
Proof. repeat split; simpl; congruence. Qed.

Lemma on_item_wf (s : wstate) (lv : nat) (ord : bool) (c : text) :
  wf s -> exists s', on_item s lv ord c = Some s' /\ wf s'.
Proof.
  destruct s as [inl st res]. unfold wf, on_item; simpl.
  intros (Hn & Hf & Ht).
  destruct inl; simpl.
  - destruct st as [|cur st]; [exfalso; now apply Ht|].
    destruct (Nat.eqb lv (level cur) && Bool.eqb ord (isOrdered cur)).
    + eexists; split; [reflexivity|]. simpl.
      rewrite nest_app, Hn. repeat split; congruence.
    + destruct (Nat.ltb (level cur) lv).
      * eexists; split; [reflexivity|]. simpl.
        rewrite nest_app, Hn. repeat split; congruence.
      * pose proof (close_from_nest lv (cur :: st)) as Hc.
        destruct (close_from lv (cur :: st)) as [closed rest].
        cbn [fst snd] in Hc.
        destruct rest as [|f rest];
          (eexists; split; [reflexivity|]); simpl;
          rewrite nest_app, Hn, nest_app, Hc; repeat split; congruence.
  - eexists; split; [reflexivity|]. simpl.
    rewrite nest_app, Hn, (Hf eq_refl). repeat split; congruence.
Qed.

Lemma on_line_wf (s : wstate) (line : text) : wf s -> wf (on_line s line).
Proof.
  destruct s as [inl st res]. unfold wf, on_line; simpl.
  intros (Hn & Hf & Ht).
  destruct inl; simpl.
  - rewrite nest_app, Hn, nest_app, close_all_nest. repeat split; congruence.
  - rewrite nest_app, Hn, (Hf eq_refl). repeat split; congruence.
Qed.

Lemma wrap_step_wf (s : wstate) (line : text) :
  wf s -> exists s', wrap_step s line = Some s' /\ wf s'.
Proof.
  intros H. unfold wrap_step.
  destruct (classify line) as [[[lv ord] c]|].
  - now apply on_item_wf.
  - eexists; split; [reflexivity|]. now apply on_line_wf.
Qed.

Lemma wrap_loop_wf (ls : list text) :
  forall s, wf s -> exists s', wrap_loop s ls = Some s' /\ wf s'.
Proof.
  induction ls as [|l ls IH]; intros s H; simpl.
  - now exists s.
  - destruct (wrap_step_wf l H) as (s1 & -> & H1). now apply IH.
Qed.


(** The list pass never faults. *)
Lemma wrapListItems_total (s : text) : exists h, wrapListItems s = Some h.
Proof.
  unfold wrapListItems, wrap_pieces.
  destruct (wrap_loop_wf (split [nl] s) wf_start) as (st & E & _).
  unfold start in E; rewrite E.
  eexists; reflexivity.
Qed.

(** C10: for items of one kind at levels 0, 2, 1, whatever they hold, the
    third item closes the level-2 list only; the frame of level 0 stays on
    the stack, so the item is pushed as an item of the level-0 list and no
    list tag is opened for level 1.  The second part is the same on a
    markdown text of three lines. *)
Theorem C10_dedent_to_intermediate_level (k : bool) (a b c : text) :
  items start [(0, k, a); (2, k, b)]
  = Some (WState true [Frame 2 k; Frame 0 k]
            [POpen k; PItem a; POpen k; PItem b])
  /\ close_from 1 [Frame 2 k; Frame 0 k] = ([PClose k], [Frame 0 k])
  /\ items start [(0, k, a); (2, k, b); (1, k, c)]
     = Some (WState true [Frame 0 k]
               [POpen k; PItem a; POpen k; PItem b; PClose k; PItem c])
  /\ parseLists (lines ["- a"; "    - b"; "  - c"]%string)
     = Some (lines ["<ul>"; "<li>a</li>"; "<ul>"; "<li>b</li>"; "</ul>";
                    "<li>c</li>"; "</ul>"]%string)
  /\ parseLists (lines ["1. a"; "    2. b"; "  3. c"]%string)
     = Some (lines ["<ol>"; "<li>a</li>"; "<ol>"; "<li>b</li>"; "</ol>";
                    "<li>c</li>"; "</ol>"]%string).
Proof.
  repeat split; try (destruct k; reflexivity); vm_compute; reflexivity.
Qed.

(* ================================================================= *)
(** ** The entry point *)

Lemma dropWhile_clean (s : text) : starts_clean (dropWhile is_space s) = true.
Proof.
  induction s as [|c s IH]; simpl; [reflexivity|].
  destruct (is_space c) eqn:E; [exact IH|]. simpl. now rewrite E.
Qed.

Lemma dropWhile_suffix (p : ascii -> bool) (s : text) :
  exists w, s = w ++ dropWhile p s.
Proof.
  induction s as [|c s (w & IH)]; simpl.
  - now exists [].
  - destruct (p c).
    + exists (c :: w). simpl. now f_equal.
    + now exists [].
Qed.

Lemma trimEnd_clean (s : text) :
  starts_clean s = true -> starts_clean (trimEnd s) = true.
Proof.
  unfold trimEnd. intros H.
  destruct (dropWhile_suffix is_space (rev s)) as (w & E).
  apply (f_equal (@rev ascii)) in E. rewrite rev_involutive, rev_app_distr in E.
  destruct (rev (dropWhile is_space (rev s))) as [|c d]; [reflexivity|].
  rewrite E in H. exact H.
Qed.

Lemma trim_trimmed (s : text) : trimmed (trim s) = true.
Proof.
  unfold trimmed, trim. apply andb_true_intro; split.
  - apply trimEnd_clean, dropWhile_clean.
  - unfold trimEnd. rewrite rev_involutive. apply dropWhile_clean.
Qed.

Lemma pipeline_total (s : text) :
  exists h, pipeline s = Some (trim h).
Proof.
  unfold pipeline, parseLists.
  destruct (wrapListItems_total
              (tag_list_lines
                 (parseBlockquotes
                    (parseHeaders (parseInlineCode (parseCodeBlocks s))))))
    as (h & ->).
  eexists; reflexivity.
Qed.

(** C8: the guard of [parseMarkdown] answers the empty text for undefined,
    null, every value that is not a string, and the empty string; on every
    string the call returns, without a fault, a text that neither starts
    nor ends with white space. *)
Theorem C8_guard_and_trimmed_result :
  (forall v, invalid v = true -> parseMarkdown v = Some [])
  /\ (forall s, exists h,
        parseMarkdown (VString s) = Some h /\ trimmed h = true).
Proof.
  split.
  - intros [| |b|n|[|c s]|] H; unfold parseMarkdown; simpl;
      rewrite ?Bool.orb_true_r; try reflexivity; discriminate.
  - intros [|c s]; [now exists []|].
    destruct (pipeline_total (c :: s)) as (h & E).
    exists (trim h). split; [exact E|apply trim_trimmed].
Qed.

Lemma C8_guard_and_trimmed_result_witness :
  parseMarkdown VNull = Some [] /\ parseMarkdown (VNumber 7) = Some [].
Proof.
  split.
  - exact (proj1 C8_guard_and_trimmed_result VNull eq_refl).
  - exact (proj1 C8_guard_and_trimmed_result (VNumber 7) eq_refl).
Defined.

(* ================================================================= *)
(** ** The matcher *)

Lemma lit_some (w : text) (k : cont) :
  forall b a cs o,
    lit w k b a cs = Some o ->
    exists a', a = w ++ a' /\ k (rev w ++ b, a') cs = Some o.
Proof.
  induction w as [|c w IH]; intros b a cs o H; simpl in H.
  - now exists a.
  - destruct a as [|x a]; [discriminate|].
    destruct (Ascii.eqb x c) eqn:E; [|discriminate].
    apply Ascii.eqb_eq in E; subst x.
    destruct (IH _ _ _ _ H) as (a' & -> & Hk).
    exists a'. split; [reflexivity|].
    simpl. now rewrite <- app_assoc.
Qed.

Lemma rep_some (g : bool) (p : ascii -> bool) (k : cont) (a : text) :
  forall lo hi b cs o,
    rep g p k a lo hi b cs = Some o ->
    exists w a',
      a = w ++ a' /\ Forall (fun x => p x = true) w /\ lo <= length w
      /\ k (rev w ++ b, a') cs = Some o.
Proof.
  induction a as [|x a IH]; intros lo hi b cs o H.
  - simpl in H. unfold halt in H. destruct lo; [|discriminate].
    exists [], []. repeat split; auto.
  - assert (Hstop : halt k lo b (x :: a) cs = Some o ->
                    exists w a', x :: a = w ++ a'
                      /\ Forall (fun x => p x = true) w /\ lo <= length w
                      /\ k (rev w ++ b, a') cs = Some o).
    { unfold halt. destruct lo; [|discriminate]. intros Hk.
      exists [], (x :: a). repeat split; auto. }
    assert (Hstep : (if p x && more hi
                     then rep g p k a (pred lo) (option_map pred hi) (x :: b) cs
                     else None) = Some o ->
                    exists w a', x :: a = w ++ a'
                      /\ Forall (fun x => p x = true) w /\ lo <= length w
                      /\ k (rev w ++ b, a') cs = Some o).
    { destruct (p x) eqn:Hp; [|discriminate].
      destruct (more hi); [|discriminate]. simpl. intros Hr.
      destruct (IH _ _ _ _ _ Hr) as (w & a' & -> & Hw & Hlo & Hk).
      exists (x :: w), a'. repeat split.
      - now constructor.
      - simpl. lia.
      - simpl. now rewrite <- app_assoc. }
    simpl in H. destruct g.
    + destruct (if p x && more hi
                then rep true p k a (pred lo) (option_map pred hi) (x :: b) cs
                else None) as [o'|] eqn:E.
      * injection H as <-. now apply Hstep.
      * now apply Hstop.
    + destruct (halt k lo b (x :: a) cs) as [o'|] eqn:E.
      * injection H as <-. now apply Hstop.
      * now apply Hstep.
Qed.

Lemma run_fits (r : regex) :
  forall k b a cs o,
    run r k (b, a) cs = Some o ->
    exists w a' cs',
      a = w ++ a' /\ fits r b w a' /\ k (rev w ++ b, a') cs' = Some o.
Proof.
  induction r as [w|f|g lo hi f|r IH|i r IH|r1 IH1 r2 IH2| |];
    intros k b a cs o H; simpl in H.
  - destruct (lit_some _ _ _ _ _ H) as (a' & -> & Hk).
    exists w, a', cs. repeat split; auto. constructor.
  - destruct a as [|x a]; [discriminate|].
    destruct (f x) eqn:E; [|discriminate].
    exists [x], a, cs. repeat split; auto. now constructor.
  - destruct (rep_some _ _ _ _ _ _ _ _ H) as (w & a' & -> & Hw & Hlo & Hk).
    exists w, a', cs. repeat split; auto. now constructor.
  - destruct (run r k (b, a) cs) as [o'|] eqn:E.
    + injection H as <-.
      destruct (IH _ _ _ _ _ E) as (w & a' & cs' & -> & Hf & Hk).
      exists w, a', cs'. repeat split; auto. now constructor.
    + exists [], a, cs. repeat split; auto. apply fits_opt_out.
  - destruct (IH _ _ _ _ _ H) as (w & a' & cs' & -> & Hf & Hk).
    exists w, a', ((i, passed (b, w ++ a') (rev w ++ b, a')) :: cs').
    repeat split; auto. now constructor.
  - destruct (IH1 _ _ _ _ _ H) as (w1 & a1 & cs1 & -> & Hf1 & Hk1).
    destruct (IH2 _ _ _ _ _ Hk1) as (w2 & a2 & cs2 & -> & Hf2 & Hk2).
    exists (w1 ++ w2), a2, cs2. repeat split.
    + now rewrite app_assoc.
    + now constructor.
    + now rewrite rev_app_distr, <- app_assoc.
  - destruct (at_bol (b, a)) eqn:E; [|discriminate].
    exists [], a, cs. repeat split; auto. now constructor.
  - destruct (at_eol (b, a)) eqn:E; [|discriminate].
    exists [], a, cs. repeat split; auto. now constructor.
Qed.

Lemma exec_fits (r : regex) (b a : text) (cs : caps) (p' : pos) :
  exec r (b, a) = Some (cs, p') ->
  exists w a', a = w ++ a' /\ p' = (rev w ++ b, a') /\ fits r b w a'.
Proof.
  intros H. destruct (run_fits _ _ _ _ _ H) as (w & a' & cs' & -> & Hf & Hk).
  exists w, a'. repeat split; auto. unfold accept in Hk. congruence.
Qed.

Lemma passed_app (b w a a' : text) : passed (b, a) (rev w ++ b, a') = w.
Proof.
  unfold passed; simpl. rewrite length_app, length_rev.
  replace (length w + length b - length b) with (length (rev w))
    by (rewrite length_rev; lia).
  now rewrite firstn_app, Nat.sub_diag, firstn_all, app_nil_r, rev_involutive.
Qed.

Lemma fits_must (P : ascii -> Prop) (r : regex) (b w a : text) :
  fits r b w a -> must P r -> Exists P w.
Proof.
  induction 1 as [w b a|f x b a Hx|g lo hi f w b a Hw Hlo|r b w a Hf IH
                 |r b a|i r b w a Hf IH|r1 r2 b w1 w2 a Hf1 IH1 Hf2 IH2
                 |b a Hb|b a He];
    intros Hm; inversion Hm; subst; auto.
  - destruct w as [|x w]; [simpl in Hlo; lia|].
    constructor. inversion Hw; subst. auto.
  - apply Exists_app. left. auto.
  - apply Exists_app. right. auto.
Qed.

(** An expression that must take a character of which the subject has
    none matches nowhere. *)
Lemma exec_must (P : ascii -> Prop) (r : regex) (b a : text) :
  must P r -> Forall (fun c => ~ P c) a -> exec r (b, a) = None.
Proof.
  intros Hm Ha. destruct (exec r (b, a)) as [[cs p']|] eqn:E; [|reflexivity].
  destruct (exec_fits _ _ _ E) as (w & a' & -> & _ & Hf).
  apply (fits_must Hf) in Hm. apply Forall_app in Ha as [Hw _].
  apply Exists_exists in Hm as (x & Hx & HP).
  rewrite Forall_forall in Hw. now destruct (Hw x Hx).
Qed.

(** *** The replacement loop *)

Section Replace.

Variable r : regex.
Variable f : text -> caps -> text.

Lemma replace_go_skip (m : text) :
  forall b a,
    replace_go r f (length m) b (m ++ a) = replace_go r f 0 (rev m ++ b) a.
Proof.
  induction m as [|x m IH]; intros b a; [reflexivity|].
  simpl length. simpl app.
  change (replace_go r f (S (length m)) b (x :: m ++ a))
    with (replace_go r f (length m) (x :: b) (m ++ a)).
  rewrite IH. simpl. now rewrite <- app_assoc.
Qed.

Lemma replace_go_nil (b : text) :
  replace_go r f 0 b []
  = match exec r (b, []) with
    | Some (cs, p') => f (passed (b, []) p') cs ++ []
    | None => []
    end.
Proof. reflexivity. Qed.

Lemma replace_go_cons (b : text) (x : ascii) (a : text) :
  replace_go r f 0 b (x :: a)
  = match exec r (b, x :: a) with
    | Some (cs, p') =>
        f (passed (b, x :: a) p') cs ++
        match length (fst p') - length b with
        | O => x :: replace_go r f 0 (x :: b) a
        | S n => replace_go r f n (x :: b) a
        end
    | None => x :: replace_go r f 0 (x :: b) a
    end.
Proof. reflexivity. Qed.

Lemma replace_go_replaced (n : nat) :
  forall a b, length a <= n -> replaced r f b a (replace_go r f 0 b a).
Proof.
  induction n as [|n IH]; intros a b Hn.
  - destruct a; [|simpl in Hn; lia].
    rewrite replace_go_nil.
    destruct (exec r (b, [])) as [[cs p']|] eqn:E; [|now constructor].
    destruct (exec_fits _ _ _ E) as (w & a' & Ha & -> & _).
    symmetry in Ha. apply app_eq_nil in Ha as [-> ->].
    rewrite app_nil_r.
    change (passed (b, []) (rev [] ++ b, [])) with (passed (b, []) (b, [])).
    replace (passed (b, []) (b, [])) with (@nil ascii)
      by (symmetry; apply (passed_app b [] [] [])).
    econstructor; eassumption.
  - destruct a as [|x a].
    + apply (IH [] b). simpl; lia.
    + rewrite replace_go_cons.
      destruct (exec r (b, x :: a)) as [[cs p']|] eqn:E.
      * destruct (exec_fits _ _ _ E) as (w & a' & Ha & -> & _).
        rewrite passed_app. simpl fst.
        rewrite length_app, length_rev.
        replace (length w + length b - length b) with (length w) by lia.
        destruct w as [|y w]; simpl in Ha.
        -- subst a'. simpl. apply rp_empty; [exact E|].
           apply IH. simpl in Hn; lia.
        -- injection Ha as <- ->. cbn [length].
           rewrite replace_go_skip.
           change (x :: w ++ a') with ((x :: w) ++ a').
           apply rp_match; [discriminate|exact E|].
           simpl. rewrite <- app_assoc. simpl.
           apply IH. simpl in Hn. rewrite length_app in Hn. lia.
      * apply rp_keep; [exact E|]. apply IH. simpl in Hn; lia.
Qed.

Lemma replace_replaced (s : text) : replaced r f [] s (replace r f s).
Proof. apply (replace_go_replaced (n := length s)). lia. Qed.

Lemma replace_go_nomatch (a : text) :
  forall b,
    (forall b' a', rev b' ++ a' = rev b ++ a -> exec r (b', a') = None) ->
    replace_go r f 0 b a = a.
Proof.
  induction a as [|x a IH]; intros b H.
  - rewrite replace_go_nil, (H b [] eq_refl). reflexivity.
  - rewrite replace_go_cons, (H b (x :: a) eq_refl).
    f_equal. apply IH. intros b' a' E. apply H.
    rewrite E. simpl. now rewrite <- app_assoc.
Qed.

Lemma replace_must (P : ascii -> Prop) (s : text) :
  must P r -> Forall (fun c => ~ P c) s -> replace r f s = s.
Proof.
  intros Hm Hs. apply replace_go_nomatch. intros b' a' E. simpl in E.
  apply exec_must with (P := P); [exact Hm|].
  rewrite <- E in Hs. now apply Forall_app in Hs as [_ Hs].
Qed.

End Replace.

(** A match that takes the whole subject is all that [replace] writes. *)
Lemma replace_whole (r : regex) (f : text -> caps -> text)
    (s : text) (cs : caps) :
  exec r ([], s) = Some (cs, (rev s, [])) ->
  exec r (rev s, []) = None ->
  replace r f s = f s cs.
Proof.
  intros E Hend. unfold replace.
  destruct s as [|x s].
  - simpl in E, Hend. congruence.
  - rewrite replace_go_cons, E.
    rewrite <- (app_nil_r (rev (x :: s))) at 1. rewrite passed_app.
    cbn [fst]. rewrite length_rev. cbn [length]. rewrite Nat.sub_0_r.
    rewrite <- (app_nil_r s) at 3. rewrite replace_go_skip.
    rewrite replace_go_nil.
    change (rev s ++ [x]) with (rev (x :: s)). rewrite Hend.
    now rewrite app_nil_r.
Qed.

(** [replace] with a single class as its expression works character by
    character. *)
Lemma replace_go_cls (p : ascii -> bool) (g : text -> caps -> text) (a : text) :
  forall b,
    replace_go (Cls p) g 0 b a
    = flat_map (fun c => if p c then g [c] [] else [c]) a.
Proof.
  induction a as [|x a IH]; intros b; [reflexivity|].
  rewrite replace_go_cons. unfold exec. cbn [run snd fst].
  destruct (p x) eqn:E; cbn [flat_map]; rewrite E.
  - unfold accept.
    change (x :: b) with (rev [x] ++ b) at 1. rewrite passed_app.
    cbn [fst length].
    replace (S (length b) - length b) with 1 by lia.
    now rewrite IH.
  - simpl. now rewrite IH.
Qed.

Lemma escapeHtml_flat_map (s : text) : escapeHtml s = flat_map escaped s.
Proof.
  unfold escapeHtml, replace. rewrite replace_go_cls.
  apply flat_map_ext. intros c. reflexivity.
Qed.

Lemma Forall_dropWhile (P : ascii -> Prop) (p : ascii -> bool) (s : text) :
  Forall P s -> Forall P (dropWhile p s).
Proof.
  induction 1 as [|c s Hc Hs IH]; simpl; [constructor|].
  destruct (p c); [exact IH|now constructor].
Qed.

Lemma Forall_trim (P : ascii -> Prop) (s : text) :
  Forall P s -> Forall P (trim s).
Proof.
  intros H. unfold trim, trimEnd, trimStart.
  apply Forall_rev, Forall_dropWhile, Forall_rev, Forall_dropWhile, H.
Qed.

Lemma Forall_flat_map (P : ascii -> Prop) (g : ascii -> text) (s : text) :
  Forall (fun c => Forall P (g c)) s -> Forall P (flat_map g s).
Proof.
  induction 1 as [|c s Hc Hs IH]; simpl; [constructor|].
  apply Forall_app. now split.
Qed.

Lemma escaped_no_backtick (c : ascii) :
  c <> bt -> Forall (fun x => x <> bt) (escaped c).
Proof.
  intros Hc. unfold escaped. destruct (is_special c) eqn:E.
  - unfold is_special in E.
    repeat (apply orb_true_iff in E as [E|E]);
      apply Ascii.eqb_eq in E; subst c; vm_compute;
      repeat constructor; discriminate.
  - now repeat constructor.
Qed.

(** *** The fenced-code pass on one block *)

(** The lazy body of a fenced block goes on as long as what follows it
    fails. *)
Lemma lazy_any_scan (K : cont) (tail : text) (cs : caps) (o : outcome) :
  forall body b,
    (forall w1 x w2,
        body = w1 ++ x :: w2 ->
        K (rev w1 ++ b, x :: w2 ++ tail) cs = None) ->
    K (rev body ++ b, tail) cs = Some o ->
    rep false any K (body ++ tail) 0 None b cs = Some o.
Proof.
  induction body as [|y body IH]; intros b Hnone Hk.
  - simpl in *. destruct tail; simpl; unfold halt; now rewrite Hk.
  - cbn [app rep]. unfold halt at 1.
    pose proof (Hnone [] y body eq_refl) as H0. simpl in H0. rewrite H0.
    cbn [any more andb pred option_map].
    apply IH.
    + intros w1 x w2 ->.
      specialize (Hnone (y :: w1) x w2 eq_refl).
      simpl in Hnone. now rewrite <- app_assoc in Hnone.
    + simpl in Hk. now rewrite <- app_assoc in Hk.
Qed.

Lemma closing_fence_not_yet (k : cont) (b : text) (cs : caps)
    (x : ascii) (w : text) :
  ~ In bt (x :: w) ->
  lit (nl :: fence) k b (x :: w ++ nl :: fence) cs = None.
Proof.
  intros H. unfold fence. cbn [lit].
  destruct (Ascii.eqb x nl); [|reflexivity].
  destruct w as [|z w]; [reflexivity|]. cbn [app lit].
  destruct (Ascii.eqb z bt) eqn:E; [|reflexivity].
  apply Ascii.eqb_eq in E. subst z. exfalso. apply H. simpl. auto.
Qed.

Lemma run_lit_app (w : text) (k : cont) :
  forall b a cs, run (Lit w) k (b, w ++ a) cs = k (rev w ++ b, a) cs.
Proof.
  cbn [run fst snd].
  induction w as [|c w IH]; intros b a cs; [reflexivity|].
  cbn [app lit]. rewrite Ascii.eqb_refl, IH. simpl. now rewrite <- app_assoc.
Qed.

Lemma run_opt_out (r : regex) (k : cont) (p : pos) (cs : caps) :
  run r k p cs = None -> run (Opt r) k p cs = k p cs.
Proof. intros H. cbn [run]. now rewrite H. Qed.

Lemma rep_owed_none (g : bool) (p : ascii -> bool) (k : cont)
    (x : ascii) (a : text) (lo : nat) (hi : option nat) (b : text) (cs : caps) :
  p x = false -> rep g p k (x :: a) (S lo) hi b cs = None.
Proof. intros H. destruct g; simpl; rewrite H; reflexivity. Qed.

Lemma exec_fence_lang_block (body : text) :
  ~ In bt body ->
  exec re_fence_lang ([], fence ++ [nl] ++ body ++ [nl] ++ fence)
  = Some ([(2, body)], (rev (fence ++ [nl] ++ body ++ [nl] ++ fence), [])).
Proof.
  intros Hb. unfold exec, re_fence_lang.
  change (run (?r1 ;; ?r2) ?k) with (run r1 (run r2 k)).
  rewrite run_lit_app.
  change (run (?r1 ;; ?r2) ?k) with (run r1 (run r2 k)).
  rewrite run_opt_out
    by (apply (rep_owed_none true is_word); vm_compute; reflexivity).
  change (run (?r1 ;; ?r2) ?k) with (run r1 (run r2 k)).
  rewrite run_lit_app.
  change (run (?r1 ;; ?r2) ?k) with (run r1 (run r2 k)).
  unfold lazy_star. cbn [run fst snd].
  change ([nl] ++ fence) with (nl :: fence).
  erewrite lazy_any_scan with (tail := nl :: fence).
  - reflexivity.
  - intros w1 x w2 E. cbn [fst snd].
    apply closing_fence_not_yet.
    intros Hin. apply Hb. rewrite E. apply in_or_app. now right.
  - cbn [fst snd].
    change (lit (nl :: fence) accept ?b (nl :: fence) ?c)
      with (run (Lit (nl :: fence)) accept (b, (nl :: fence) ++ []) c).
    rewrite run_lit_app. unfold accept.
    rewrite passed_app. f_equal. f_equal. f_equal.
    rewrite !rev_app_distr. now rewrite <- !app_assoc.
Qed.

Lemma must_backtick_fence : must (fun c => c = bt) re_fence.
Proof. apply must_seq_l, must_lit. now left. Qed.

Lemma parseCodeBlocks_block (body : text) :
  ~ In bt body ->
  parseCodeBlocks (fence ++ [nl] ++ body ++ [nl] ++ fence)
  = txt "<pre><code>" ++ flat_map escaped (trim body) ++ txt "</code></pre>".
Proof.
  intros Hb. unfold parseCodeBlocks.
  rewrite (@replace_whole _ _ _ _ (@exec_fence_lang_block body Hb))
    by reflexivity.
  cbn [cap group Nat.eqb].
  rewrite escapeHtml_flat_map.
  rewrite replace_must with (P := fun c => c = bt).
  - reflexivity.
  - exact must_backtick_fence.
  - repeat (apply Forall_app; split);
      try (vm_compute; repeat constructor; discriminate).
    apply Forall_flat_map.
    assert (H : Forall (fun c => c <> bt) (trim body)).
    { apply Forall_trim, Forall_forall. intros c Hc ->. now apply Hb. }
    revert H. apply Forall_impl. intros c Hc. now apply escaped_no_backtick.
Qed.

(* ================================================================= *)
(** ** Texts the rewriting passes leave alone *)

Lemma pair_free_cons (R : ascii -> ascii -> bool) (x y : ascii) (s : text) :
  pair_free R (x :: y :: s) = negb (R x y) && pair_free R (y :: s).
Proof. reflexivity. Qed.

Lemma pair_free_tail (R : ascii -> ascii -> bool) (x : ascii) (s : text) :
  pair_free R (x :: s) = true -> pair_free R s = true.
Proof.
  destruct s as [|y s]; [reflexivity|]. rewrite pair_free_cons.
  intros H. now apply andb_prop in H.
Qed.

Lemma pair_free_suffix (R : ascii -> ascii -> bool) (l s : text) :
  pair_free R (l ++ s) = true -> pair_free R s = true.
Proof.
  induction l as [|x l IH]; intros H; [exact H|].
  apply IH. now apply pair_free_tail in H.
Qed.

Lemma pair_free_here (R : ascii -> ascii -> bool) (l : text)
    (x y : ascii) (s : text) :
  pair_free R (l ++ x :: y :: s) = true -> R x y = false.
Proof.
  intros H. apply pair_free_suffix in H. rewrite pair_free_cons in H.
  apply andb_prop in H as [H _]. now apply negb_true_iff in H.
Qed.

Lemma search_none (r : regex) (a : text) :
  forall b,
    (forall b' a', rev b' ++ a' = rev b ++ a -> exec r (b', a') = None) ->
    search r b a = None.
Proof.
  induction a as [|x a IH]; intros b H; simpl.
  - now rewrite (H b [] eq_refl).
  - rewrite (H b (x :: a) eq_refl). apply IH.
    intros b' a' E. apply H. rewrite E. simpl. now rewrite <- app_assoc.
Qed.

Lemma js_match_must (P : ascii -> Prop) (r : regex) (s : text) :
  must P r -> Forall (fun c => ~ P c) s -> js_match r s = None.
Proof.
  intros Hm Hs. apply search_none. intros b' a' E. simpl in E.
  apply exec_must with (P := P); [exact Hm|].
  rewrite <- E in Hs. now apply Forall_app in Hs as [_ Hs].
Qed.

(** *** Lines *)

Lemma join_cons_head (sep : text) (c : ascii) (p : text) (ps : list text) :
  join sep ((c :: p) :: ps) = c :: join sep (p :: ps).
Proof. destruct ps; reflexivity. Qed.

Lemma split_go_nonempty (sep : text) (s : text) :
  forall k, split_go sep k s <> [].
Proof.
  induction s as [|c s IH]; intros k; simpl; [discriminate|].
  destruct k; [|apply IH].
  destruct (startsWith sep (c :: s)); [discriminate|].
  destruct (split_go sep 0 s); discriminate.
Qed.

Lemma join_split_lines (s : text) : join [nl] (split [nl] s) = s.
Proof.
  unfold split. induction s as [|c s IH]; [reflexivity|].
  cbn [split_go startsWith length Nat.sub].
  destruct (Ascii.eqb nl c) eqn:E; cbn [andb].
  - apply Ascii.eqb_eq in E. subst c.
    destruct (split_go [nl] 0 s) as [|p ps] eqn:Es.
    + now apply split_go_nonempty in Es.
    + change (join [nl] ([] :: p :: ps)) with (nl :: join [nl] (p :: ps)).
      now rewrite IH.
  - destruct (split_go [nl] 0 s) as [|p ps] eqn:Es.
    + now apply split_go_nonempty in Es.
    + now rewrite join_cons_head, IH.
Qed.

Lemma Forall_split_go (P : ascii -> Prop) (sep : text) (s : text) :
  Forall P s -> forall k, Forall (Forall P) (split_go sep k s).
Proof.
  induction 1 as [|c s Hc Hs IH]; intros k; simpl.
  - repeat constructor.
  - destruct k; [|apply IH].
    destruct (startsWith sep (c :: s)).
    + constructor; [constructor|apply IH].
    + specialize (IH 0). destruct (split_go sep 0 s) as [|p ps].
      * repeat constructor. exact Hc.
      * inversion IH; subst. constructor; [now constructor|assumption].
Qed.

Lemma wrap_loop_lines (ls : list text) :
  forall res,
    Forall (fun l => classify l = None) ls ->
    wrap_loop (WState false [] res) ls
    = Some (WState false [] (res ++ map PLine ls)).
Proof.
  induction ls as [|l ls IH]; intros res H; simpl.
  - now rewrite app_nil_r.
  - inversion H as [|? ? Hl Hls]; subst.
    unfold wrap_step. rewrite Hl. unfold on_line. cbn [inList listStack result].
    rewrite IH by assumption. now rewrite <- app_assoc.
Qed.



(** *** The expressions that need a sign *)

Ltac find_must :=
  first
    [ apply must_lit; apply Exists_exists; eexists;
      split; [|reflexivity]; vm_compute; tauto
    | apply must_rep;
      [lia | intros x Hx; apply Ascii.eqb_eq in Hx; congruence]
    | apply must_grp; find_must
    | apply must_seq_l; find_must
    | apply must_seq_r; find_must ].


Ltac inv H := inversion H; subst; clear H.

(** *** The expressions that need a pair of neighbours *)






(* ================================================================= *)
(** ** Line breaks and paragraphs *)

Lemma startsWith_app (w s : text) : startsWith w (w ++ s) = true.
Proof.
  induction w as [|c w IH]; [reflexivity|]. simpl.
  now rewrite Ascii.eqb_refl.
Qed.

Lemma startsWith_split (w : text) :
  forall s, startsWith w s = true -> exists s', s = w ++ s'.
Proof.
  induction w as [|c w IH]; intros s H.
  - now exists s.
  - destruct s as [|x s]; [discriminate|]. simpl in H.
    apply andb_prop in H as [E H]. apply Ascii.eqb_eq in E. subst x.
    destruct (IH _ H) as (s' & ->). now exists s'.
Qed.

Lemma startsWith_more (w s r : text) :
  startsWith w s = true -> startsWith w (s ++ r) = true.
Proof.
  intros H. destruct (startsWith_split _ _ H) as (s' & ->).
  rewrite <- app_assoc. apply startsWith_app.
Qed.

Lemma includes_right (w s r : text) :
  includes w s = true -> includes w (s ++ r) = true.
Proof.
  induction s as [|c s IH]; intros H.
  - simpl in H. rewrite orb_false_r in H.
    destruct w; [|discriminate]. destruct r; reflexivity.
  - cbn [includes] in H. apply orb_true_iff in H as [H|H].
    + pose proof (startsWith_more _ _ r H) as H'.
      change ((c :: s) ++ r) with (c :: s ++ r) in *. cbn [includes].
      now rewrite H'.
    + change ((c :: s) ++ r) with (c :: s ++ r). cbn [includes].
      rewrite (IH H). apply orb_true_r.
Qed.

Lemma includes_left (w l s : text) :
  includes w s = true -> includes w (l ++ s) = true.
Proof.
  intros H. induction l as [|c l IH]; [exact H|].
  cbn [app includes]. rewrite IH. apply orb_true_r.
Qed.

Lemma includes_factor (w l s r : text) :
  includes w (l ++ s ++ r) = false -> includes w s = false.
Proof.
  intros H. destruct (includes w s) eqn:E; [|reflexivity].
  now rewrite (@includes_left w l (s ++ r) (@includes_right w s r E)) in H.
Qed.

Lemma pair_free_prefix (R : ascii -> ascii -> bool) (s r : text) :
  pair_free R (s ++ r) = true -> pair_free R s = true.
Proof.
  induction s as [|x s IH]; intros H; [reflexivity|].
  destruct s as [|y s]; [reflexivity|].
  cbn [app] in H. rewrite pair_free_cons in H |- *.
  apply andb_prop in H as [H1 H2]. rewrite H1. now apply IH.
Qed.

Lemma pair_free_factor (R : ascii -> ascii -> bool) (l s r : text) :
  pair_free R (l ++ s ++ r) = true -> pair_free R s = true.
Proof.
  intros H. apply pair_free_suffix in H. now apply pair_free_prefix in H.
Qed.

(** Two texts that share a character glue at it. *)
Lemma pair_free_glue (R : ascii -> ascii -> bool) (s : text) (c : ascii)
    (r : text) :
  pair_free R (s ++ [c]) = true -> pair_free R (c :: r) = true ->
  pair_free R (s ++ c :: r) = true.
Proof.
  induction s as [|x s IH]; intros H1 H2; [exact H2|].
  destruct s as [|y s].
  - cbn [app] in *. rewrite pair_free_cons in *.
    apply andb_prop in H1 as [H1 _]. now rewrite H1.
  - cbn [app] in *. rewrite pair_free_cons in *.
    apply andb_prop in H1 as [H1 H3]. rewrite H1. now apply IH.
Qed.

Lemma pair_free_snoc (R : ascii -> ascii -> bool) (s : text) (c : ascii) :
  pair_free R s = true -> (forall x, R x c = false) ->
  pair_free R (s ++ [c]) = true.
Proof.
  intros H Hc. induction s as [|x s IH]; [reflexivity|].
  destruct s as [|y s].
  - cbn [app]. rewrite pair_free_cons, Hc. reflexivity.
  - cbn [app] in *. rewrite pair_free_cons in *.
    apply andb_prop in H as [H1 H2]. rewrite H1. now apply IH.
Qed.

Lemma pair_free_push (R : ascii -> ascii -> bool) (c : ascii) (s : text) :
  pair_free R s = true -> (forall y, R c y = false) ->
  pair_free R (c :: s) = true.
Proof.
  intros H Hc. destruct s as [|y s]; [reflexivity|].
  now rewrite pair_free_cons, Hc.
Qed.

Lemma trim_factor (s : text) : exists l r, s = l ++ trim s ++ r.
Proof.
  unfold trim, trimEnd, trimStart.
  destruct (dropWhile_suffix is_space s) as (l & El).
  destruct (dropWhile_suffix is_space (rev (dropWhile is_space s)))
    as (w & Ew).
  apply (f_equal (@rev ascii)) in Ew.
  rewrite rev_involutive, rev_app_distr in Ew.
  exists l, (rev w). now rewrite <- Ew.
Qed.

Lemma trim_fixed (s : text) : trimmed s = true -> trim s = s.
Proof.
  unfold trimmed, trim, trimEnd, trimStart. intros H.
  apply andb_prop in H as [H1 H2].
  assert (E : forall t, starts_clean t = true -> dropWhile is_space t = t).
  { intros [|c t] Ht; [reflexivity|]. simpl in *.
    now destruct (is_space c). }
  rewrite (E s H1), (E (rev s) H2). apply rev_involutive.
Qed.

(** *** Replacing by a constant text *)

Section Constant.

Variable r : regex.
Variables (c0 cl : ascii) (w0 : text).
Let f : text -> caps -> text := fun _ _ => c0 :: w0.

(** Every match ends with [cl], as the text written for it does. *)
Hypothesis shape :
  forall b a cs p',
    exec r (b, a) = Some (cs, p') ->
    exists m a', a = (m ++ [cl]) ++ a' /\ p' = (rev (m ++ [cl]) ++ b, a').
Hypothesis last_written : exists w', c0 :: w0 = w' ++ [cl].

Lemma no_match_at_end (b : text) (cs : caps) (p' : pos) :
  exec r (b, []) = Some (cs, p') -> False.
Proof.
  intros E. destruct (shape _ _ E) as (m & a' & Ha & _).
  destruct m; discriminate.
Qed.

Lemma no_empty_match (b a : text) (cs : caps) :
  exec r (b, a) = Some (cs, (b, a)) -> False.
Proof.
  intros E. destruct (shape _ _ E) as (m & a' & Ha & Hp).
  injection Hp as _ <-. apply (f_equal (@length ascii)) in Ha.
  rewrite !length_app in Ha. simpl in Ha. lia.
Qed.


Lemma head_kept (b a o : text) :
  replaced r f b a o ->
  forall c o', o = c :: o' -> c <> c0 ->
    exists a', a = c :: a' /\ exec r (b, a) = None
               /\ replaced r f (c :: b) a' o'.
Proof.
  intros H c o' Ho Hc.
  destruct H as [b E|b cs p' E|b x a o E H|b x a o cs E H|b m a o cs Hm E H].
  - discriminate.
  - now apply no_match_at_end in E.
  - injection Ho as -> ->. now exists a.
  - now apply no_empty_match in E.
  - unfold f in Ho. simpl in Ho. injection Ho as -> _. now destruct Hc.
Qed.

Lemma Forall_replaced (P : ascii -> Prop) (b a o : text) :
  replaced r f b a o -> Forall P (c0 :: w0) -> Forall P a -> Forall P o.
Proof.
  intros H Hw. induction H as [b E|b cs p' E|b x a o E H IH|b x a o cs E H IH
                              |b m a o cs Hm E H IH]; intros Ha.
  - constructor.
  - exact Hw.
  - inversion Ha; subst. constructor; auto.
  - inversion Ha; subst. apply Forall_app. split; [exact Hw|].
    constructor; auto.
  - apply Forall_app in Ha as [_ Ha]. apply Forall_app. split; auto.
Qed.


End Constant.

(** *** The two rewrites of [parseLineBreaks] *)

Lemma shape_hard (b a : text) (cs : caps) (p' : pos) :
  exec re_hard_break (b, a) = Some (cs, p') ->
  exists m a', a = (m ++ [nl]) ++ a' /\ p' = (rev (m ++ [nl]) ++ b, a').
Proof.
  intros E. destruct (exec_fits _ _ _ E) as (w & a' & -> & -> & Hf).
  inv Hf. now exists (txt "  "), a'.
Qed.

Lemma exec_hard_at (b a : text) :
  exec re_hard_break (b, hard_break ++ a)
  = Some ([], (rev hard_break ++ b, a)).
Proof. unfold exec, re_hard_break. now rewrite run_lit_app. Qed.

Lemma shape_blank_full (b a : text) (cs : caps) (p' : pos) :
  exec re_blank_lines (b, a) = Some (cs, p') ->
  exists m a',
    a = (nl :: m ++ [nl]) ++ a' /\ p' = (rev (nl :: m ++ [nl]) ++ b, a').
Proof.
  intros E. destruct (exec_fits _ _ _ E) as (w & a' & -> & -> & Hf).
  inv Hf.
  destruct w as [|x w]; [simpl in *; lia|].
  destruct (exists_last (l := w)) as (m & y & ->).
  { intros ->. simpl in *. lia. }
  match goal with H : Forall _ _ |- _ => inv H end.
  match goal with H : Forall _ (m ++ [y]) |- _ =>
    apply Forall_app in H as [_ H]; inv H end.
  repeat match goal with H : Ascii.eqb nl _ = true |- _ =>
    apply Ascii.eqb_eq in H; subst end.
  now exists m, a'.
Qed.

Lemma shape_blank (b a : text) (cs : caps) (p' : pos) :
  exec re_blank_lines (b, a) = Some (cs, p') ->
  exists m a', a = (m ++ [nl]) ++ a' /\ p' = (rev (m ++ [nl]) ++ b, a').
Proof.
  intros E. destruct (shape_blank_full _ _ E) as (m & a' & -> & ->).
  now exists (nl :: m), a'.
Qed.

Lemma ends_nonblank_cons (c d : ascii) (l : text) :
  ends_nonblank (c :: d :: l) = ends_nonblank (d :: l).
Proof.
  unfold ends_nonblank. cbn [rev].
  destruct (rev l ++ [d]) as [|z zs] eqn:E; [now destruct (rev l)|].
  reflexivity.
Qed.

Lemma no_break_app (x y : text) :
  includes hard_break x = false ->
  includes hard_break y = false ->
  ends_nonblank x = true ->
  includes hard_break (x ++ y) = false.
Proof.
  induction x as [|c x IH]; intros Hx Hy He; [exact Hy|].
  cbn [includes] in Hx. apply orb_false_iff in Hx as [Hs Hx].
  change ((c :: x) ++ y) with (c :: x ++ y). cbn [includes].
  apply orb_false_iff. split.
  - destruct x as [|d [|e x]].
    + unfold ends_nonblank in He. simpl in He.
      apply negb_true_iff in He.
      change hard_break with [" "%char; " "%char; nl]. cbn [app startsWith].
      rewrite Ascii.eqb_sym, He. reflexivity.
    + rewrite ends_nonblank_cons in He. unfold ends_nonblank in He.
      simpl in He. apply negb_true_iff in He.
      change hard_break with [" "%char; " "%char; nl]. cbn [app startsWith].
      rewrite (Ascii.eqb_sym " " d), He. apply andb_false_r.
    + exact Hs.
  - apply IH; auto.
    destruct x as [|d x]; [reflexivity|]. now rewrite ends_nonblank_cons in He.
Qed.

Lemma includes_suffix (w l s : text) :
  includes w (l ++ s) = false -> includes w s = false.
Proof.
  intros H. apply (@includes_factor w l s []). now rewrite app_nil_r.
Qed.

Lemma hard_head_kept (b a o' : text) (c : ascii) :
  replaced re_hard_break br b a (c :: o') -> c <> "<"%char ->
  exists a', a = c :: a' /\ exec re_hard_break (b, a) = None
             /\ replaced re_hard_break br (c :: b) a' o'.
Proof.
  intros H Hc.
  exact (@head_kept re_hard_break "<"%char nl (txt "br>" ++ [nl]) shape_hard
           (ex_intro _ (txt "<br>") eq_refl) b a _ H c o' eq_refl Hc).
Qed.

Lemma blank_head_kept (b a o' : text) (c : ascii) :
  replaced re_blank_lines two_nl b a (c :: o') -> c <> nl ->
  exists a', a = c :: a' /\ exec re_blank_lines (b, a) = None
             /\ replaced re_blank_lines two_nl (c :: b) a' o'.
Proof.
  intros H Hc.
  exact (@head_kept re_blank_lines nl nl [nl] shape_blank
           (ex_intro _ [nl] eq_refl) b a _ H c o' eq_refl Hc).
Qed.

Lemma hard_no_start (b a o : text) :
  replaced re_hard_break br b a o -> startsWith hard_break o = false.
Proof.
  intros H. destruct (startsWith hard_break o) eqn:E; [|reflexivity].
  exfalso. destruct (startsWith_split _ _ E) as (o3 & ->).
  change (hard_break ++ o3) with (" "%char :: " "%char :: nl :: o3) in H.
  destruct (hard_head_kept H) as (a1 & -> & Hn & H1); [discriminate|].
  destruct (hard_head_kept H1) as (a2 & -> & _ & H2); [discriminate|].
  destruct (hard_head_kept H2) as (a3 & -> & _ & H3); [discriminate|].
  change (" "%char :: " "%char :: nl :: a3) with (hard_break ++ a3) in Hn.
  rewrite exec_hard_at in Hn. discriminate.
Qed.

Lemma hard_no_break (b a o : text) :
  replaced re_hard_break br b a o -> includes hard_break o = false.
Proof.
  intros H.
  induction H as [b E|b cs p' E|b x a o E H IH|b x a o cs E H IH
                 |b m a o cs Hm E H IH].
  - reflexivity.
  - destruct (@no_match_at_end _ _ shape_hard _ _ _ E).
  - cbn [includes]. rewrite IH, orb_false_r.
    apply (@hard_no_start b (x :: a)). now constructor.
  - destruct (@no_empty_match _ _ shape_hard _ _ _ E).
  - apply no_break_app; auto.
Qed.

Lemma blank_head (b a o o' : text) :
  replaced re_blank_lines two_nl b a o -> o = nl :: o' ->
  exists a', a = nl :: a'.
Proof.
  intros H Ho.
  destruct H as [b E|b cs p' E|b x a o E H|b x a o cs E H|b m a o cs Hm E H].
  - discriminate.
  - destruct (@no_match_at_end _ _ shape_blank _ _ _ E).
  - injection Ho as -> _. now exists a.
  - destruct (@no_empty_match _ _ shape_blank _ _ _ E).
  - destruct (shape_blank_full _ _ E) as (m' & a' & Ea & _).
    rewrite Ea. simpl. eexists; reflexivity.
Qed.

Lemma blank_no_start (b a o : text) :
  replaced re_blank_lines two_nl b a o ->
  startsWith hard_break a = false -> startsWith hard_break o = false.
Proof.
  intros H Ha. destruct (startsWith hard_break o) eqn:E; [|reflexivity].
  exfalso. destruct (startsWith_split _ _ E) as (o3 & ->).
  change (hard_break ++ o3) with (" "%char :: " "%char :: nl :: o3) in H.
  destruct (blank_head_kept H) as (a1 & -> & _ & H1); [discriminate|].
  destruct (blank_head_kept H1) as (a2 & -> & _ & H2); [discriminate|].
  destruct (blank_head H2 eq_refl) as (a3 & ->).
  discriminate.
Qed.

Lemma blank_no_break (b a o : text) :
  replaced re_blank_lines two_nl b a o ->
  includes hard_break a = false -> includes hard_break o = false.
Proof.
  intros H.
  induction H as [b E|b cs p' E|b x a o E H IH|b x a o cs E H IH
                 |b m a o cs Hm E H IH]; intros Ha.
  - reflexivity.
  - destruct (@no_match_at_end _ _ shape_blank _ _ _ E).
  - cbn [includes] in Ha. apply orb_false_iff in Ha as [Hs Ha].
    cbn [includes]. rewrite (IH Ha), orb_false_r.
    apply (@blank_no_start b (x :: a)); [now constructor|exact Hs].
  - destruct (@no_empty_match _ _ shape_blank _ _ _ E).
  - apply no_break_app; auto. apply IH. now apply includes_suffix in Ha.
Qed.

Lemma lineBreaks_no_break (s : text) :
  includes hard_break (parseLineBreaks s) = false.
Proof.
  unfold parseLineBreaks.
  eapply blank_no_break; [apply replace_replaced|].
  eapply hard_no_break. apply replace_replaced.
Qed.



(** *** The pieces between blank lines *)

Lemma split_go_head (sep : text) (s : text) :
  forall p ps, split_go sep 0 s = p :: ps -> exists r, s = p ++ r.
Proof.
  induction s as [|c s IH]; intros p ps H; simpl in H.
  - injection H as <- _. now exists [].
  - destruct (startsWith sep (c :: s)).
    + injection H as <- _. now exists (c :: s).
    + destruct (split_go sep 0 s) as [|p' ps'] eqn:E.
      * injection H as <- _. now exists s.
      * injection H as <- _. destruct (IH p' ps' eq_refl) as (r & ->).
        now exists r.
Qed.

Lemma split_go_factor (sep : text) (s : text) :
  forall k p, In p (split_go sep k s) -> exists l r, s = l ++ p ++ r.
Proof.
  induction s as [|c s IH]; intros k p H; simpl in H.
  - destruct H as [<-|[]]. now exists [], [].
  - destruct k as [|k].
    + destruct (startsWith sep (c :: s)).
      * destruct H as [<-|H]; [now exists [], (c :: s)|].
        destruct (IH _ _ H) as (l & r & ->). now exists (c :: l), r.
      * destruct (split_go sep 0 s) as [|p' ps'] eqn:E.
        -- destruct H as [<-|[]]. now exists [], s.
        -- destruct H as [<-|H].
           ++ destruct (@split_go_head sep s p' ps' E) as (r & ->).
              now exists [], r.
           ++ destruct (IH 0 p) as (l & r & ->); [rewrite E; now right|].
              now exists (c :: l), r.
    + destruct (IH _ _ H) as (l & r & ->). now exists (c :: l), r.
Qed.

Lemma split_pair_free (s : text) :
  forall k p,
    In p (split_go [nl; nl] k s) -> pair_free two_newlines p = true.
Proof.
  induction s as [|c s IH]; intros k p H; cbn [split_go] in H.
  - now destruct H as [<-|[]].
  - destruct k as [|k]; [|now apply (IH k)].
    destruct (startsWith [nl; nl] (c :: s)) eqn:Es.
    + destruct H as [<-|H]; [reflexivity|]. now apply (IH _ _ H).
    + destruct (split_go [nl; nl] 0 s) as [|p' ps'] eqn:E.
      * now destruct H as [<-|[]].
      * destruct H as [<-|H]; [|apply (IH 0); rewrite E; now right].
        assert (Hp : pair_free two_newlines p' = true)
          by (apply (IH 0); rewrite E; now left).
        destruct p' as [|d p']; [reflexivity|].
        rewrite pair_free_cons, Hp, andb_true_r. apply negb_true_iff.
        destruct (@split_go_head _ s _ _ E) as (r & ->).
        cbn [app startsWith] in Es. rewrite andb_true_r in Es.
        unfold two_newlines.
        now rewrite (Ascii.eqb_sym c), (Ascii.eqb_sym d).
Qed.

(** *** Blocks *)

Lemma isBlockElement_head (s : text) :
  isBlockElement s = true -> hd_error s = Some "<"%char.
Proof.
  destruct s as [|a s]; [discriminate|].
  destruct (Ascii.eqb "<" a) eqn:E.
  - apply Ascii.eqb_eq in E. now subst a.
  - cbv [isBlockElement blockTags map txt list_ascii_of_string existsb
         startsWith].
    rewrite E. discriminate.
Qed.

Lemma clean_nonblank (s : text) :
  starts_clean (rev s) = true -> ends_nonblank s = true.
Proof.
  unfold ends_nonblank. destruct (rev s) as [|c l]; [reflexivity|].
  simpl. intros H. apply negb_true_iff in H. apply negb_true_iff.
  destruct (Ascii.eqb c " ") eqn:E; [|reflexivity].
  apply Ascii.eqb_eq in E. subst c. discriminate.
Qed.

Ltac pair_facts :=
  intros; cbv [two_newlines bol_gt digit_dot colon_slash];
  first [reflexivity | apply andb_false_r].

Lemma wrap_pair_free (R : ascii -> ascii -> bool) (s : text) :
  (forall x, R x "<"%char = false) ->
  (forall y, R ">"%char y = false) ->
  (forall y, R "<"%char y = false) ->
  R "p"%char ">"%char = false ->
  R "/"%char "p"%char = false ->
  pair_free R s = true ->
  pair_free R (txt "<p>" ++ s ++ txt "</p>") = true.
Proof.
  intros K1 K3 K4 K7 K8 H.
  change (txt "<p>" ++ s ++ txt "</p>")
    with ("<"%char :: "p"%char :: ">"%char
            :: s ++ "<"%char :: txt "/p>").
  rewrite !pair_free_cons, K4, K7. cbn [negb andb].
  apply pair_free_push; [|exact K3].
  apply pair_free_glue; [now apply pair_free_snoc|].
  cbn. now rewrite K4, K8, K7.
Qed.

Lemma paragraph_cases (b p : text) :
  In b (paragraph p) ->
  trim p <> []
  /\ ((isBlockElement (trim p) = true /\ b = trim p)
      \/ b = txt "<p>" ++ trim p ++ txt "</p>").
Proof.
  unfold paragraph. destruct (trim p) as [|c l] eqn:E; [intros []|].
  destruct (isBlockElement (c :: l)) eqn:Eb; intros [<-|[]].
  - split; [discriminate|]. left. now split.
  - split; [discriminate|]. now right.
Qed.

Lemma paragraph_tidy (b p : text) :
  In b (paragraph p) ->
  pair_free two_newlines p = true ->
  includes hard_break p = false ->
  tidy b.
Proof.
  intros Hb Hp Hh. destruct (@paragraph_cases _ _ Hb) as (Hne & Hc).
  destruct (trim_factor p) as (l & r & Ep).
  assert (Hx : pair_free two_newlines (trim p) = true)
    by (rewrite Ep in Hp; now apply pair_free_factor in Hp).
  assert (Hy : includes hard_break (trim p) = false)
    by (rewrite Ep in Hh; now apply includes_factor in Hh).
  pose proof (trim_trimmed p) as Ht. unfold trimmed in Ht.
  apply andb_prop in Ht as [Ht1 Ht2].
  destruct Hc as [[Hblock ->]| ->]; unfold tidy.
  - repeat split; auto. now apply isBlockElement_head.
  - split; [reflexivity|]. split; [|split; [|split]].
    + rewrite !rev_app_distr. reflexivity.
    + apply wrap_pair_free; auto; pair_facts.
    + apply no_break_app; [reflexivity| |reflexivity].
      apply no_break_app; [exact Hy|reflexivity|].
      now apply clean_nonblank.
    + reflexivity.
Qed.

Lemma blocks_tidy (s : text) :
  includes hard_break s = false ->
  Forall tidy (flat_map paragraph (split [nl; nl] s)).
Proof.
  intros H. apply Forall_forall. intros b Hb.
  apply in_flat_map in Hb as (p & Hp & Hb).
  apply paragraph_tidy with (p := p); [exact Hb| |].
  - now apply split_pair_free in Hp.
  - destruct (@split_go_factor _ _ _ _ Hp) as (l & r & E).
    rewrite E in H. now apply includes_factor in H.
Qed.

(** *** Tidy blocks joined by blank lines *)

Lemma tidy_inner (b w1 w2 rest : text) (x : ascii) :
  tidy b -> b = w1 ++ x :: w2 ->
  startsWith [nl; nl] (x :: w2 ++ rest) = false.
Proof.
  intros (_ & Hc & Hp & _) E.
  destruct (startsWith [nl; nl] (x :: w2 ++ rest)) eqn:Es; [|reflexivity].
  exfalso. subst b. destruct w2 as [|y w2]; cbn [app startsWith] in Es.
  - apply andb_prop in Es as [Ex _]. apply Ascii.eqb_eq in Ex. subst x.
    rewrite rev_app_distr in Hc. discriminate.
  - apply andb_prop in Es as [Ex Ey]. apply andb_prop in Ey as [Ey _].
    apply Ascii.eqb_eq in Ex, Ey. subst x y.
    apply pair_free_here in Hp. discriminate.
Qed.

Lemma tidy_trimmed (b : text) : tidy b -> trimmed b = true.
Proof.
  intros (Hh & Hc & _). unfold trimmed. rewrite Hc, andb_true_r.
  destruct b as [|c b]; [reflexivity|]. injection Hh as ->. reflexivity.
Qed.

Lemma paragraph_tidy_fixed (b : text) : tidy b -> paragraph b = [b].
Proof.
  intros H. unfold paragraph. rewrite (trim_fixed _ (tidy_trimmed H)).
  destruct H as (Hh & _ & _ & _ & Hb).
  destruct b as [|c b]; [discriminate|]. now rewrite Hb.
Qed.

Lemma join_head (B : list text) :
  Forall tidy B -> B <> [] -> hd_error (join [nl; nl] B) = Some "<"%char.
Proof.
  intros H Hne. destruct B as [|b B]; [now destruct Hne|].
  inversion H as [|? ? (Hh & _) _]; subst.
  destruct b as [|c b]; [discriminate|]. injection Hh as ->.
  destruct B; reflexivity.
Qed.

Lemma join_clean_end (B : list text) :
  Forall tidy B -> starts_clean (rev (join [nl; nl] B)) = true.
Proof.
  induction 1 as [|b B Hb HB IH]; [reflexivity|].
  destruct B as [|b' B]; [now destruct Hb as (_ & Hc & _)|].
  change (join [nl; nl] (b :: b' :: B))
    with (b ++ [nl; nl] ++ join [nl; nl] (b' :: B)).
  rewrite !rev_app_distr.
  pose proof (join_head HB) as Hh.
  destruct (join [nl; nl] (b' :: B)) as [|c l] eqn:E;
    [now specialize (Hh ltac:(discriminate))|].
  destruct (rev (c :: l)) as [|z zs] eqn:Er.
  - apply (f_equal (@length ascii)) in Er. rewrite length_rev in Er.
    discriminate.
  - exact IH.
Qed.

Lemma join_no_break (B : list text) :
  Forall tidy B -> includes hard_break (join [nl; nl] B) = false.
Proof.
  induction 1 as [|b B Hb HB IH]; [reflexivity|].
  destruct B as [|b' B]; [now destruct Hb as (_ & _ & _ & Hn & _)|].
  change (join [nl; nl] (b :: b' :: B))
    with (b ++ [nl; nl] ++ join [nl; nl] (b' :: B)).
  destruct Hb as (_ & Hc & _ & Hn & _).
  apply no_break_app; [exact Hn| |now apply clean_nonblank].
  apply no_break_app; [reflexivity|exact IH|reflexivity].
Qed.

Lemma exec_hard_none (b a : text) :
  includes hard_break a = false -> exec re_hard_break (b, a) = None.
Proof.
  intros H. destruct (exec re_hard_break (b, a)) as [[cs p']|] eqn:E;
    [|reflexivity].
  destruct (exec_fits _ _ _ E) as (w & a' & -> & _ & Hf). inv Hf.
  destruct a'; discriminate.
Qed.

Lemma hard_fixed (s : text) :
  includes hard_break s = false -> replace re_hard_break br s = s.
Proof.
  intros H. apply replace_go_nomatch. intros b' a' E. simpl in E.
  apply exec_hard_none. rewrite <- E in H. now apply includes_suffix in H.
Qed.

Lemma exec_blank_starts (b a : text) (cs : caps) (p' : pos) :
  exec re_blank_lines (b, a) = Some (cs, p') ->
  exists a', startsWith [nl; nl] (a ++ a') = true.
Proof.
  intros E. destruct (shape_blank_full _ _ E) as (m & a' & -> & _).
  destruct (exec_fits _ _ _ E) as (w & a2 & Ea & _ & Hf). inv Hf.
  exists []. rewrite app_nil_r, Ea.
  destruct w as [|x [|y w]]; try (simpl in *; lia).
  match goal with H : Forall _ _ |- _ => inv H end.
  match goal with H : Forall _ _ |- _ => inv H end.
  cbn [app startsWith].
  repeat match goal with H : Ascii.eqb nl _ = true |- _ => rewrite H end.
  reflexivity.
Qed.

Lemma exec_blank_at (b a : text) :
  starts_clean a = true ->
  exec re_blank_lines (b, nl :: nl :: a) = Some ([], (nl :: nl :: b, a)).
Proof.
  intros H. unfold exec, re_blank_lines. cbn [run fst snd rep].
  change (Ascii.eqb nl nl) with true. cbn [andb more pred option_map].
  destruct a as [|c a]; [reflexivity|]. cbn [rep].
  assert (E : Ascii.eqb nl c = false).
  { destruct (Ascii.eqb nl c) eqn:E; [|reflexivity].
    apply Ascii.eqb_eq in E. subst c. discriminate. }
  rewrite E. reflexivity.
Qed.

Lemma replace_go_app_nomatch (r : regex) (f : text -> caps -> text)
    (s rest : text) :
  forall b,
    (forall w1 x w2,
        s = w1 ++ x :: w2 -> exec r (rev w1 ++ b, x :: w2 ++ rest) = None) ->
    replace_go r f 0 b (s ++ rest) = s ++ replace_go r f 0 (rev s ++ b) rest.
Proof.
  induction s as [|c s IH]; intros b H; [reflexivity|].
  change ((c :: s) ++ rest) with (c :: s ++ rest).
  pose proof (H [] c s eq_refl) as H0. cbn [rev app] in H0.
  rewrite replace_go_cons, H0.
  cbn [app]. f_equal. rewrite IH.
  - cbn [rev]. now rewrite <- app_assoc.
  - intros w1 x w2 ->. specialize (H (c :: w1) x w2 eq_refl).
    cbn [rev] in H. now rewrite <- app_assoc in H.
Qed.

Lemma blank_inner (b w1 w2 rest bb : text) (x : ascii) :
  tidy b -> b = w1 ++ x :: w2 ->
  exec re_blank_lines (bb, x :: w2 ++ rest) = None.
Proof.
  intros Hb E.
  destruct (exec re_blank_lines (bb, x :: w2 ++ rest)) as [[cs p']|] eqn:Ex;
    [|reflexivity].
  destruct (exec_blank_starts _ _ Ex) as (a' & Hs).
  change ((x :: w2 ++ rest) ++ a') with (x :: (w2 ++ rest) ++ a') in Hs.
  rewrite <- app_assoc in Hs.
  now rewrite (@tidy_inner b w1 w2 (rest ++ a') x Hb E) in Hs.
Qed.

Lemma blank_join (B : list text) :
  Forall tidy B ->
  forall b,
    replace_go re_blank_lines two_nl 0 b (join [nl; nl] B) = join [nl; nl] B.
Proof.
  induction 1 as [|s B Hs HB IH]; intros b; [reflexivity|].
  destruct B as [|s' B].
  - cbn [join]. rewrite <- (app_nil_r s) at 1.
    rewrite replace_go_app_nomatch.
    + cbn. apply app_nil_r.
    + intros w1 x w2 E. now apply (@blank_inner s w1 w2 _ _ x Hs E).
  - change (join [nl; nl] (s :: s' :: B))
      with (s ++ nl :: nl :: join [nl; nl] (s' :: B)).
    rewrite replace_go_app_nomatch
      by (intros w1 x w2 E; now apply (@blank_inner s w1 w2 _ _ x Hs E)).
    f_equal. rewrite replace_go_cons, exec_blank_at.
    + change (nl :: nl :: rev s ++ b) with (rev [nl; nl] ++ rev s ++ b).
      rewrite passed_app. cbn [fst]. rewrite length_app.
      change (length (rev [nl; nl])) with 2.
      replace (2 + length (rev s ++ b) - length (rev s ++ b)) with 2 by lia.
      cbn [two_nl app replace_go]. now rewrite IH.
    + pose proof (join_head HB ltac:(discriminate)) as Hh.
      destruct (join [nl; nl] (s' :: B)); [discriminate|].
      injection Hh as ->. reflexivity.
Qed.

Lemma split_go_app_nomatch (sep s rest : text) :
  (forall w1 x w2,
      s = w1 ++ x :: w2 -> startsWith sep (x :: w2 ++ rest) = false) ->
  split_go sep 0 (s ++ rest)
  = match split_go sep 0 rest with
    | p :: ps => (s ++ p) :: ps
    | [] => [s]
    end.
Proof.
  induction s as [|c s IH]; intros H.
  - cbn [app]. destruct (split_go sep 0 rest) eqn:E; [|reflexivity].
    now apply split_go_nonempty in E.
  - change ((c :: s) ++ rest) with (c :: s ++ rest). cbn [split_go].
    pose proof (H [] c s eq_refl) as H0. rewrite H0, IH.
    + destruct (split_go sep 0 rest); reflexivity.
    + intros w1 x w2 ->. apply (H (c :: w1) x w2 eq_refl).
Qed.

Lemma split_at_blank (a : text) :
  split_go [nl; nl] 0 (nl :: nl :: a) = [] :: split_go [nl; nl] 0 a.
Proof. reflexivity. Qed.

Lemma split_join (B : list text) :
  Forall tidy B -> B <> [] -> split [nl; nl] (join [nl; nl] B) = B.
Proof.
  unfold split. induction 1 as [|s B Hs HB IH]; intros Hne;
    [now destruct Hne|].
  destruct B as [|s' B].
  - cbn [join]. rewrite <- (app_nil_r s) at 1.
    rewrite split_go_app_nomatch
      by (intros w1 x w2 E; now apply (@tidy_inner s w1 w2 _ x Hs E)).
    cbn. now rewrite app_nil_r.
  - change (join [nl; nl] (s :: s' :: B))
      with (s ++ nl :: nl :: join [nl; nl] (s' :: B)).
    rewrite split_go_app_nomatch
      by (intros w1 x w2 E; now apply (@tidy_inner s w1 w2 _ x Hs E)).
    rewrite split_at_blank, IH by discriminate. now rewrite app_nil_r.
Qed.

Lemma join_trimmed (B : list text) :
  Forall tidy B -> trimmed (join [nl; nl] B) = true.
Proof.
  intros H. unfold trimmed. rewrite (join_clean_end H), andb_true_r.
  destruct B as [|b B]; [reflexivity|].
  pose proof (join_head H ltac:(discriminate)) as Hh.
  destruct (join [nl; nl] (b :: B)); [reflexivity|].
  injection Hh as ->. reflexivity.
Qed.

Lemma flat_map_paragraph_tidy (B : list text) :
  Forall tidy B -> flat_map paragraph B = B.
Proof.
  induction 1 as [|b B Hb HB IH]; [reflexivity|].
  cbn [flat_map]. now rewrite (paragraph_tidy_fixed Hb), IH.
Qed.

(** What [parseParagraphs] returns is made of tidy blocks. *)
Lemma assemble_blocks (s : text) :
  exists B,
    Forall tidy B /\ assemble s = join [nl; nl] B.
Proof.
  exists (flat_map paragraph (split [nl; nl] (parseLineBreaks s))).
  assert (H : Forall tidy
                (flat_map paragraph (split [nl; nl] (parseLineBreaks s))))
    by apply blocks_tidy, lineBreaks_no_break.
  split; [exact H|].
  unfold assemble, parseParagraphs. apply trim_fixed. now apply join_trimmed.
Qed.

(** Tidy blocks joined by blank lines go through the last three steps as
    they are. *)
Lemma tidy_join_fixed (B : list text) :
  Forall tidy B ->
  parseLineBreaks (join [nl; nl] B) = join [nl; nl] B
  /\ parseParagraphs (join [nl; nl] B) = join [nl; nl] B
  /\ assemble (join [nl; nl] B) = join [nl; nl] B.
Proof.
  intros H.
  assert (HL : parseLineBreaks (join [nl; nl] B) = join [nl; nl] B).
  { unfold parseLineBreaks. rewrite (hard_fixed _ (join_no_break H)).
    apply (blank_join H). }
  assert (HP : parseParagraphs (join [nl; nl] B) = join [nl; nl] B).
  { unfold parseParagraphs. destruct B as [|b B]; [reflexivity|].
    rewrite (split_join H) by discriminate.
    now rewrite (flat_map_paragraph_tidy H). }
  split; [exact HL|]. split; [exact HP|].
  unfold assemble. rewrite HL, HP. apply trim_fixed. now apply join_trimmed.
Qed.

(** *** What the last three steps keep *)














(* ================================================================= *)
(** ** Further properties of the matcher *)

Lemma rep_accept (g : bool) (p : ascii -> bool) (a : text) :
  forall hi b cs, exists o, rep g p accept a 0 hi b cs = Some o.
Proof.
  induction a as [|x a IH]; intros hi b cs; cbn [rep halt pred].
  - eexists; reflexivity.
  - destruct g.
    + destruct (p x && more hi).
      * destruct (IH (option_map pred hi) (x :: b) cs) as (o & ->).
        now exists o.
      * eexists; reflexivity.
    + eexists; reflexivity.
Qed.

(** A greedy quantifier followed by something that succeeds after the
    whole run takes the whole run. *)
Lemma rep_greedy_all (p : ascii -> bool) (K : cont) (a : text) (o : outcome) :
  forall w lo hi b cs,
    Forall (fun x => p x = true) w ->
    match a with [] => True | x :: _ => p x = false end ->
    within hi (length w) ->
    lo <= length w ->
    K (rev w ++ b, a) cs = Some o ->
    rep true p K (w ++ a) lo hi b cs = Some o.
Proof.
  induction w as [|x w IH]; intros lo hi b cs Hw Ha Hh Hlo HK.
  - simpl in Hlo. assert (lo = 0) by lia. subst lo. cbn [app].
    destruct a as [|y a]; cbn [rep halt]; [exact HK|].
    rewrite Ha. cbn [andb]. exact HK.
  - inversion Hw as [|? ? Hx Hw']; subst. cbn [app rep].
    assert (Hm : more hi = true).
    { destruct hi as [[|h]|]; try reflexivity. simpl in Hh. lia. }
    rewrite Hx, Hm. cbn [andb].
    rewrite (IH (pred lo) (option_map pred hi) (x :: b) cs); auto.
    + destruct hi as [h|]; simpl in *; [lia|exact I].
    + simpl in Hlo. lia.
    + simpl in HK. now rewrite <- app_assoc in HK.
Qed.

(** After a match that takes [m], the loop writes the replacement and goes
    on behind [m]. *)
Lemma replace_go_match (r : regex) (f : text -> caps -> text)
    (b m a : text) (cs : caps) :
  m <> [] ->
  exec r (b, m ++ a) = Some (cs, (rev m ++ b, a)) ->
  replace_go r f 0 b (m ++ a) = f m cs ++ replace_go r f 0 (rev m ++ b) a.
Proof.
  intros Hm E. destruct m as [|x m]; [now destruct Hm|].
  change ((x :: m) ++ a) with (x :: m ++ a) in *.
  rewrite replace_go_cons, E.
  change (x :: m ++ a) with ((x :: m) ++ a). rewrite passed_app.
  cbn [fst]. rewrite length_app, length_rev. cbn [length].
  replace (S (length m) + length b - length b) with (S (length m)) by lia.
  rewrite replace_go_skip. cbn [rev]. now rewrite <- app_assoc.
Qed.

(** If an expression without bounded quantifiers can take [w] and what
    follows accepts behind [w], whatever the captures, the matcher does not
    answer no. *)
Lemma run_complete (r : regex) (b w a : text) :
  fits r b w a ->
  unbounded r = true ->
  forall k,
    (forall cs, k (rev w ++ b, a) cs <> None) ->
    forall cs, run r k (b, w ++ a) cs <> None.
Proof.
  induction 1 as [w b a|f x b a Hx|g lo hi f w b a Hw Hlo|r b w a Hf IH
                 |r b a|i r b w a Hf IH|r1 r2 b w1 w2 a Hf1 IH1 Hf2 IH2
                 |b a Hb|b a He];
    intros Hu k Hk cs.
  - rewrite run_lit_app. apply Hk.
  - cbn [run snd fst app]. rewrite Hx. apply Hk.
  - cbn [unbounded] in Hu. destruct hi; [discriminate|].
    cbn [run fst snd]. clear Hu. revert lo b cs Hlo Hk.
    induction Hw as [|x w Hx Hw IHw]; intros lo b cs Hlo Hk.
    + simpl in Hlo. assert (lo = 0) by lia. subst lo. cbn [app].
      destruct a as [|y a]; cbn [rep halt]; [apply Hk|].
      destruct g.
      * destruct (if f y && more None
                  then rep true f k a (pred 0) (option_map pred None)
                         (y :: b) cs
                  else None); [discriminate|apply Hk].
      * destruct (k (b, y :: a) cs) eqn:E; [discriminate|].
        now destruct (Hk cs).
    + cbn [app rep]. rewrite Hx. cbn [more andb option_map].
      assert (Hs : rep g f k (w ++ a) (pred lo) None (x :: b) cs <> None).
      { apply IHw; [simpl in Hlo; lia|].
        intros cs'. specialize (Hk cs'). simpl in Hk.
        now rewrite <- app_assoc in Hk. }
      destruct g.
      * destruct (rep true f k (w ++ a) (pred lo) None (x :: b) cs);
          [discriminate|now destruct Hs].
      * destruct (halt k lo b (x :: w ++ a) cs); [discriminate|exact Hs].
  - cbn [run]. cbn [unbounded] in Hu.
    destruct (run r k (b, w ++ a) cs) eqn:E; [discriminate|].
    now destruct (IH Hu k Hk cs).
  - cbn [run app]. destruct (run r k (b, a) cs); [discriminate|apply Hk].
  - cbn [run]. apply IH; [exact Hu|]. intros cs'. apply Hk.
  - cbn [run]. cbn [unbounded] in Hu. apply andb_prop in Hu as [Hu1 Hu2].
    rewrite <- app_assoc. apply IH1; [exact Hu1|].
    intros cs'. apply IH2; [exact Hu2|].
    intros cs''. specialize (Hk cs'').
    now rewrite rev_app_distr, <- app_assoc in Hk.
  - cbn [run app]. rewrite Hb. apply Hk.
  - cbn [run app]. rewrite He. apply Hk.
Qed.

(* ================================================================= *)
(** ** Escaping *)

Lemma special_cases (c : ascii) :
  is_special c = true ->
  c = "&"%char \/ c = "<"%char \/ c = ">"%char \/ c = dq \/ c = "'"%char.
Proof.
  unfold is_special. intros H.
  repeat (apply orb_true_iff in H as [H|H]);
    apply Ascii.eqb_eq in H; auto.
Qed.

Lemma escaped_shape (c : ascii) :
  (is_special c = false /\ escaped c = [c] /\ c <> "&"%char)
  \/ exists x rest,
       escaped c = "&"%char :: x :: rest
       /\ (forall d y rest',
             escaped d = "&"%char :: y :: rest' -> y = x -> d = c).
Proof.
  destruct (is_special c) eqn:E.
  - right. pose proof (special_cases c E) as H.
    assert (Hd : forall d y rest',
               escaped d = "&"%char :: y :: rest' ->
               is_special d = true).
    { intros d y rest' Hd. destruct (is_special d) eqn:Ed; [reflexivity|].
      unfold escaped in Hd. rewrite Ed in Hd. discriminate. }
    destruct H as [->|[->|[->|[->| ->]]]];
      eexists; eexists; (split; [vm_compute; reflexivity|]);
      intros d y rest' Hd' ->;
      destruct (special_cases d (Hd _ _ _ Hd')) as [->|[->|[->|[->| ->]]]];
      (reflexivity || (vm_compute in Hd'; discriminate)).
  - left. split; [reflexivity|]. split.
    + unfold escaped. now rewrite E.
    + intros ->. discriminate.
Qed.

Lemma escaped_head (c d : ascii) (r r' : text) :
  escaped c ++ r = escaped d ++ r' -> c = d.
Proof.
  intros H.
  destruct (escaped_shape c) as [(_ & Ec & Hc)|(x & rest & Ec & Hx)];
    destruct (escaped_shape d) as [(_ & Ed & Hd)|(y & rest' & Ed & Hy)];
    rewrite Ec, Ed in H; cbn [app] in H.
  - now injection H.
  - injection H as H _. now destruct Hc.
  - injection H as H _. symmetry in H. now destruct Hd.
  - injection H as H _. symmetry. now apply (Hx d y rest').
Qed.

(** X1: [escapeHtml] writes no angle bracket and no quote: whatever the
    text, its escaping can stand in HTML text and in a quoted attribute
    value without opening or closing markup. *)
Theorem escapeHtml_writes_no_markup (s : text) :
  Forall (fun c => is_markup c = false) (escapeHtml s).
Proof.
  rewrite escapeHtml_flat_map. apply Forall_flat_map, Forall_forall.
  intros c _. unfold escaped. destruct (is_special c) eqn:E.
  - destruct (special_cases c E) as [->|[->|[->|[->| ->]]]];
      vm_compute; repeat constructor.
  - repeat constructor. unfold is_special in E. unfold is_markup.
    repeat (apply orb_false_iff in E as [E ?]).
    repeat (apply orb_false_iff; split); assumption.
Qed.

(** X2: [escapeHtml] loses nothing: two texts with the same escaping are
    the same text. *)
Theorem escapeHtml_injective (s t : text) :
  escapeHtml s = escapeHtml t -> s = t.
Proof.
  rewrite !escapeHtml_flat_map. revert t.
  induction s as [|c s IH]; intros [|d t] H; cbn [flat_map] in H.
  - reflexivity.
  - exfalso. destruct (escaped_shape d) as [(_ & E & _)|(x & r & E & _)];
      rewrite E in H; discriminate.
  - exfalso. destruct (escaped_shape c) as [(_ & E & _)|(x & r & E & _)];
      rewrite E in H; discriminate.
  - pose proof (escaped_head _ _ _ _ H) as ->.
    apply app_inv_head in H. f_equal. now apply IH.
Qed.

Lemma escapeHtml_injective_witness :
  txt "a<b" = txt "a<b".
Proof.
  apply escapeHtml_injective. vm_compute. reflexivity.
Defined.

(* ================================================================= *)
(** ** Heading ids *)

Lemma lower_not_upper (c : ascii) : between 65 90 (lower c) = false.
Proof. destruct c as [[] [] [] [] [] [] [] []]; vm_compute; reflexivity. Qed.

Lemma exec_spaces_some (b a : text) (x : ascii) :
  is_space x = true -> exec (plus is_space) (b, x :: a) <> None.
Proof.
  intros H. unfold exec, plus. cbn [run fst snd rep]. rewrite H.
  cbn [more andb pred option_map].
  destruct (rep_accept true is_space a None (x :: b) []) as (o & ->).
  discriminate.
Qed.

Lemma exec_spaces_shape (b a : text) (cs : caps) (p' : pos) :
  exec (plus is_space) (b, a) = Some (cs, p') ->
  exists x w a', a = x :: w ++ a' /\ p' = (rev (x :: w) ++ b, a').
Proof.
  intros E. destruct (exec_fits _ _ _ E) as (w & a' & -> & -> & Hf).
  inv Hf. destruct w as [|x w]; [simpl in *; lia|]. now exists x, w, a'.
Qed.

Lemma exec_spaces_moves (b a : text) (cs : caps) :
  exec (plus is_space) (b, a) = Some (cs, (b, a)) -> False.
Proof.
  intros E. destruct (exec_spaces_shape _ _ E) as (x & w & a' & _ & Hp).
  injection Hp as Hb _. apply (f_equal (@length ascii)) in Hb.
  rewrite length_app in Hb. simpl in Hb. rewrite length_app in Hb.
  simpl in Hb. lia.
Qed.

Lemma spaces_replaced (P : ascii -> Prop) (b a o : text) :
  replaced (plus is_space) (fun _ _ => txt "-") b a o ->
  Forall P a ->
  Forall (fun c => (P c /\ is_space c = false) \/ c = "-"%char) o.
Proof.
  induction 1 as [b E|b cs p' E|b x a o E H IH|b x a o cs E H IH
                 |b m a o cs Hm E H IH]; intros Ha.
  - constructor.
  - destruct (exec_spaces_shape _ _ E) as (x & w & a' & Ha' & _).
    discriminate.
  - inversion Ha; subst. constructor; [|now apply IH].
    left. split; [assumption|].
    destruct (is_space x) eqn:Ex; [|reflexivity].
    now destruct (exec_spaces_some b a x Ex).
  - now apply exec_spaces_moves in E.
  - apply Forall_app in Ha as [_ Ha]. constructor; [now right|now apply IH].
Qed.

Lemma generateHeaderId_slug (s : text) :
  Forall (fun c => slug_char c = true) (generateHeaderId s).
Proof.
  unfold generateHeaderId. apply Forall_trim.
  assert (H1 : Forall (fun c => between 65 90 c = false) (toLowerCase s)).
  { unfold toLowerCase. apply Forall_forall. intros c Hc.
    apply in_map_iff in Hc as (c' & <- & _). apply lower_not_upper. }
  assert (H2 : Forall (fun c => between 65 90 c = false
                                /\ is_slug_char c = true)
                 (replace (Cls (fun c => negb (is_slug_char c)))
                    (fun _ _ => []) (toLowerCase s))).
  { unfold replace. rewrite replace_go_cls. apply Forall_flat_map.
    revert H1. apply Forall_impl. intros c Hc.
    destruct (is_slug_char c) eqn:E; cbn [negb]; repeat constructor; auto. }
  pose proof (spaces_replaced (replace_replaced (plus is_space)
                                 (fun _ _ => txt "-") _) H2) as H3.
  revert H3. apply Forall_impl. intros c [[[Hu Hs] Hsp]| ->]; [|reflexivity].
  unfold is_slug_char, is_word in Hs. unfold slug_char.
  rewrite Hu, Hsp in Hs. cbn [orb] in Hs.
  destruct (is_digit c), (between 97 122 c), (Ascii.eqb c "_"),
    (Ascii.eqb c "-"); try reflexivity; discriminate.
Qed.

(** X3: the id [generateHeaderId] gives a heading holds only lower-case
    letters, digits, underscores and hyphens, whatever the heading: it has
    no white space, no quote and no upper-case letter. *)
Theorem generateHeaderId_alphabet (s : text) :
  Forall (fun c => slug_char c = true) (generateHeaderId s).
Proof. exact (generateHeaderId_slug s). Qed.

(* ================================================================= *)
(** ** Line breaks and paragraphs on every text *)

Lemma rep_greedy_stops (p : ascii -> bool) (a : text) :
  forall lo b cs cs' b' a',
    rep true p accept a lo None b cs = Some (cs', (b', a')) ->
    match a' with [] => True | x :: _ => p x = false end.
Proof.
  induction a as [|x a IH]; intros lo b cs cs' b' a' H; cbn [rep halt] in H.
  - destruct lo; [|discriminate]. unfold accept in H.
    injection H as _ _ <-. exact I.
  - destruct (p x) eqn:Hp; cbn [andb more] in H.
    + destruct (rep true p accept a (pred lo) (option_map pred None)
                  (x :: b) cs) as [o|] eqn:E.
      * injection H as ->. now apply (IH _ _ _ _ _ _ E).
      * destruct lo; [|discriminate]. cbn [pred option_map] in E.
        destruct (rep_accept true p a None (x :: b) cs) as (o & Ho).
        congruence.
    + destruct lo; [|discriminate]. unfold accept in H.
      injection H as _ _ <-. exact Hp.
Qed.

Lemma exec_blank_some (b a : text) :
  exec re_blank_lines (b, nl :: nl :: a) <> None.
Proof.
  unfold exec, re_blank_lines. cbn [run fst snd rep].
  change (Ascii.eqb nl nl) with true. cbn [andb more pred option_map].
  destruct (rep_accept true (Ascii.eqb nl) a None (nl :: nl :: b) [])
    as (o & Ho).
  destruct a as [|y a].
  - cbn [rep halt]. discriminate.
  - rewrite Ho. discriminate.
Qed.

Lemma blank_no_triple (b a o : text) :
  replaced re_blank_lines two_nl b a o ->
  includes [nl; nl; nl] o = false.
Proof.
  induction 1 as [b E|b cs p' E|b x a o E H IH|b x a o cs E H IH
                 |b m a o cs Hm E H IH].
  - reflexivity.
  - destruct (@no_match_at_end _ _ shape_blank _ _ _ E).
  - cbn [includes]. rewrite IH, orb_false_r.
    destruct (startsWith [nl; nl; nl] (x :: o)) eqn:Es; [|reflexivity].
    exfalso. destruct (startsWith_split _ _ Es) as (o3 & Eo).
    injection Eo as -> ->.
    destruct (blank_head H eq_refl) as (a' & ->).
    now apply (exec_blank_some b a').
  - destruct (@no_empty_match _ _ shape_blank _ _ _ E).
  - assert (Ha : forall o', o = nl :: o' -> False).
    { intros o' ->. destruct (blank_head H eq_refl) as (a' & ->).
      unfold exec, re_blank_lines in E. cbn [run fst snd] in E.
      apply rep_greedy_stops in E. discriminate. }
    unfold two_nl. cbn [app includes]. rewrite IH, orb_false_r.
    destruct o as [|y o]; [reflexivity|].
    cbn [startsWith].
    destruct (Ascii.eqb nl y) eqn:Ey.
    + apply Ascii.eqb_eq in Ey. subst y. now destruct (Ha o).
    + now rewrite !andb_false_r.
Qed.

(** X4: after [parseLineBreaks] no hard line break (two spaces before a
    line feed) is left in the text, and no three line feeds stand in a
    row: every blank gap is exactly one empty line. *)
Theorem parseLineBreaks_normal_form (s : text) :
  includes hard_break (parseLineBreaks s) = false
  /\ includes [nl; nl; nl] (parseLineBreaks s) = false.
Proof.
  split; [apply lineBreaks_no_break|].
  unfold parseLineBreaks. eapply blank_no_triple. apply replace_replaced.
Qed.

(** X5: on every text the last three steps of the pipeline (line breaks,
    paragraphs, trimming) give blocks joined by one empty line, each of
    which starts with a block-level tag; run again on their own output
    they change nothing. *)
Theorem paragraphs_settle (s : text) :
  exists B,
    assemble s = join [nl; nl] B
    /\ Forall (fun b => isBlockElement b = true) B
    /\ parseLineBreaks (assemble s) = assemble s
    /\ parseParagraphs (assemble s) = assemble s
    /\ assemble (assemble s) = assemble s.
Proof.
  destruct (assemble_blocks s) as (B & HB & E).
  destruct (tidy_join_fixed HB) as (HL & HP & HA).
  exists B. rewrite E. repeat split; auto.
  revert HB. apply Forall_impl. now intros b (_ & _ & _ & _ & Hb).
Qed.

(* ================================================================= *)
(** ** The list wrapper on every text *)

Lemma close_from_tags (lv : nat) (st : list frame) :
  filter (fun x => negb (is_tag x)) (fst (close_from lv st)) = [].
Proof.
  induction st as [|f st IH]; [reflexivity|]. cbn [close_from].
  destruct (Nat.leb lv (level f)); [|reflexivity].
  destruct (close_from lv st) as [out rest]. exact IH.
Qed.

Lemma close_all_tags (st : list frame) :
  filter (fun x => negb (is_tag x)) (close_all st) = [].
Proof. induction st as [|f st IH]; [reflexivity|exact IH]. Qed.

Lemma wrap_step_keeps (s s' : wstate) (l : text) :
  wrap_step s l = Some s' ->
  filter (fun x => negb (is_tag x)) (result s')
  = filter (fun x => negb (is_tag x)) (result s) ++ [line_piece l].
Proof.
  unfold wrap_step, line_piece.
  destruct (classify l) as [[[lv ord] c]|].
  - unfold on_item. destruct (negb (inList s)).
    + intros [= <-]. cbn [result]. now rewrite filter_app.
    + destruct (listStack s) as [|cur st] eqn:Est; [discriminate|].
      destruct (Nat.eqb lv (level cur) && Bool.eqb ord (isOrdered cur)).
      * intros [= <-]. cbn [result]. now rewrite filter_app.
      * destruct (Nat.ltb (level cur) lv).
        -- intros [= <-]. cbn [result]. now rewrite filter_app.
        -- pose proof (close_from_tags lv (cur :: st)) as Hc.
           destruct (close_from lv (cur :: st)) as [closed rest].
           cbn [fst] in Hc.
           destruct rest as [|f rest]; intros [= <-]; cbn [result];
             now rewrite !filter_app, Hc.
  - intros [= <-]. unfold on_line. destruct (inList s); cbn [result].
    + now rewrite !filter_app, close_all_tags.
    + now rewrite filter_app.
Qed.

Lemma wrap_loop_keeps (ls : list text) :
  forall s s',
    wrap_loop s ls = Some s' ->
    filter (fun x => negb (is_tag x)) (result s')
    = filter (fun x => negb (is_tag x)) (result s) ++ map line_piece ls.
Proof.
  induction ls as [|l ls IH]; intros s s'; cbn [wrap_loop map].
  - intros [= <-]. now rewrite app_nil_r.
  - destruct (wrap_step s l) as [s1|] eqn:E; [|discriminate].
    intros H. rewrite (@IH _ _ H), (@wrap_step_keeps _ _ _ E).
    now rewrite <- app_assoc.
Qed.

(** X6: the list wrapper loses no line of its input and keeps the lines
    in their order: apart from the list tags it adds, what it writes is,
    line for line, either the item read off a tagged item line or the
    line itself. *)
Theorem wrapListItems_keeps_lines (s : text) :
  exists ps,
    wrapListItems s = Some (join [nl] (map render ps))
    /\ filter (fun x => negb (is_tag x)) ps
       = map line_piece (split [nl] s).
Proof.
  unfold wrapListItems, wrap_pieces.
  destruct (wrap_loop_wf (split [nl] s) wf_start) as (st & E & _).
  unfold start in E. rewrite E.
  eexists; split; [reflexivity|].
  rewrite filter_app, close_all_tags, app_nil_r.
  now rewrite (@wrap_loop_keeps _ _ _ E).
Qed.

Lemma close_from_descending (lv : nat) (st : list frame) :
  descending st ->
  descending (snd (close_from lv st))
  /\ match snd (close_from lv st) with
     | [] => True
     | g :: _ => level g < lv
     end.
Proof.
  induction st as [|f st IH]; intros H; [now split|].
  cbn [close_from]. destruct (Nat.leb lv (level f)) eqn:E.
  - destruct H as (_ & H). specialize (IH H).
    destruct (close_from lv st) as [out rest]. exact IH.
  - cbn [snd]. split; [exact H|]. apply Nat.leb_gt in E. exact E.
Qed.

Lemma on_item_descending (s s' : wstate) (lv : nat) (ord : bool) (c : text) :
  descending (listStack s) ->
  on_item s lv ord c = Some s' ->
  descending (listStack s').
Proof.
  intros H. unfold on_item. destruct (negb (inList s)).
  - intros [= <-]. now split.
  - destruct (listStack s) as [|cur st] eqn:Est; [discriminate|].
    destruct (Nat.eqb lv (level cur) && Bool.eqb ord (isOrdered cur)).
    + intros [= <-]. exact H.
    + destruct (Nat.ltb (level cur) lv) eqn:El.
      * intros [= <-]. cbn [listStack].
        apply Nat.ltb_lt in El. now split.
      * destruct (@close_from_descending lv _ H) as (Hd & _).
        destruct (close_from lv (cur :: st)) as [closed rest].
        cbn [snd] in Hd.
        destruct rest as [|f rest]; intros [= <-]; cbn [listStack];
          [now split|exact Hd].
Qed.

Lemma wrap_loop_descending (ls : list text) :
  forall s s',
    descending (listStack s) ->
    wrap_loop s ls = Some s' ->
    descending (listStack s').
Proof.
  induction ls as [|l ls IH]; intros s s' H; cbn [wrap_loop].
  - now intros [= <-].
  - destruct (wrap_step s l) as [s1|] eqn:E; [|discriminate].
    apply IH. unfold wrap_step in E.
    destruct (classify l) as [[[lv ord] c]|].
    + eapply on_item_descending; eassumption.
    + injection E as <-. unfold on_line.
      destruct (inList s); cbn [listStack]; [exact I|exact H].
Qed.

Lemma descending_depth (st : list frame) :
  descending st ->
  match st with [] => True | f :: rest => length rest <= level f end.
Proof.
  induction st as [|f st IH]; [trivial|].
  intros (Hf & Hd). specialize (IH Hd).
  destruct st as [|g st]; cbn [length] in *; lia.
Qed.

(** X7: whatever lines the loop of the list wrapper has read, the levels
    on its stack of open lists go down strictly from the top, so under an
    open list of level n at most n further lists are open. *)
Theorem wrapListItems_stack_descending (ls : list text) :
  exists st,
    wrap_loop start ls = Some st
    /\ descending (listStack st)
    /\ match listStack st with
       | [] => True
       | f :: rest => length rest <= level f
       end.
Proof.
  destruct (wrap_loop_wf ls wf_start) as (st & E & _).
  exists st. split; [exact E|].
  assert (H : descending (listStack st))
    by (eapply wrap_loop_descending; [|exact E]; exact I).
  split; [exact H|now apply descending_depth].
Qed.

Lemma exec_li_starts (b a : text) (o : outcome) :
  exec re_li (b, a) = Some o ->
  startsWith (txt "<li data-level=") a = true.
Proof.
  destruct o as [cs p']. intros E.
  destruct (exec_fits _ _ _ E) as (w & a' & -> & _ & F).
  unfold re_li in F. inv F.
  match goal with H : fits (Lit _) _ _ _ |- _ => inv H end.
  reflexivity.
Qed.

Lemma classify_none (l : text) :
  includes (txt "<li data-level=") l = false -> classify l = None.
Proof.
  intros H. unfold classify.
  assert (E : js_match re_li l = None); [|now rewrite E].
  unfold js_match. apply search_none. intros b' a' Ea.
  destruct (exec re_li (b', a')) as [o|] eqn:E; [|reflexivity].
  apply exec_li_starts in E. cbn [rev app] in Ea. subst l.
  apply includes_suffix in H.
  destruct a' as [|x a']; [discriminate|].
  cbn [includes] in H. now rewrite E in H.
Qed.

Lemma wrap_without_items (s : text) :
  includes (txt "<li data-level=") s = false ->
  wrapListItems s = Some s.
Proof.
  intros H. unfold wrapListItems, wrap_pieces.
  rewrite wrap_loop_lines.
  - cbn [option_map result listStack close_all map app].
    rewrite app_nil_r, map_map. cbn [render]. rewrite map_id.
    now rewrite join_split_lines.
  - apply Forall_forall. intros l Hl. apply classify_none.
    destruct (@split_go_factor _ _ _ _ Hl) as (u & v & E).
    rewrite E in H. now apply includes_factor in H.
Qed.

(** X8: a text in which no item tag [<li data-level=] stands passes the
    list wrapper unchanged. *)
Theorem wrapListItems_without_items (s : text) :
  includes (txt "<li data-level=") s = false ->
  wrapListItems s = Some s.
Proof. exact (@wrap_without_items s). Qed.

Lemma wrapListItems_without_items_witness :
  includes (txt "<li data-level=") (lines ["<ul>"; "<li>a</li>"; "</ul>"]%string)
  = false
  /\ wrapListItems (lines ["<ul>"; "<li>a</li>"; "</ul>"]%string)
     = Some (lines ["<ul>"; "<li>a</li>"; "</ul>"]%string).
Proof.
  split; [reflexivity|].
  apply (wrapListItems_without_items
           (lines ["<ul>"; "<li>a</li>"; "</ul>"]%string)).
  reflexivity.
Defined.

(* ================================================================= *)
(** ** Expressions that do not look behind *)

Lemma passed_shift (w0 w b b' a a' : text) :
  passed (w0 ++ b, a) (w ++ b, a') = passed (w0 ++ b', a) (w ++ b', a').
Proof.
  unfold passed. cbn [fst]. rewrite !length_app.
  replace (length w + length b - (length w0 + length b))
    with (length w - length w0) by lia.
  replace (length w + length b' - (length w0 + length b'))
    with (length w - length w0) by lia.
  rewrite !firstn_app.
  replace (length w - length w0 - length w) with 0 by lia.
  reflexivity.
Qed.

Lemma alike_some (b b' : text) (o o' : option outcome) :
  alike b b' o o' ->
  alike b b'
    (match o with Some x => Some x | None => None end)
    (match o' with Some x => Some x | None => None end).
Proof. now destruct o, o'. Qed.

Lemma lit_alike (b b' : text) (k k' : cont) (w : text) :
  alike_cont b b' k k' ->
  forall w0 a cs,
    alike b b' (lit w k (w0 ++ b) a cs) (lit w k' (w0 ++ b') a cs).
Proof.
  intros Hk. induction w as [|c w IH]; intros w0 a cs; cbn [lit].
  - apply Hk.
  - destruct a as [|x a]; [exact I|].
    destruct (Ascii.eqb x c); [|exact I].
    apply (IH (x :: w0)).
Qed.

Lemma rep_alike (b b' : text) (g : bool) (p : ascii -> bool) (k k' : cont)
    (a : text) :
  alike_cont b b' k k' ->
  forall lo hi w0 cs,
    alike b b' (rep g p k a lo hi (w0 ++ b) cs)
      (rep g p k' a lo hi (w0 ++ b') cs).
Proof.
  intros Hk.
  assert (Hh : forall a lo w0 cs,
             alike b b' (halt k lo (w0 ++ b) a cs)
               (halt k' lo (w0 ++ b') a cs)).
  { intros a0 lo w0 cs. destruct lo; [apply Hk|exact I]. }
  induction a as [|x a IH]; intros lo hi w0 cs; cbn [rep]; [apply Hh|].
  pose proof (IH (pred lo) (option_map pred hi) (x :: w0) cs) as Hi.
  pose proof (Hh (x :: a) lo w0 cs) as Hs.
  cbn [app] in Hi.
  destruct g.
  - destruct (p x && more hi).
    + destruct (rep true p k a (pred lo) (option_map pred hi)
                  (x :: w0 ++ b) cs) as [[? [? ?]]|],
        (rep true p k' a (pred lo) (option_map pred hi)
           (x :: w0 ++ b') cs) as [[? [? ?]]|];
        first [exact Hi|exact Hs|now destruct Hi].
    + exact Hs.
  - destruct (halt k lo (w0 ++ b) (x :: a) cs) as [[? [? ?]]|],
      (halt k' lo (w0 ++ b') (x :: a) cs) as [[? [? ?]]|];
      try exact Hs; try (now destruct Hs).
    destruct (p x && more hi); [exact Hi|exact I].
Qed.

Lemma run_alike (b b' : text) (r : regex) :
  unanchored r = true ->
  forall k k' w0 a cs,
    alike_cont b b' k k' ->
    alike b b' (run r k (w0 ++ b, a) cs) (run r k' (w0 ++ b', a) cs).
Proof.
  induction r as [w|f|g lo hi f|r IH|i r IH|r1 IH1 r2 IH2| |];
    intros Hu k k' w0 a cs Hk; cbn [run fst snd].
  - now apply lit_alike.
  - destruct a as [|x a]; [exact I|].
    destruct (f x); [apply (Hk (x :: w0))|exact I].
  - now apply rep_alike.
  - cbn [unanchored] in Hu.
    pose proof (IH Hu k k' w0 a cs Hk) as Hi.
    pose proof (Hk w0 a cs) as Hs.
    destruct (run r k (w0 ++ b, a) cs) as [[? [? ?]]|],
      (run r k' (w0 ++ b', a) cs) as [[? [? ?]]|];
      first [exact Hi|exact Hs|now destruct Hi].
  - cbn [unanchored] in Hu. apply (IH Hu).
    intros w a' cs'. rewrite (passed_shift w0 w b b' a a'). apply Hk.
  - cbn [unanchored] in Hu. apply andb_true_iff in Hu as [Hu1 Hu2].
    apply (IH1 Hu1). intros w a' cs'. now apply (IH2 Hu2).
  - discriminate.
  - unfold at_eol. cbn [snd].
    destruct a as [|x a]; [apply Hk|].
    destruct (is_lt x); [apply Hk|exact I].
Qed.

Lemma exec_alike (b b' : text) (r : regex) (w0 a : text) :
  unanchored r = true ->
  alike b b' (exec r (w0 ++ b, a)) (exec r (w0 ++ b', a)).
Proof.
  intros Hu. unfold exec. apply run_alike; [exact Hu|].
  intros w a' cs. unfold accept. repeat split. now exists w.
Qed.

(** What [replace] writes from a position on does not depend on what lies
    behind it, when the expression has no line-start anchor. *)
Lemma replace_go_shift (r : regex) (f : text -> caps -> text) (b b' : text) :
  unanchored r = true ->
  forall a n w,
    replace_go r f n (w ++ b) a = replace_go r f n (w ++ b') a.
Proof.
  intros Hu. induction a as [|x a IH]; intros n w.
  - destruct n; [|reflexivity]. rewrite !replace_go_nil.
    pose proof (@exec_alike b b' r w [] Hu) as H.
    destruct (exec r (w ++ b, [])) as [[cs [p a1]]|],
      (exec r (w ++ b', [])) as [[cs' [p' a1']]|]; try (now destruct H).
    destruct H as (<- & <- & w1 & -> & ->).
    now rewrite (passed_shift w w1 b b' [] a1).
  - destruct n as [|n].
    + rewrite !replace_go_cons.
      pose proof (@exec_alike b b' r w (x :: a) Hu) as H.
      destruct (exec r (w ++ b, x :: a)) as [[cs [p a1]]|],
        (exec r (w ++ b', x :: a)) as [[cs' [p' a1']]|];
        try (now destruct H).
      * destruct H as (<- & <- & w1 & -> & ->).
        rewrite (passed_shift w w1 b b' (x :: a) a1). f_equal.
        cbn [fst]. rewrite !length_app.
        replace (length w1 + length b - (length w + length b))
          with (length w1 - length w) by lia.
        replace (length w1 + length b' - (length w + length b'))
          with (length w1 - length w) by lia.
        destruct (length w1 - length w) as [|m].
        -- f_equal. apply (IH 0 (x :: w)).
        -- apply (IH m (x :: w)).
      * f_equal. apply (IH 0 (x :: w)).
    + apply (IH n (x :: w)).
Qed.

Lemma replace_go_behind (r : regex) (f : text -> caps -> text) (b a : text) :
  unanchored r = true -> replace_go r f 0 b a = replace r f a.
Proof.
  intros Hu. unfold replace.
  pose proof (@replace_go_shift r f b [] Hu a 0 []) as H.
  exact H.
Qed.

(* ================================================================= *)
(** ** Spans: inline code and emphasis *)

Lemma free_of_Forall (c : ascii) (s : text) :
  free_of c s = true -> Forall (fun x => x <> c) s.
Proof.
  unfold free_of. rewrite forallb_forall, Forall_forall.
  intros H x Hx E. specialize (H x Hx). unfold isnt in H.
  subst x. now rewrite Ascii.eqb_refl in H.
Qed.

Lemma free_of_app (c : ascii) (s t : text) :
  free_of c (s ++ t) = free_of c s && free_of c t.
Proof. apply forallb_app. Qed.

Lemma exec_span (mark : text) (c : ascii) (body rest b : text) :
  startsWith [c] mark = true ->
  body <> [] ->
  free_of c body = true ->
  exec (re_span mark c) (b, mark ++ body ++ mark ++ rest)
  = Some ([(1, body)], (rev (mark ++ body ++ mark) ++ b, rest)).
Proof.
  intros Hm Hb Hf. unfold exec, re_span.
  change (run (?r1 ;; ?r2) ?k) with (run r1 (run r2 k)).
  rewrite run_lit_app.
  change (run (?r1 ;; ?r2) ?k) with (run r1 (run r2 k)).
  cbn [run fst snd plus].
  apply rep_greedy_all.
  - unfold free_of in Hf. rewrite forallb_forall in Hf.
    now apply Forall_forall.
  - destruct (startsWith_split _ _ Hm) as (m' & ->). cbn [app].
    unfold isnt. now rewrite Ascii.eqb_refl.
  - exact I.
  - destruct body; [now destruct Hb|simpl; lia].
  - pose proof (run_lit_app mark accept (rev body ++ rev mark ++ b) rest) as E.
    cbn [run fst snd] in E. rewrite E. unfold accept.
    rewrite passed_app, !rev_app_distr, <- !app_assoc. reflexivity.
Qed.

Lemma exec_span_none (mark : text) (c x : ascii) (a b : text) :
  startsWith [c] mark = true ->
  x <> c ->
  exec (re_span mark c) (b, x :: a) = None.
Proof.
  intros Hm Hx. destruct (startsWith_split _ _ Hm) as (m' & ->).
  unfold exec, re_span. cbn [run fst snd app lit].
  apply Ascii.eqb_neq in Hx. now rewrite Hx.
Qed.

(** The first span of a marker: what stands before it is kept, the span
    is replaced, and the rest is rewritten as if it stood alone. *)
Lemma replace_span (mark : text) (c : ascii) (f : text -> caps -> text)
    (pre body post : text) :
  startsWith [c] mark = true ->
  free_of c pre = true ->
  body <> [] ->
  free_of c body = true ->
  replace (re_span mark c) f (pre ++ mark ++ body ++ mark ++ post)
  = pre ++ f (mark ++ body ++ mark) [(1, body)]
      ++ replace (re_span mark c) f post.
Proof.
  intros Hm Hp Hb Hf. unfold replace at 1.
  rewrite replace_go_app_nomatch.
  - f_equal.
    replace (mark ++ body ++ mark ++ post)
      with ((mark ++ body ++ mark) ++ post)
      by now rewrite <- !app_assoc.
    rewrite (@replace_go_match (re_span mark c) f (rev pre ++ [])
               (mark ++ body ++ mark) post [(1, body)]).
    + f_equal. now apply replace_go_behind.
    + destruct (startsWith_split _ _ Hm) as (m' & ->). discriminate.
    + rewrite <- !app_assoc. now apply exec_span.
  - intros w1 x w2 E. apply exec_span_none; [exact Hm|].
    apply free_of_Forall in Hp. rewrite E in Hp.
    apply Forall_app in Hp as [_ Hp]. now inversion Hp.
Qed.

Lemma replace_span_absent (mark : text) (c : ascii)
    (f : text -> caps -> text) (s : text) :
  startsWith [c] mark = true ->
  free_of c s = true ->
  replace (re_span mark c) f s = s.
Proof.
  intros Hm Hs. apply replace_must with (P := fun x => x = c).
  - destruct (startsWith_split _ _ Hm) as (m' & ->).
    apply must_seq_l, must_lit. now constructor.
  - apply free_of_Forall in Hs. exact Hs.
Qed.

(** X9: inline code, span by span.  Up to its first span (a backtick, a
    non-empty run without backticks, a backtick) the text is kept, the
    span becomes a [code] element that holds its body as it is written,
    not escaped, and what follows is rewritten in the same way; a text
    without a backtick is left as it is. *)
Theorem parseInlineCode_spans (pre body post : text) :
  free_of bt pre = true ->
  body <> [] ->
  free_of bt body = true ->
  parseInlineCode (pre ++ [bt] ++ body ++ [bt] ++ post)
  = pre ++ element (txt "code") body ++ parseInlineCode post
  /\ parseInlineCode pre = pre.
Proof.
  intros Hp Hb Hf. unfold parseInlineCode.
  change re_inline_code with (re_span [bt] bt). split.
  - rewrite replace_span by (assumption || reflexivity).
    unfold group, element. cbn [cap Nat.eqb]. now rewrite <- !app_assoc.
  - now apply replace_span_absent.
Qed.

Lemma parseInlineCode_spans_witness :
  parseInlineCode (txt "see `a<b` and `c`")
  = txt "see " ++ element (txt "code") (txt "a<b")
      ++ parseInlineCode (txt " and `c`").
Proof.
  refine (proj1 (@parseInlineCode_spans (txt "see ") (txt "a<b")
                   (txt " and `c`") _ _ _)).
  - reflexivity.
  - discriminate.
  - reflexivity.
Defined.

Lemma exec_double_none (c : ascii) (a b : text) :
  startsWith [c; c] a = false ->
  exec (re_span [c; c] c) (b, a) = None.
Proof.
  intros H. unfold exec, re_span. cbn [run fst snd lit].
  destruct a as [|x a]; [reflexivity|].
  cbn [startsWith] in H. rewrite (Ascii.eqb_sym x c).
  destruct (Ascii.eqb c x); [|reflexivity].
  destruct a as [|y a]; [reflexivity|].
  rewrite (Ascii.eqb_sym y c).
  destruct (Ascii.eqb c y); [discriminate|reflexivity].
Qed.

Lemma replace_double_absent (c : ascii) (f : text -> caps -> text) (s : text) :
  includes [c; c] s = false ->
  replace (re_span [c; c] c) f s = s.
Proof.
  intros H. apply replace_go_nomatch. intros b' a' E. cbn [rev app] in E.
  apply exec_double_none. rewrite <- E in H. apply includes_suffix in H.
  destruct a' as [|x a']; [reflexivity|].
  cbn [includes] in H. now apply orb_false_iff in H as [H _].
Qed.

Lemma includes_free (c : ascii) (w s : text) :
  free_of c s = true -> includes (c :: w) s = false.
Proof.
  induction s as [|x s IH]; [reflexivity|].
  unfold free_of. cbn [forallb]. intros H.
  apply andb_true_iff in H as [Hx Hs].
  cbn [includes startsWith]. rewrite (IH Hs), orb_false_r.
  unfold isnt in Hx. rewrite Ascii.eqb_sym.
  now destruct (Ascii.eqb x c).
Qed.

Lemma includes_skip (c : ascii) (w pre s : text) :
  free_of c pre = true ->
  includes (c :: w) (pre ++ s) = includes (c :: w) s.
Proof.
  induction pre as [|x pre IH]; [reflexivity|].
  unfold free_of. cbn [forallb]. intros H.
  apply andb_true_iff in H as [Hx Hs].
  cbn [app includes startsWith]. rewrite (IH Hs).
  unfold isnt in Hx. rewrite (Ascii.eqb_sym c x).
  now destruct (Ascii.eqb x c).
Qed.

Lemma startsWith_free (c : ascii) (w s r : text) :
  free_of c s = true ->
  startsWith (c :: w) (s ++ c :: r) = false \/ s = [].
Proof.
  intros H. destruct s as [|x s]; [now right|left].
  unfold free_of in H. cbn [forallb] in H.
  apply andb_true_iff in H as [Hx _].
  cbn [app startsWith]. unfold isnt in Hx. rewrite (Ascii.eqb_sym c x).
  now destruct (Ascii.eqb x c).
Qed.

Lemma includes_one_span (c : ascii) (pre body post : text) :
  free_of c pre = true ->
  body <> [] ->
  free_of c body = true ->
  free_of c post = true ->
  includes [c; c] (pre ++ [c] ++ body ++ [c] ++ post) = false.
Proof.
  intros Hp Hb Hf Hq. rewrite (@includes_skip c [c] pre _ Hp).
  cbn [app includes]. rewrite (@includes_skip c [c] body _ Hf).
  cbn [includes]. rewrite (@includes_free c [c] post Hq), !orb_false_r.
  apply orb_false_iff. split.
  - cbn [startsWith]. rewrite Ascii.eqb_refl. cbn [andb].
    destruct (@startsWith_free c [] body post Hf) as [E|E];
      [exact E|now destruct Hb].
  - cbn [startsWith]. rewrite Ascii.eqb_refl. cbn [andb].
    destruct post as [|y post]; [reflexivity|].
    unfold free_of in Hq. cbn [forallb] in Hq.
    apply andb_true_iff in Hq as [Hy _]. unfold isnt in Hy.
    cbn [startsWith]. rewrite (Ascii.eqb_sym c y).
    now destruct (Ascii.eqb y c).
Qed.

Lemma free_of_span (c : ascii) (mark pre body post : text) :
  free_of c mark = true ->
  free_of c pre = true ->
  free_of c body = true ->
  free_of c post = true ->
  free_of c (pre ++ mark ++ body ++ mark ++ post) = true.
Proof.
  intros Hm Hp Hf Hq. rewrite !free_of_app, Hm, Hp, Hf, Hq. reflexivity.
Qed.

Lemma free_of_element (c : ascii) (tag pre body post : text) :
  free_of c (txt "</>") = true ->
  free_of c tag = true ->
  free_of c pre = true ->
  free_of c body = true ->
  free_of c post = true ->
  free_of c (pre ++ element tag body ++ post) = true.
Proof.
  intros Hc Ht Hp Hf Hq. unfold element.
  unfold free_of in Hc. cbn [txt list_ascii_of_string forallb] in Hc.
  apply andb_true_iff in Hc as [H1 Hc].
  apply andb_true_iff in Hc as [H2 Hc].
  apply andb_true_iff in Hc as [H3 _].
  rewrite !free_of_app, Ht, Hp, Hf, Hq.
  unfold free_of. cbn [txt list_ascii_of_string forallb].
  rewrite H1, H2, H3. reflexivity.
Qed.

Ltac still m c :=
  match goal with
  | |- context [replace (re_span m c) _ (?p ++ element ?t ?b ++ ?q)] =>
      rewrite (@replace_span_absent m c _ (p ++ element t b ++ q) eq_refl)
        by (apply free_of_element; (reflexivity || assumption))
  end.

(** X10: emphasis, one span.  In a text that holds one span of a marker
    of [parseEmphasis] and otherwise none of the characters [*], [_] and
    [~], the span becomes the element of its marker ([strong] for two
    asterisks or two underscores, [em] for one, [del] for two tildes), and
    the text around it is kept, also when it touches letters. *)
Theorem parseEmphasis_one_span (mark tag pre body post : text) :
  In (mark, tag) emphasis_marks ->
  unmarked pre = true ->
  body <> [] ->
  unmarked body = true ->
  unmarked post = true ->
  parseEmphasis (pre ++ mark ++ body ++ mark ++ post)
  = pre ++ element tag body ++ post.
Proof.
  intros Hin Hp Hb Hf Hq. unfold unmarked in Hp, Hf, Hq.
  apply andb_true_iff in Hp as [Hp Hp3]. apply andb_true_iff in Hp as [Hp1 Hp2].
  apply andb_true_iff in Hf as [Hf Hf3]. apply andb_true_iff in Hf as [Hf1 Hf2].
  apply andb_true_iff in Hq as [Hq Hq3]. apply andb_true_iff in Hq as [Hq1 Hq2].
  unfold parseEmphasis. cbv zeta.
  cbn [emphasis_marks In] in Hin.
  destruct Hin as [E|[E|[E|[E|[E|[]]]]]]; injection E as <- <-.
  - rewrite (@replace_span (txt "**") "*" _ pre body post eq_refl Hp1 Hb Hf1).
    rewrite (@replace_span_absent (txt "**") "*" _ post eq_refl Hq1).
    change (wrap_span (txt "strong") (txt "**" ++ body ++ txt "**")
              [(1, body)]) with (element (txt "strong") body).
    still (txt "__") "_"%char. still (txt "*") "*"%char.
    still (txt "_") "_"%char. still (txt "~~") "~"%char. reflexivity.
  - rewrite (@replace_span_absent (txt "**") "*" _
               (pre ++ txt "__" ++ body ++ txt "__" ++ post) eq_refl)
      by now apply free_of_span.
    rewrite (@replace_span (txt "__") "_" _ pre body post eq_refl Hp2 Hb Hf2).
    rewrite (@replace_span_absent (txt "__") "_" _ post eq_refl Hq2).
    change (wrap_span (txt "strong") (txt "__" ++ body ++ txt "__")
              [(1, body)]) with (element (txt "strong") body).
    still (txt "*") "*"%char.
    still (txt "_") "_"%char. still (txt "~~") "~"%char. reflexivity.
  - rewrite (@replace_double_absent "*" _
               (pre ++ txt "*" ++ body ++ txt "*" ++ post))
      by now apply includes_one_span.
    rewrite (@replace_span_absent (txt "__") "_" _
               (pre ++ txt "*" ++ body ++ txt "*" ++ post) eq_refl)
      by now apply free_of_span.
    rewrite (@replace_span (txt "*") "*" _ pre body post eq_refl Hp1 Hb Hf1).
    rewrite (@replace_span_absent (txt "*") "*" _ post eq_refl Hq1).
    change (wrap_span (txt "em") (txt "*" ++ body ++ txt "*")
              [(1, body)]) with (element (txt "em") body).
    still (txt "_") "_"%char. still (txt "~~") "~"%char. reflexivity.
  - rewrite (@replace_span_absent (txt "**") "*" _
               (pre ++ txt "_" ++ body ++ txt "_" ++ post) eq_refl)
      by now apply free_of_span.
    rewrite (@replace_double_absent "_" _
               (pre ++ txt "_" ++ body ++ txt "_" ++ post))
      by now apply includes_one_span.
    rewrite (@replace_span_absent (txt "*") "*" _
               (pre ++ txt "_" ++ body ++ txt "_" ++ post) eq_refl)
      by now apply free_of_span.
    rewrite (@replace_span (txt "_") "_" _ pre body post eq_refl Hp2 Hb Hf2).
    rewrite (@replace_span_absent (txt "_") "_" _ post eq_refl Hq2).
    change (wrap_span (txt "em") (txt "_" ++ body ++ txt "_")
              [(1, body)]) with (element (txt "em") body).
    still (txt "~~") "~"%char. reflexivity.
  - rewrite (@replace_span_absent (txt "**") "*" _
               (pre ++ txt "~~" ++ body ++ txt "~~" ++ post) eq_refl)
      by now apply free_of_span.
    rewrite (@replace_span_absent (txt "__") "_" _
               (pre ++ txt "~~" ++ body ++ txt "~~" ++ post) eq_refl)
      by now apply free_of_span.
    rewrite (@replace_span_absent (txt "*") "*" _
               (pre ++ txt "~~" ++ body ++ txt "~~" ++ post) eq_refl)
      by now apply free_of_span.
    rewrite (@replace_span_absent (txt "_") "_" _
               (pre ++ txt "~~" ++ body ++ txt "~~" ++ post) eq_refl)
      by now apply free_of_span.
    rewrite (@replace_span (txt "~~") "~" _ pre body post eq_refl Hp3 Hb Hf3).
    rewrite (@replace_span_absent (txt "~~") "~" _ post eq_refl Hq3).
    reflexivity.
Qed.

Lemma parseEmphasis_one_span_witness :
  parseEmphasis (txt "snake_case_name") = txt "snake<em>case</em>name".
Proof.
  refine (@parseEmphasis_one_span (txt "_") (txt "em") (txt "snake")
            (txt "case") (txt "name") _ _ _ _ _).
  - vm_compute. tauto.
  - reflexivity.
  - discriminate.
  - reflexivity.
  - reflexivity.
Defined.

(* ================================================================= *)
(** ** One paragraph *)

Lemma exec_blank_two (b a : text) (o : outcome) :
  exec re_blank_lines (b, a) = Some o -> startsWith [nl; nl] a = true.
Proof.
  destruct o as [cs p']. intros E.
  destruct (exec_fits _ _ _ E) as (w & a' & -> & _ & F).
  unfold re_blank_lines in F. inv F.
  destruct w as [|x [|y w]]; try (simpl in *; lia).
  match goal with H : Forall _ _ |- _ =>
    inversion H as [|? ? Hx H']; subst; inversion H' as [|? ? Hy _]; subst
  end.
  cbn [app startsWith]. now rewrite Hx, Hy.
Qed.

Lemma includes_here (w x : text) :
  includes w x = false -> startsWith w x = false.
Proof.
  destruct x; cbn [includes]; intros H;
    now apply orb_false_iff in H as [H _].
Qed.

Lemma blank_fixed (s : text) :
  includes [nl; nl] s = false -> replace re_blank_lines two_nl s = s.
Proof.
  intros H. apply replace_go_nomatch. intros b' a' E. cbn [rev app] in E.
  destruct (exec re_blank_lines (b', a')) as [o|] eqn:Ex; [|reflexivity].
  apply exec_blank_two in Ex. rewrite <- E in H.
  apply includes_suffix, includes_here in H. congruence.
Qed.

Lemma split_whole (sep s : text) :
  includes sep s = false -> split sep s = [s].
Proof.
  intros H. unfold split.
  pose proof (@split_go_app_nomatch sep s []) as E.
  rewrite app_nil_r in E. rewrite E;
    [cbn [split_go]; now rewrite app_nil_r|].
  intros w1 x w2 ->. rewrite app_nil_r.
  now apply includes_suffix, includes_here in H.
Qed.

Lemma trimmed_paragraph (t : text) :
  trimmed (txt "<p>" ++ t ++ txt "</p>") = true.
Proof.
  unfold trimmed. rewrite !rev_app_distr. reflexivity.
Qed.

(** A text without a blank line and without a hard line break is one
    block for the last three steps of the pipeline. *)
Lemma assemble_one_block (s : text) :
  includes [nl; nl] s = false ->
  includes hard_break s = false ->
  trim s <> [] ->
  assemble s
  = if isBlockElement (trim s) then trim s
    else txt "<p>" ++ trim s ++ txt "</p>".
Proof.
  intros Hn Hh Ht. unfold assemble, parseLineBreaks.
  rewrite (@hard_fixed s Hh), (@blank_fixed s Hn).
  unfold parseParagraphs. rewrite (@split_whole [nl; nl] s Hn).
  cbn [flat_map]. rewrite app_nil_r. unfold paragraph.
  destruct (trim s) as [|c t] eqn:E; [now destruct Ht|].
  rewrite <- E.
  destruct (isBlockElement (trim s)); cbn [join].
  - apply trim_fixed, trim_trimmed.
  - apply trim_fixed, trimmed_paragraph.
Qed.



(* ================================================================= *)
(** ** Horizontal rules *)

Lemma free_of_repeat (x c : ascii) (n : nat) :
  x <> c -> free_of x (repeat c n) = true.
Proof.
  intros H. induction n as [|n IH]; [reflexivity|].
  unfold free_of in *. cbn [repeat forallb]. rewrite IH, andb_true_r.
  unfold isnt. apply negb_true_iff, Ascii.eqb_neq. congruence.
Qed.

Lemma Forall_repeat (c : ascii) (n : nat) :
  Forall (fun x => x = c) (repeat c n).
Proof. induction n; constructor; auto. Qed.

Lemma exec_rule (c : ascii) (n : nat) :
  exec (Bol ;; Lit [c; c] ;; plus (Ascii.eqb c) ;; Eol)%re
    ([], repeat c (3 + n))
  = Some ([], (rev (repeat c (3 + n)), [])).
Proof.
  unfold exec.
  change (repeat c (3 + n)) with ([c; c] ++ repeat c (S n)).
  change (run (?r1 ;; ?r2) ?k) with (run r1 (run r2 k)).
  change (run Bol ?k ?p ?cs) with (if at_bol p then k p cs else None).
  cbn [at_bol fst].
  change (run (?r1 ;; ?r2) ?k) with (run r1 (run r2 k)).
  rewrite run_lit_app.
  change (run (?r1 ;; ?r2) ?k) with (run r1 (run r2 k)).
  cbn [run fst snd plus].
  pose proof (@rep_greedy_all (Ascii.eqb c)
                (fun p cs => if at_eol p then accept p cs else None) []
                ([], (rev ([c; c] ++ repeat c (S n)), []))
                (repeat c (S n)) 1 None (rev [c; c] ++ []) []) as G.
  rewrite (app_nil_r (repeat c (S n))) in G. apply G.
  - apply Forall_forall. intros x Hx. apply repeat_spec in Hx. subst x.
    apply Ascii.eqb_refl.
  - exact I.
  - exact I.
  - cbn [repeat length]. lia.
  - cbn [at_eol snd]. unfold accept. now rewrite rev_app_distr, app_nil_r.
Qed.

Lemma replace_rule (c : ascii) (n : nat) :
  3 <= n ->
  replace (Bol ;; Lit [c; c] ;; plus (Ascii.eqb c) ;; Eol)%re hr (repeat c n)
  = txt "<hr>".
Proof.
  intros H. replace n with (3 + (n - 3)) by lia.
  rewrite (@replace_whole _ hr _ [] (exec_rule c (n - 3))); [reflexivity|].
  unfold exec. cbn [run fst snd lit]. now destruct (at_bol _).
Qed.

Lemma replace_other (c : ascii) (r : regex) (f : text -> caps -> text)
    (s : text) :
  must (fun x => x <> c) r ->
  Forall (fun x => x = c) s ->
  replace r f s = s.
Proof.
  intros Hm Hs. apply replace_must with (P := fun x => x <> c); [exact Hm|].
  revert Hs. apply Forall_impl. intros x -> H. now apply H.
Qed.

Ltac other_must :=
  first
    [ apply must_lit; apply Exists_cons_hd; discriminate
    | apply must_rep;
      [lia | intros x Hx E; subst x; vm_compute in Hx; discriminate]
    | apply must_grp; other_must
    | apply must_seq_l; other_must
    | apply must_seq_r; other_must ].

Ltac other_pass r :=
  match goal with
  | H : Forall (fun x => x = ?c) ?s |- _ =>
      rewrite (@replace_other c r _ s) by (exact H || (unfold r; other_must))
  end.

Ltac other_span m ch :=
  match goal with
  | H : Forall (fun x => x = ?c) ?s |- _ =>
      rewrite (@replace_other c (re_span m ch) _ s)
        by (exact H || (unfold re_span; other_must))
  end.

(** A text made of hyphens only, or of asterisks only, goes through the
    passes before [parseLineBreaks] as it is. *)
Lemma rule_pipeline (c : ascii) (s : text) :
  c = "-"%char \/ c = "*"%char ->
  Forall (fun x => x = c) s ->
  pipeline s = Some (assemble s).
Proof.
  intros Hc H.
  assert (Hw : wrapListItems s = Some s).
  { apply wrap_without_items, includes_free.
    unfold free_of. apply forallb_forall. intros x Hx.
    rewrite Forall_forall in H. rewrite (H x Hx).
    now destruct Hc as [-> | ->]. }
  unfold pipeline, parseCodeBlocks, parseInlineCode, parseHeaders,
    parseBlockquotes, parseLists, tag_list_lines, parseLinks, parseImages,
    parseEmphasis, assemble.
  cbv zeta.
  destruct Hc as [-> | ->].
  - other_pass re_fence_lang. other_pass re_fence.
    other_pass re_inline_code. other_pass re_header.
    other_pass re_blockquote. other_pass re_ul_item. other_pass re_ol_item.
    rewrite Hw.
    other_pass re_link_title. other_pass re_link. other_pass re_autolink.
    other_pass re_image_title. other_pass re_image.
    other_span (txt "**") "*"%char. other_span (txt "__") "_"%char.
    other_span (txt "*") "*"%char. other_span (txt "_") "_"%char.
    other_span (txt "~~") "~"%char.
    reflexivity.
  - other_pass re_fence_lang. other_pass re_fence.
    other_pass re_inline_code. other_pass re_header.
    other_pass re_blockquote. other_pass re_ul_item. other_pass re_ol_item.
    rewrite Hw.
    other_pass re_link_title. other_pass re_link. other_pass re_autolink.
    other_pass re_image_title. other_pass re_image.
    other_span (txt "**") "*"%char. other_span (txt "__") "_"%char.
    other_span (txt "*") "*"%char. other_span (txt "_") "_"%char.
    other_span (txt "~~") "~"%char.
    reflexivity.
Qed.

Lemma rule_paragraph (c : ascii) (n : nat) :
  c = "-"%char \/ c = "*"%char ->
  0 < n ->
  parseMarkdown (VString (repeat c n))
  = Some (txt "<p>" ++ repeat c n ++ txt "</p>").
Proof.
  intros Hc Hn.
  assert (Hs : forall x, is_space x = true \/ x = "<"%char -> x <> c).
  { intros x [Hx|Hx] ->; destruct Hc as [-> | ->]; discriminate. }
  assert (Ht : trim (repeat c n) = repeat c n).
  { apply trim_fixed. unfold trimmed. rewrite rev_repeat.
    destruct n as [|n]; [lia|]. cbn [repeat starts_clean].
    destruct (is_space c) eqn:E; [|reflexivity].
    now destruct (Hs c (or_introl E)). }
  destruct n as [|n]; [lia|].
  unfold parseMarkdown. cbn [repeat falsy is_string negb orb].
  change (c :: repeat c n) with (repeat c (S n)).
  rewrite (@rule_pipeline c (repeat c (S n)) Hc (Forall_repeat c (S n))).
  rewrite assemble_one_block.
  - rewrite Ht.
    destruct (isBlockElement (repeat c (S n))) eqn:E; [|reflexivity].
    apply isBlockElement_head in E. injection E as E.
    now destruct (Hs "<"%char (or_intror eq_refl)).
  - apply includes_free, free_of_repeat. apply Hs. now left.
  - apply includes_free, free_of_repeat. apply Hs. now left.
  - rewrite Ht. discriminate.
Qed.

(** X12: a line of three or more hyphens, or of three or more asterisks,
    is what [parseHorizontalRules] turns into [<hr>]; [parseMarkdown],
    which does not call that pass, makes a paragraph of it. *)
Theorem horizontal_rules_outside_pipeline (n : nat) :
  3 <= n ->
  parseHorizontalRules (repeat "-"%char n) = txt "<hr>"
  /\ parseHorizontalRules (repeat "*"%char n) = txt "<hr>"
  /\ parseMarkdown (VString (repeat "-"%char n))
     = Some (txt "<p>" ++ repeat "-"%char n ++ txt "</p>")
  /\ parseMarkdown (VString (repeat "*"%char n))
     = Some (txt "<p>" ++ repeat "*"%char n ++ txt "</p>").
Proof.
  intros H. unfold parseHorizontalRules. cbv zeta.
  split; [|split; [|split]].
  - change re_hr_dash
      with (Bol ;; Lit ["-"; "-"] ;; plus (Ascii.eqb "-") ;; Eol)%re%char.
    now rewrite (replace_rule "-" H).
  - rewrite (@replace_other "*" re_hr_dash hr (repeat "*"%char n))
      by (apply Forall_repeat || (unfold re_hr_dash; other_must)).
    change re_hr_star
      with (Bol ;; Lit ["*"; "*"] ;; plus (Ascii.eqb "*") ;; Eol)%re%char.
    apply (replace_rule "*" H).
  - apply rule_paragraph; [now left|lia].
  - apply rule_paragraph; [now right|lia].
Qed.

Lemma horizontal_rules_outside_pipeline_witness :
  parseHorizontalRules (txt "---") = txt "<hr>"
  /\ parseMarkdown (VString (txt "---")) = Some (txt "<p>---</p>").
Proof.
  pose proof (@horizontal_rules_outside_pipeline 3 ltac:(lia)) as H.
  split; [exact (proj1 H)|exact (proj1 (proj2 (proj2 H)))].
Defined.

(* ================================================================= *)
(** ** Headings *)

(** What a quantified class takes is within its upper bound. *)
Lemma rep_within (g : bool) (p : ascii -> bool) (k : cont) (a : text) :
  forall lo hi b cs o,
    rep g p k a lo hi b cs = Some o ->
    exists w a',
      a = w ++ a' /\ within hi (length w)
      /\ k (rev w ++ b, a') cs = Some o.
Proof.
  induction a as [|x a IH]; intros lo hi b cs o H.
  - simpl in H. unfold halt in H. destruct lo; [|discriminate].
    exists [], []. repeat split; auto. destruct hi; simpl; [lia|exact I].
  - assert (Hstop : halt k lo b (x :: a) cs = Some o ->
                    exists w a', x :: a = w ++ a'
                      /\ within hi (length w)
                      /\ k (rev w ++ b, a') cs = Some o).
    { unfold halt. destruct lo; [|discriminate]. intros Hk.
      exists [], (x :: a). repeat split; auto.
      destruct hi; simpl; [lia|exact I]. }
    assert (Hstep : (if p x && more hi
                     then rep g p k a (pred lo) (option_map pred hi) (x :: b) cs
                     else None) = Some o ->
                    exists w a', x :: a = w ++ a'
                      /\ within hi (length w)
                      /\ k (rev w ++ b, a') cs = Some o).
    { destruct (p x) eqn:Hp; [|discriminate].
      destruct (more hi) eqn:Hm; [|discriminate]. simpl. intros Hr.
      destruct (IH _ _ _ _ _ Hr) as (w & a' & -> & Hw & Hk).
      exists (x :: w), a'. repeat split.
      - destruct hi as [[|h]|]; simpl in *; try discriminate; try lia.
      - simpl. now rewrite <- app_assoc. }
    simpl in H. destruct g.
    + destruct (if p x && more hi
                then rep true p k a (pred lo) (option_map pred hi) (x :: b) cs
                else None) as [o'|] eqn:E.
      * injection H as <-. now apply Hstep.
      * now apply Hstop.
    + destruct (halt k lo b (x :: a) cs) as [o'|] eqn:E.
      * injection H as <-. now apply Hstop.
      * now apply Hstep.
Qed.

Lemma space_not_hash (x : ascii) : is_space x = true -> Ascii.eqb "#" x = false.
Proof.
  intros H. destruct (Ascii.eqb "#" x) eqn:E; [|reflexivity].
  apply Ascii.eqb_eq in E. subst x. discriminate.
Qed.

Lemma exec_header (n : nat) (sp content : text) :
  1 <= n <= 6 ->
  sp <> [] ->
  forallb is_space sp = true ->
  content <> [] ->
  starts_clean content = true ->
  forallb dot content = true ->
  exec re_header ([], repeat "#"%char n ++ sp ++ content)
  = Some ([(2, content); (1, repeat "#"%char n)],
          (rev (repeat "#"%char n ++ sp ++ content), [])).
Proof.
  intros Hn Hsp Hs Hc Hh Hd. unfold exec, re_header.
  rewrite forallb_forall in Hs, Hd.
  change (run (?r1 ;; ?r2) ?k) with (run r1 (run r2 k)).
  change (run Bol ?k ?p ?cs) with (if at_bol p then k p cs else None).
  cbn [at_bol fst].
  change (run (?r1 ;; ?r2) ?k) with (run r1 (run r2 k)).
  cbn [run fst snd].
  apply rep_greedy_all.
  - apply Forall_forall. intros x Hx. apply repeat_spec in Hx. now subst x.
  - destruct sp as [|x sp]; [now destruct Hsp|]. cbn [app].
    apply space_not_hash, Hs. now left.
  - cbn [within]. rewrite repeat_length. lia.
  - rewrite repeat_length. lia.
  - cbn beta. rewrite passed_app, app_nil_r. cbn [run fst snd plus].
    apply rep_greedy_all.
    + now apply Forall_forall.
    + destruct content as [|x content]; [now destruct Hc|].
      cbn [starts_clean] in Hh. now apply negb_true_iff in Hh.
    + exact I.
    + destruct sp; [now destruct Hsp|simpl; lia].
    + cbn beta. cbn [run fst snd plus].
      match goal with
      | |- rep true dot ?K content 1 None ?b ?cs = Some ?o =>
          pose proof (@rep_greedy_all dot K [] o content 1 None b cs) as G
      end.
      rewrite (app_nil_r content) in G. apply G.
      * now apply Forall_forall.
      * exact I.
      * exact I.
      * destruct content; [now destruct Hc|simpl; lia].
      * cbn beta. rewrite passed_app. cbn [at_eol snd]. unfold accept.
        now rewrite !rev_app_distr, <- !app_assoc.
Qed.

Lemma headers_level (n : nat) (sp content : text) :
  1 <= n <= 6 ->
  sp <> [] ->
  forallb is_space sp = true ->
  content <> [] ->
  starts_clean content = true ->
  forallb dot content = true ->
  parseHeaders (repeat "#"%char n ++ sp ++ content)
  = txt "<h" ++ dec n ++ txt " id=" ++ q ++ generateHeaderId content ++ q
      ++ txt ">" ++ trim content ++ txt "</h" ++ dec n ++ txt ">".
Proof.
  intros Hn Hsp Hs Hc Hh Hd. unfold parseHeaders.
  rewrite (@replace_whole re_header _ _ _
             (exec_header Hn Hsp Hs Hc Hh Hd)).
  - unfold group. cbn [cap Nat.eqb]. now rewrite repeat_length.
  - unfold exec, re_header. cbn [run fst snd rep halt].
    now destruct (at_bol _).
Qed.

(** X13: a text made of one to six hashes, white space and a content
    without line terminator is a heading of the level given by the number
    of hashes: its id is [generateHeaderId] of the content and it holds
    the trimmed content.  The white space may hold line feeds, so hashes
    alone on a line make a heading of the next line. *)
Theorem parseHeaders_levels (n : nat) (sp content : text) :
  1 <= n <= 6 ->
  sp <> [] ->
  forallb is_space sp = true ->
  content <> [] ->
  starts_clean content = true ->
  forallb dot content = true ->
  parseHeaders (repeat "#"%char n ++ sp ++ content)
  = txt "<h" ++ dec n ++ txt " id=" ++ q ++ generateHeaderId content ++ q
      ++ txt ">" ++ trim content ++ txt "</h" ++ dec n ++ txt ">".
Proof. exact (@headers_level n sp content). Qed.

Lemma parseHeaders_levels_witness :
  parseHeaders (txt "##" ++ [nl] ++ txt "Next line")
  = txt "<h2 id=" ++ q ++ txt "next-line" ++ q ++ txt ">Next line</h2>".
Proof.
  refine (@parseHeaders_levels 2 [nl] (txt "Next line") _ _ _ _ _ _).
  - lia.
  - discriminate.
  - reflexivity.
  - discriminate.
  - reflexivity.
  - reflexivity.
Defined.

Lemma repeat_cut (c : ascii) (w : text) :
  forall n rest a,
    repeat c n ++ rest = w ++ a -> length w < n -> exists a', a = c :: a'.
Proof.
  induction w as [|x w IH]; intros n rest a E H.
  - destruct n as [|n]; [simpl in H; lia|]. cbn [repeat app] in E.
    now exists (repeat c n ++ rest).
  - destruct n as [|n]; [simpl in H; lia|]. cbn [repeat app] in E.
    injection E as _ E. apply (IH n rest a E). simpl in H. lia.
Qed.

(** X14: seven or more hashes do not make a heading: a text that starts
    with them and has no line terminator is left as it is. *)
Theorem parseHeaders_seven_hashes (n : nat) (rest : text) :
  7 <= n ->
  forallb dot rest = true ->
  parseHeaders (repeat "#"%char n ++ rest) = repeat "#"%char n ++ rest.
Proof.
  intros Hn Hd. unfold parseHeaders.
  apply replace_go_nomatch. intros b' a' E. cbn [rev app] in E.
  unfold exec, re_header.
  change (run (Bol ;; ?r) ?k ?p ?cs)
    with (if at_bol p then run r k p cs else None).
  destruct b' as [|x b'].
  - cbn [rev app] in E. subst a'. cbn [at_bol fst].
    change (run (?r1 ;; ?r2) ?k) with (run r1 (run r2 k)).
    cbn [run fst snd].
    match goal with |- ?t = None => destruct t as [o|] eqn:Ex end;
      [|reflexivity].
    apply rep_within in Ex. destruct Ex as (w & a & Ea & Hw & Hk).
    cbn [within] in Hw.
    destruct (@repeat_cut "#" w n rest a Ea ltac:(lia)) as (a' & ->).
    cbn beta in Hk. cbn [run fst snd plus] in Hk.
    rewrite rep_owed_none in Hk by reflexivity.
    discriminate.
  - assert (Hx : is_lt x = false).
    { assert (Hin : In x (repeat "#"%char n ++ rest)).
      { rewrite <- E. apply in_or_app. left. apply in_rev.
        rewrite rev_involutive. now left. }
      apply in_app_or in Hin as [Hin|Hin].
      - apply repeat_spec in Hin. now subst x.
      - rewrite forallb_forall in Hd. specialize (Hd x Hin).
        now apply negb_true_iff in Hd. }
    unfold at_bol. cbn [fst]. now rewrite Hx.
Qed.

Lemma parseHeaders_seven_hashes_witness :
  parseHeaders (txt "####### Seven") = txt "####### Seven".
Proof.
  refine (@parseHeaders_seven_hashes 7 (txt " Seven") _ _).
  - lia.
  - reflexivity.
Defined.

(* ================================================================= *)
(** ** Quote lines *)

Lemma line_content_parts (c : text) :
  line_content c = true ->
  c <> []
  /\ match c with [] => True | x :: _ => is_space x = false end
  /\ Forall (fun x => dot x = true) c.
Proof.
  unfold line_content. intros H. apply andb_true_iff in H as [H1 H2].
  rewrite forallb_forall in H2. repeat split.
  - now destruct c.
  - destruct c; [exact I|]. now apply negb_true_iff in H1.
  - now apply Forall_forall.
Qed.







(* ================================================================= *)
(** ** The contact form *)

Lemma test_whole_fits (r : regex) (s : text) :
  test_whole r s = true -> fits r [] s [].
Proof.
  unfold test_whole.
  destruct (run r at_end ([], s) []) as [o|] eqn:E; [|discriminate].
  intros _. destruct (run_fits _ _ _ _ _ E) as (w & a' & cs' & -> & F & K).
  unfold at_end in K. cbn [snd] in K.
  destruct a'; [|discriminate]. now rewrite app_nil_r.
Qed.

Lemma fits_test_whole (r : regex) (s : text) :
  unbounded r = true -> fits r [] s [] -> test_whole r s = true.
Proof.
  intros Hu F. unfold test_whole.
  pose proof (@run_complete r [] s [] F Hu at_end) as H.
  rewrite (app_nil_r s) in H.
  destruct (run r at_end ([], s) []) as [o|] eqn:E; [reflexivity|].
  exfalso. apply (H (fun cs => ltac:(discriminate)) [] E).
Qed.

Lemma nonempty_length (w : text) : w <> [] <-> 1 <= length w.
Proof.
  destruct w; simpl; split; intros H; try lia; try discriminate.
  now destruct H.
Qed.

Lemma Forall_forallb (f : ascii -> bool) (w : text) :
  Forall (fun x => f x = true) w -> forallb f w = true.
Proof. intros H. apply forallb_forall. now apply Forall_forall. Qed.

Lemma email_fits (s : text) : fits emailRegex [] s [] <-> address s.
Proof.
  unfold emailRegex, address, plus. split.
  - intros F. inv F.
    repeat match goal with
           | H : fits (Seq _ _) _ _ _ |- _ => inv H
           | H : fits (Lit _) _ _ _ |- _ => inv H
           | H : fits (Rep _ _ _ _) _ _ _ |- _ => inv H
           end.
    match goal with
    | |- exists l d t, ?l0 ++ _ ++ ?d0 ++ _ ++ ?t0 = _ /\ _ =>
        exists l0, d0, t0
    end.
    repeat split; try (now apply nonempty_length).
    rewrite !forallb_app, !Forall_forallb by assumption.
    reflexivity.
  - intros (l & d & t & -> & Hl & Hd & Ht & H).
    rewrite !forallb_app in H.
    apply andb_true_iff in H as [H1 H]. apply andb_true_iff in H as [H2 H3].
    rewrite forallb_forall in H1, H2, H3.
    apply nonempty_length in Hl, Hd, Ht.
    repeat first
      [ apply fits_seq
      | apply fits_lit
      | apply fits_rep; [now apply Forall_forall|assumption] ].
Qed.

(** The address test accepts exactly the addresses. *)
Lemma valid_email_address (v : option text) :
  valid_email v = true <-> exists s, v = Some s /\ address s.
Proof.
  unfold valid_email. split.
  - destruct v as [s|]; [|discriminate]. intros H.
    exists s. split; [reflexivity|].
    now apply email_fits, test_whole_fits.
  - intros (s & -> & H). apply fits_test_whole; [reflexivity|].
    now apply email_fits.
Qed.

Lemma field_check (v : option text) (k : nat) :
  1 <= k ->
  missing v || Nat.ltb (trimmed_length v) k = false
  <-> k <= trimmed_length v.
Proof.
  intros Hk. rewrite orb_false_iff, Nat.ltb_ge. split; [tauto|].
  intros H. split; [|exact H].
  destruct v as [[|c s]|]; simpl in H; try lia. reflexivity.
Qed.

Lemma email_check (v : option text) :
  missing v || negb (valid_email v) = false
  <-> exists e, v = Some e /\ address e.
Proof.
  rewrite orb_false_iff, negb_false_iff, <- valid_email_address.
  split; [tauto|]. intros H. split; [|exact H].
  destruct v as [[|c s]|]; try reflexivity; discriminate.
Qed.

(** X16: the contact form is accepted, and no notification is shown,
    exactly when the trimmed name has at least 2 characters, the trimmed
    subject at least 5, the trimmed message at least 10, and the e-mail
    value, taken as it is and not trimmed, is made of three non-empty
    parts without white space and without at-sign, with an at-sign after
    the first part and a full stop before the last. *)
Theorem validateContactForm_accepts (data : formValues) :
  validateContactForm data = (true, None)
  <-> (2 <= trimmed_length (name data)
       /\ (exists e, email data = Some e /\ address e)
       /\ 5 <= trimmed_length (subject data)
       /\ 10 <= trimmed_length (message data)).
Proof.
  rewrite <- (@field_check (name data) 2), <- email_check,
    <- (@field_check (subject data) 5), <- (@field_check (message data) 10)
    by lia.
  unfold validateContactForm, form_errors.
  destruct (missing (name data) || Nat.ltb (trimmed_length (name data)) 2),
    (missing (email data) || negb (valid_email (email data))),
    (missing (subject data) || Nat.ltb (trimmed_length (subject data)) 5),
    (missing (message data) || Nat.ltb (trimmed_length (message data)) 10);
    cbn [app length Nat.ltb Nat.leb]; split;
    solve [discriminate | tauto | intros (? & ? & ? & ?); discriminate].
Qed.

Lemma validateContactForm_accepts_witness :
  validateContactForm
    (FormValues (Some (txt "Jo")) (Some (txt "jo@site.example"))
       (Some (txt "Hello")) (Some (txt "A first note.")))
  = (true, None).
Proof.
  apply validateContactForm_accepts. cbn [name email subject message].
  split; [simpl; lia|]. split; [|split; simpl; lia].
  exists (txt "jo@site.example"). split; [reflexivity|].
  exists (txt "jo"), (txt "site"), (txt "example").
  repeat split; discriminate.
Defined.

(* ================================================================= *)
(** ** Tables *)

Lemma tables_loop_no_row (ls : list text) :
  Forall (fun l => is_row (trim l) = false) ls ->
  tables_loop ls false [] = map trim ls.
Proof.
  induction 1 as [|l ls Hl Hls IH]; [reflexivity|].
  cbn [tables_loop map]. rewrite Hl. cbn [app]. now rewrite IH.
Qed.

Lemma is_row_bar (l : text) :
  Forall (fun x => x <> "|"%char) l -> is_row l = false.
Proof.
  intros H. unfold is_row. destruct l as [|x l]; [reflexivity|].
  inversion H as [|? ? Hx _]; subst. cbn [txt list_ascii_of_string startsWith].
  rewrite Ascii.eqb_sym. apply Ascii.eqb_neq in Hx. now rewrite Hx.
Qed.

(** X17: on a text without a bar [parseTables] makes no table, but it
    does not give the text back: every line comes out trimmed, so the
    white space in front of a line is lost. *)
Theorem parseTables_trims_lines (s : text) :
  free_of "|" s = true ->
  parseTables s = join [nl] (map trim (split [nl] s)).
Proof.
  intros H. unfold parseTables. rewrite tables_loop_no_row; [reflexivity|].
  apply free_of_Forall in H.
  apply (Forall_split_go [nl]) with (k := 0) in H. fold (split [nl] s) in H.
  revert H. apply Forall_impl. intros l Hl.
  now apply is_row_bar, Forall_trim.
Qed.

Lemma parseTables_trims_lines_witness :
  parseTables (lines ["Code:"; "    indented"]%string)
  = lines ["Code:"; "indented"]%string.
Proof.
  apply (@parseTables_trims_lines (lines ["Code:"; "    indented"]%string)).
  reflexivity.
Defined.

Lemma split_char (c : ascii) (w rest : text) :
  free_of c w = true -> split [c] (w ++ c :: rest) = w :: split [c] rest.
Proof.
  intros H. unfold split. rewrite split_go_app_nomatch.
  - cbn [split_go startsWith length Nat.sub]. rewrite Ascii.eqb_refl.
    cbn [andb]. now rewrite app_nil_r.
  - intros w1 x w2 E. apply free_of_Forall in H. rewrite E in H.
    apply Forall_app in H as [_ H]. inversion H as [|? ? Hx _]; subst.
    cbn [app startsWith]. rewrite Ascii.eqb_sym.
    apply Ascii.eqb_neq in Hx. now rewrite Hx.
Qed.

Lemma split_char_last (c : ascii) (w : text) :
  free_of c w = true -> split [c] w = [w].
Proof. intros H. now apply split_whole, includes_free. Qed.

Lemma split_char_join (c : ascii) (ls : list text) :
  ls <> [] ->
  forallb (free_of c) ls = true ->
  split [c] (join [c] ls) = ls.
Proof.
  induction ls as [|l ls IH]; intros Hn H; [now destruct Hn|].
  cbn [forallb] in H. apply andb_true_iff in H as [Hl Hls].
  destruct ls as [|l' ls].
  - cbn [join]. now apply split_char_last.
  - change (join [c] (l :: l' :: ls)) with (l ++ c :: join [c] (l' :: ls)).
    rewrite (@split_char c l _ Hl), IH; [reflexivity|discriminate|exact Hls].
Qed.

Lemma free_of_join (c : ascii) (sep : text) (ls : list text) :
  free_of c sep = true ->
  forallb (free_of c) ls = true ->
  free_of c (join sep ls) = true.
Proof.
  intros Hs. induction ls as [|l ls IH]; intros H; [reflexivity|].
  cbn [forallb] in H. apply andb_true_iff in H as [Hl Hls].
  destruct ls as [|l' ls]; [exact Hl|].
  change (join sep (l :: l' :: ls)) with (l ++ sep ++ join sep (l' :: ls)).
  now rewrite !free_of_app, Hl, Hs, IH.
Qed.

Lemma In_join (x : ascii) (sep l : text) (ls : list text) :
  In l ls -> In x l -> In x (join sep ls).
Proof.
  induction ls as [|l0 ls IH]; intros Hl Hx; [now destruct Hl|].
  destruct ls as [|l1 ls].
  - destruct Hl as [->|[]]. exact Hx.
  - change (join sep (l0 :: l1 :: ls)) with (l0 ++ sep ++ join sep (l1 :: ls)).
    destruct Hl as [->|Hl].
    + apply in_or_app. now left.
    + apply in_or_app. right. apply in_or_app. right. now apply IH.
Qed.

Lemma trim_pad (c : text) : trimmed c = true -> trim (pad c) = c.
Proof.
  intros H. pose proof (trim_fixed c H) as Hf.
  destruct c as [|x c]; [reflexivity|].
  unfold trimmed in H. apply andb_true_iff in H as [Hx _].
  cbn [starts_clean] in Hx. apply negb_true_iff in Hx.
  unfold trim, trimStart, trimEnd, pad in *.
  cbn [txt list_ascii_of_string app dropWhile] in *.
  change (is_space " ") with true. cbn iota.
  rewrite Hx in *.
  change (x :: c ++ [" "%char]) with ((x :: c) ++ [" "%char]).
  rewrite rev_unit. cbn [dropWhile].
  change (is_space " ") with true. cbn iota. exact Hf.
Qed.

Lemma cell_parts (c : text) :
  cell c = true ->
  trimmed c = true /\ free_of "|" c = true /\ free_of nl c = true.
Proof.
  unfold cell. intros H. apply andb_true_iff in H as [H H3].
  apply andb_true_iff in H as [H1 H2]. auto.
Qed.

Lemma table_row_parts (row : list text) :
  table_row row = true ->
  row <> [] /\ forallb cell row = true.
Proof.
  unfold table_row. intros H. apply andb_true_iff in H as [H1 H2].
  split; [|exact H2]. now destruct row.
Qed.

Lemma free_of_pads (x : ascii) (row : list text) :
  free_of x (txt " ") = true ->
  forallb (free_of x) row = true ->
  forallb (free_of x) (map pad row) = true.
Proof.
  intros Hx H. rewrite forallb_forall in *. intros l Hl.
  apply in_map_iff in Hl as (c & <- & Hc). unfold pad.
  now rewrite !free_of_app, Hx, (H c Hc).
Qed.

Lemma row_cells_print (row : list text) :
  table_row row = true -> row_cells (print_row row) = row.
Proof.
  intros H. destruct (table_row_parts row H) as (Hn & Hc).
  unfold row_cells, print_row, slice_inner.
  cbn [txt list_ascii_of_string app tl].
  rewrite removelast_last, split_char_join.
  - rewrite map_map. rewrite <- (map_id row) at 2.
    apply map_ext_in. intros c Hin. apply trim_pad.
    rewrite forallb_forall in Hc. now apply cell_parts, Hc.
  - now destruct row.
  - apply free_of_pads; [reflexivity|].
    rewrite forallb_forall in *. intros c Hin.
    now apply cell_parts, Hc.
Qed.

Lemma print_row_trimmed (row : list text) :
  trimmed (print_row row) = true /\ is_row (print_row row) = true.
Proof.
  unfold trimmed, is_row, endsWith, print_row.
  rewrite !rev_app_distr. split; reflexivity.
Qed.

Lemma print_row_line (row : list text) :
  table_row row = true -> free_of nl (print_row row) = true.
Proof.
  intros H. destruct (table_row_parts row H) as (_ & Hc).
  unfold print_row. rewrite !free_of_app.
  rewrite free_of_join; [reflexivity|reflexivity|].
  apply free_of_pads; [reflexivity|].
  rewrite forallb_forall in *. intros c Hin. now apply cell_parts, Hc.
Qed.

Lemma solid_row (row : list text) :
  solid row = true -> is_separator (print_row row) = false.
Proof.
  intros H. unfold is_separator.
  destruct (test_whole re_separator (print_row row)) eqn:E; [|reflexivity].
  exfalso. apply test_whole_fits in E. unfold re_separator, star in E.
  unfold solid in H. apply existsb_exists in H as (c & Hc & H).
  apply existsb_exists in H as (x & Hx & H). apply negb_true_iff in H.
  assert (Hin : In x (print_row row)).
  { unfold print_row. apply in_or_app. right. apply in_or_app. left.
    apply In_join with (l := pad c); [now apply in_map|].
    unfold pad. apply in_or_app. right. apply in_or_app. now left. }
  inv E.
  repeat match goal with
         | F : fits (Seq _ _) _ _ _ |- _ => inv F
         | F : fits (Lit _) _ _ _ |- _ => inv F
         | F : fits (Rep _ _ _ _) _ _ _ |- _ => inv F
         end.
  match goal with E : _ = print_row row |- _ => rewrite <- E in Hin end.
  apply in_app_or in Hin as [Hin|Hin];
    [|apply in_app_or in Hin as [Hin|Hin]].
  - destruct Hin as [<-|[]]. discriminate.
  - match goal with F : Forall _ _ |- _ => rewrite Forall_forall in F;
      specialize (F x Hin) end. congruence.
  - destruct Hin as [<-|[]]. discriminate.
Qed.

Lemma tables_loop_row (row : list text) (rest : list text) (inTable : bool)
    (acc : list (list text)) :
  table_row row = true ->
  tables_loop (print_row row :: rest) inTable acc
  = match rest with
    | next :: rest' =>
        if is_separator (trim next)
        then tables_loop rest' true ((if inTable then acc else []) ++ [row])
        else tables_loop rest true ((if inTable then acc else []) ++ [row])
    | [] => tables_loop rest true ((if inTable then acc else []) ++ [row])
    end.
Proof.
  intros H. cbn [tables_loop].
  destruct (print_row_trimmed row) as (Ht & Hr).
  now rewrite (@trim_fixed _ Ht), Hr, (@row_cells_print _ H).
Qed.

Lemma tables_loop_rows (body : list (list text)) :
  forall acc,
    forallb table_row body = true ->
    forallb solid body = true ->
    tables_loop (map print_row body) true acc = [createTable (acc ++ body)].
Proof.
  induction body as [|r body IH]; intros acc Hb Hs.
  - cbn [map tables_loop]. now rewrite app_nil_r.
  - cbn [forallb] in Hb, Hs.
    apply andb_true_iff in Hb as [Hr Hb]. apply andb_true_iff in Hs as [_ Hs].
    cbn [map]. rewrite (@tables_loop_row r _ _ _ Hr).
    destruct body as [|r2 body].
    + cbn [map tables_loop]. reflexivity.
    + cbn [map]. destruct (print_row_trimmed r2) as (Ht & _).
      rewrite (@trim_fixed _ Ht).
      pose proof Hs as Hs2. cbn [forallb] in Hs2.
      apply andb_true_iff in Hs2 as [Hs2 _].
      rewrite (@solid_row _ Hs2).
      change (print_row r2 :: map print_row body)
        with (map print_row (r2 :: body)).
      rewrite (IH (acc ++ [r]) Hb Hs). now rewrite <- app_assoc.
Qed.

(** X18: a table written row by row (cells between bars, a space on
    either side of a cell) is read back as it was written: [parseTables]
    gives [createTable] of the header and the body rows, with a separator
    line after the header or without one.  The body rows must not read as
    separator lines: a body row whose cells hold nothing but hyphens and
    white space is passed over. *)
Theorem parseTables_printed_table (header : list text)
    (body : list (list text)) (sep : text) :
  table_row header = true ->
  forallb table_row body = true ->
  forallb solid body = true ->
  free_of nl sep = true ->
  is_separator (trim sep) = true ->
  parseTables (join [nl] (print_row header :: sep :: map print_row body))
  = createTable (header :: body)
  /\ parseTables (join [nl] (print_row header :: map print_row body))
     = createTable (header :: body).
Proof.
  intros Hh Hb Hs Hn Hsep. unfold parseTables.
  assert (Hl : forallb (free_of nl) (map print_row (header :: body)) = true).
  { apply forallb_forall. intros l Hl.
    apply in_map_iff in Hl as (r & <- & [<-|Hr]).
    - now apply print_row_line.
    - rewrite forallb_forall in Hb. now apply print_row_line, Hb. }
  cbn [map forallb] in Hl. apply andb_true_iff in Hl as [Hl1 Hl2].
  split.
  - rewrite split_char_join;
      [|discriminate|cbn [forallb]; now rewrite Hl1, Hn, Hl2].
    rewrite (@tables_loop_row header _ _ _ Hh), Hsep.
    now rewrite (@tables_loop_rows body _ Hb Hs).
  - change (print_row header :: map print_row body)
      with (map print_row (header :: body)).
    rewrite split_char_join;
      [|discriminate|cbn [map forallb]; now rewrite Hl1, Hl2].
    cbn [map]. rewrite (@tables_loop_row header _ _ _ Hh).
    destruct body as [|r body]; [reflexivity|].
    cbn [map]. destruct (print_row_trimmed r) as (Ht & _).
    rewrite (@trim_fixed _ Ht).
    cbn [forallb] in Hs. pose proof Hs as Hs'.
    apply andb_true_iff in Hs' as [Hr _].
    rewrite (@solid_row _ Hr).
    change (print_row r :: map print_row body)
      with (map print_row (r :: body)).
    now rewrite (@tables_loop_rows (r :: body) _ Hb Hs).
Qed.

Lemma parseTables_printed_table_witness :
  parseTables (lines ["| a | b |"; "|---|---|"; "| 1 | 2 |"]%string)
  = createTable [[txt "a"; txt "b"]; [txt "1"; txt "2"]].
Proof.
  refine (proj1 (@parseTables_printed_table [txt "a"; txt "b"]
                   [[txt "1"; txt "2"]] (txt "|---|---|") _ _ _ _ _));
    reflexivity.
Defined.

(* ================================================================= *)
(** ** Patterns anchored at a line start, line by line *)

Lemma exec_bol (r : regex) (p : pos) :
  exec (Bol ;; r) p = if at_bol p then run r accept p [] else None.
Proof. reflexivity. Qed.

Lemma at_bol_inside (w b a : text) :
  w <> [] ->
  Forall (fun x => dot x = true) w ->
  at_bol (rev w ++ b, a) = false.
Proof.
  intros Hn Hd. unfold at_bol. cbn [fst].
  destruct (rev w) as [|x r] eqn:Er.
  - apply (f_equal (@rev ascii)) in Er. rewrite rev_involutive in Er.
    now destruct Hn.
  - cbn [app]. rewrite Forall_forall in Hd.
    assert (Hx : dot x = true).
    { apply Hd, in_rev. rewrite Er. now left. }
    now apply negb_true_iff in Hx.
Qed.

(** Behind a character that is no line terminator, and up to the next
    line terminator, an anchored pattern finds nothing. *)
Lemma inside_line (r : regex) (f : text -> caps -> text)
    (x : ascii) (w rest b : text) :
  Forall (fun y => dot y = true) (x :: w) ->
  replace_go (Bol ;; r) f 0 (x :: b) (w ++ rest)
  = w ++ replace_go (Bol ;; r) f 0 (rev (x :: w) ++ b) rest.
Proof.
  intros Hd. rewrite replace_go_app_nomatch.
  - cbn [rev]. now rewrite <- !app_assoc.
  - intros w1 y w2 E. rewrite exec_bol.
    assert (Hw : Forall (fun y => dot y = true) (x :: w1)).
    { inversion Hd as [|? ? Hx Hw]; subst. constructor; [exact Hx|].
      now apply Forall_app in Hw as [Hw _]. }
    pose proof (@at_bol_inside (x :: w1) b (y :: w2 ++ rest)
                  ltac:(discriminate) Hw) as Hb.
    cbn [rev] in Hb. rewrite <- app_assoc in Hb. cbn [app] in Hb.
    now rewrite Hb.
Qed.

Lemma line_end_none (r : regex) (l b a : text) :
  l <> [] ->
  Forall (fun y => dot y = true) l ->
  exec (Bol ;; r) (rev l ++ b, a) = None.
Proof.
  intros Hn Hd. rewrite exec_bol. now rewrite (@at_bol_inside l b a Hn Hd).
Qed.

(** Lines none of which the pattern takes at its start are all kept. *)
Lemma replace_lines_none (r : regex) (f : text -> caps -> text)
    (ls : list text) :
  Forall (fun l => l <> []
                   /\ Forall (fun y => dot y = true) l
                   /\ forall b tail, exec (Bol ;; r) (b, l ++ tail) = None)
    ls ->
  ls <> [] ->
  forall b, replace_go (Bol ;; r) f 0 b (join [nl] ls) = join [nl] ls.
Proof.
  induction ls as [|l ls IH]; intros H Hn b; [now destruct Hn|].
  inversion H as [|? ? (Hl & Hd & Hx) Hls]; subst.
  destruct l as [|x w]; [now destruct Hl|].
  destruct ls as [|l' ls].
  - cbn [join]. rewrite replace_go_cons.
    pose proof (Hx b []) as E. rewrite app_nil_r in E. rewrite E.
    f_equal. rewrite <- (app_nil_r w) at 1.
    rewrite (@inside_line r f x w _ b Hd), replace_go_nil.
    rewrite (@line_end_none r _ b [] Hl Hd). now rewrite !app_nil_r.
  - change (join [nl] ((x :: w) :: l' :: ls))
      with (x :: w ++ nl :: join [nl] (l' :: ls)).
    rewrite replace_go_cons.
    pose proof (Hx b (nl :: join [nl] (l' :: ls))) as E.
    cbn [app] in E. rewrite E. f_equal.
    rewrite (@inside_line r f x w _ b Hd), replace_go_cons.
    rewrite (@line_end_none r _ b _ Hl Hd).
    now rewrite (IH Hls ltac:(discriminate)).
Qed.

(** Lines each of which the pattern takes whole are rewritten one by one. *)
Lemma replace_lines (r : regex) (f : text -> caps -> text)
    (ls : list (text * text)) :
  Forall (fun lo =>
            fst lo <> []
            /\ Forall (fun y => dot y = true) (fst lo)
            /\ forall b tail,
                at_bol (b, tail) = true ->
                at_eol (b, tail) = true ->
                exists cs,
                  exec (Bol ;; r) (b, fst lo ++ tail)
                  = Some (cs, (rev (fst lo) ++ b, tail))
                  /\ f (fst lo) cs = snd lo) ls ->
  ls <> [] ->
  forall b,
    at_bol (b, @nil ascii) = true ->
    replace_go (Bol ;; r) f 0 b (join [nl] (map fst ls))
    = join [nl] (map snd ls).
Proof.
  induction ls as [|[l o] ls IH]; intros H Hn b Hb; [now destruct Hn|].
  inversion H as [|? ? (Hl & Hd & Hx) Hls]; subst. cbn [fst snd] in *.
  destruct ls as [|lo' ls].
  - cbn [map join fst snd].
    destruct (Hx b [] Hb eq_refl) as (cs & E & Ef).
    rewrite <- (app_nil_r l) at 1.
    rewrite (@replace_go_match (Bol ;; r) f b l [] cs Hl E).
    rewrite replace_go_nil, (@line_end_none r _ b [] Hl Hd).
    now rewrite Ef, app_nil_r.
  - change (join [nl] (map fst ((l, o) :: lo' :: ls)))
      with (l ++ nl :: join [nl] (map fst (lo' :: ls))).
    change (join [nl] (map snd ((l, o) :: lo' :: ls)))
      with (o ++ nl :: join [nl] (map snd (lo' :: ls))).
    destruct (Hx b (nl :: join [nl] (map fst (lo' :: ls))) Hb eq_refl)
      as (cs & E & Ef).
    rewrite (@replace_go_match (Bol ;; r) f b l _ cs Hl E).
    rewrite replace_go_cons, (@line_end_none r _ b _ Hl Hd).
    rewrite (IH Hls ltac:(discriminate)) by reflexivity.
    now rewrite Ef.
Qed.

(* ================================================================= *)
(** ** Unordered items *)

Lemma run_seq (r1 r2 : regex) (k : cont) (p : pos) (cs : caps) :
  run (r1 ;; r2) k p cs = run r1 (run r2 k) p cs.
Proof. reflexivity. Qed.

Lemma run_grp (i : nat) (r : regex) (k : cont) (p : pos) (cs : caps) :
  run (Grp i r) k p cs
  = run r (fun p' cs' => k p' ((i, passed p p') :: cs')) p cs.
Proof. reflexivity. Qed.

Lemma run_rep (g : bool) (lo : nat) (hi : option nat) (f : ascii -> bool)
    (k : cont) (b a : text) (cs : caps) :
  run (Rep g lo hi f) k (b, a) cs = rep g f k a lo hi b cs.
Proof. reflexivity. Qed.

Lemma run_eol (k : cont) (p : pos) (cs : caps) :
  run Eol k p cs = if at_eol p then k p cs else None.
Proof. reflexivity. Qed.

Lemma at_eol_dot (b tail : text) :
  at_eol (b, tail) = true ->
  match tail with [] => True | x :: _ => dot x = false end.
Proof.
  unfold at_eol. cbn [snd]. destruct tail; [trivial|].
  intros H. unfold dot. now rewrite H.
Qed.

Lemma exec_ul_item (indent c b tail : text) :
  at_bol (b, tail) = true ->
  forallb is_space indent = true ->
  line_content c = true ->
  at_eol (b, tail) = true ->
  exec re_ul_item (b, indent ++ txt "- " ++ c ++ tail)
  = Some ([(2, c); (1, indent)],
          (rev (indent ++ txt "- " ++ c) ++ b, tail)).
Proof.
  intros Hb Hi Hc He. destruct (line_content_parts c Hc) as (Hn & Hs & Hd).
  unfold re_ul_item. rewrite exec_bol.
  unfold at_bol in *. cbn [fst] in *. rewrite Hb.
  change (txt "- " ++ c ++ tail) with (txt "-" ++ [" "%char] ++ c ++ tail).
  rewrite run_seq, run_grp. unfold star. rewrite run_rep.
  apply rep_greedy_all.
  - now apply Forall_forall, forallb_forall.
  - reflexivity.
  - exact I.
  - lia.
  - rewrite passed_app, run_seq, run_lit_app, run_seq.
    unfold plus. rewrite run_rep.
    apply rep_greedy_all.
    + now repeat constructor.
    + destruct c; [now destruct Hn|exact Hs].
    + exact I.
    + simpl. lia.
    + rewrite run_seq, run_grp, run_rep.
      apply rep_greedy_all.
      * exact Hd.
      * exact (at_eol_dot _ _ He).
      * exact I.
      * destruct c; [now destruct Hn|simpl; lia].
      * rewrite passed_app, run_eol. unfold at_eol in *. cbn [snd] in *.
        rewrite He. unfold accept.
        now rewrite !rev_app_distr, <- !app_assoc.
Qed.

(** A greedy quantifier gives back what the continuation refuses. *)
Lemma rep_fail_back (p : ascii -> bool) (K : cont) (cs : caps) (t : text) :
  forall b,
    (forall t1 t2, t = t1 ++ t2 -> t1 <> [] -> K (rev t1 ++ b, t2) cs = None) ->
    rep true p K t 0 None b cs = K (b, t) cs.
Proof.
  induction t as [|x t IH]; intros b H; [reflexivity|].
  cbn [rep halt pred option_map more].
  destruct (p x); cbn [andb]; [|reflexivity].
  rewrite IH.
  - pose proof (H [x] t eq_refl ltac:(discriminate)) as E.
    cbn [rev app] in E. now rewrite E.
  - intros t1 t2 -> Hn.
    pose proof (H (x :: t1) t2 eq_refl ltac:(discriminate)) as E.
    cbn [rev] in E. now rewrite <- app_assoc in E.
Qed.

Lemma rep_greedy_back (p : ascii -> bool) (K : cont) (cs : caps)
    (t : text) (o : outcome) (w : text) :
  forall lo b,
    Forall (fun x => p x = true) w ->
    lo <= length w ->
    (forall t1 t2,
        t = t1 ++ t2 -> t1 <> [] -> K (rev t1 ++ rev w ++ b, t2) cs = None) ->
    K (rev w ++ b, t) cs = Some o ->
    rep true p K (w ++ t) lo None b cs = Some o.
Proof.
  induction w as [|x w IH]; intros lo b Hw Hlo Hf Hk.
  - simpl in Hlo. assert (lo = 0) by lia. subst lo.
    cbn [app]. rewrite rep_fail_back; [exact Hk|exact Hf].
  - inversion Hw as [|? ? Hx Hw']; subst. cbn [app rep].
    rewrite Hx. cbn [andb more option_map].
    rewrite (IH (pred lo) (x :: b) Hw').
    + reflexivity.
    + simpl in Hlo. lia.
    + intros t1 t2 E Hn. pose proof (Hf t1 t2 E Hn) as E'.
      cbn [rev] in E'. now rewrite <- !app_assoc in E'.
    + cbn [rev] in Hk. now rewrite <- app_assoc in Hk.
Qed.

Lemma startsWith_app_inv (w : text) :
  forall a S,
    startsWith w (a ++ S) = true ->
    startsWith w a = true
    \/ exists w2, w = a ++ w2 /\ w2 <> [] /\ startsWith w2 S = true.
Proof.
  induction w as [|x w IH]; intros a S H; [now left|].
  destruct a as [|y a].
  - right. exists (x :: w). repeat split; [discriminate|exact H].
  - cbn [app startsWith] in H. apply andb_true_iff in H as [Hx H].
    apply Ascii.eqb_eq in Hx. subst y.
    destruct (IH a S H) as [Ha|(w2 & -> & Hn & Hs)].
    + left. cbn [startsWith]. now rewrite Ascii.eqb_refl.
    + right. now exists w2.
Qed.

Lemma includes_needs (x : ascii) (w s : text) :
  In x w -> free_of x s = true -> includes w s = false.
Proof.
  intros Hx Hs. destruct (includes w s) eqn:E; [|reflexivity]. exfalso.
  induction s as [|c s IH].
  - cbn [includes] in E. rewrite orb_false_r in E.
    destruct w; [now destruct Hx|discriminate].
  - unfold free_of in Hs. cbn [forallb] in Hs.
    apply andb_true_iff in Hs as [Hc Hs].
    cbn [includes] in E. apply orb_true_iff in E as [E|E]; [|now apply IH].
    destruct (startsWith_split _ _ E) as (s' & Es).
    assert (Hin : In x (c :: s)) by (rewrite Es; apply in_or_app; now left).
    assert (Hf : forallb (isnt x) (c :: s) = true)
      by (cbn [forallb]; now rewrite Hc).
    rewrite forallb_forall in Hf. specialize (Hf x Hin).
    unfold isnt in Hf. now rewrite Ascii.eqb_refl in Hf.
Qed.

(** A word that ends with a character which the tail does not hold is
    found in a text before the tail or not at all. *)
Lemma includes_app_last (x : ascii) (w' c S : text) :
  free_of x S = true ->
  includes (w' ++ [x]) c = false ->
  includes (w' ++ [x]) (c ++ S) = false.
Proof.
  intros HS. induction c as [|y c IH]; intros H.
  - apply includes_needs with (x := x); [|exact HS].
    apply in_or_app. right. now left.
  - cbn [includes] in H. apply orb_false_iff in H as [H1 H2].
    cbn [app includes]. rewrite (IH H2), orb_false_r.
    destruct (startsWith (w' ++ [x]) (y :: c ++ S)) eqn:E; [|reflexivity].
    exfalso. change (y :: c ++ S) with ((y :: c) ++ S) in E.
    destruct (startsWith_app_inv _ _ _ E) as [Ha|(w2 & Ew & Hn & Hs)];
      [congruence|].
    destruct (startsWith_split _ _ Hs) as (S' & ->).
    assert (Hx : In x w2).
    { destruct (exists_last Hn) as (u & z & ->).
      rewrite app_assoc in Ew. apply app_inj_tail in Ew as [_ <-].
      apply in_or_app. right. now left. }
    rewrite free_of_app in HS. apply andb_true_iff in HS as [HS _].
    unfold free_of in HS. rewrite forallb_forall in HS.
    specialize (HS x Hx). unfold isnt in HS.
    now rewrite Ascii.eqb_refl in HS.
Qed.

(* ================================================================= *)
(** ** Item lines as the list wrapper reads them *)

Lemma run_opt_in (r : regex) (k : cont) (p : pos) (cs : caps) (o : outcome) :
  run r k p cs = Some o -> run (Opt r) k p cs = Some o.
Proof. intros H. cbn [run]. now rewrite H. Qed.

Lemma lit_short (w : text) (k : cont) (b a : text) (cs : caps) :
  length a < length w -> lit w k b a cs = None.
Proof.
  intros H. destruct (lit w k b a cs) as [o|] eqn:E; [|reflexivity].
  destruct (lit_some _ _ _ _ _ E) as (a' & -> & _).
  rewrite length_app in H. lia.
Qed.

Lemma exec_li (lv c : text) (ord : bool) :
  lv <> [] ->
  Forall (fun x => is_digit x = true) lv ->
  Forall (fun x => dot x = true) c ->
  exec re_li ([], item_line lv ord c)
  = Some ([(2, c); (1, lv)], (rev (item_line lv ord c), [])).
Proof.
  intros Hn Hl Hc. unfold exec, re_li, item_line, li_open.
  replace (((txt "<li data-level=" ++ q ++ lv ++ q)
              ++ (if ord then txt " " ++ data_ordered else [])
              ++ txt ">" ++ c ++ txt "</li>"))
    with ((txt "<li data-level=" ++ q)
            ++ lv ++ q
            ++ (if ord then txt " " ++ data_ordered else [])
            ++ txt ">" ++ c ++ txt "</li>" ++ [])
    by (rewrite app_nil_r, <- !app_assoc; reflexivity).
  rewrite run_seq, run_lit_app, run_seq, run_grp.
  unfold plus. rewrite run_rep.
  apply rep_greedy_all.
  - exact Hl.
  - reflexivity.
  - exact I.
  - destruct lv; [now destruct Hn|simpl; lia].
  - cbn beta. rewrite passed_app, run_seq, run_lit_app, run_seq.
    assert (K : forall B CS,
               run (Lit (txt ">");; Grp 2 (star dot);; Lit (txt "</li>"))
                 accept (B, txt ">" ++ c ++ txt "</li>" ++ []) CS
               = Some ((2, c) :: CS,
                       (rev (txt ">" ++ c ++ txt "</li>") ++ B, []))).
    { intros B CS. rewrite run_seq, run_lit_app, run_seq, run_grp.
      unfold star. rewrite run_rep.
      apply rep_greedy_back.
      - exact Hc.
      - lia.
      - intros t1 t2 E Ht. cbn [run fst snd]. apply lit_short.
        apply (f_equal (@length ascii)) in E.
        rewrite !length_app in E. cbn [length txt list_ascii_of_string] in *.
        destruct t1; [now destruct Ht|]. cbn [length] in E. lia.
      - cbn beta. rewrite passed_app, run_lit_app. unfold accept.
        now rewrite !rev_app_distr, <- !app_assoc. }
    destruct ord.
    + apply run_opt_in. cbn iota. rewrite run_lit_app, K.
      now rewrite !app_nil_r, !rev_app_distr, <- !app_assoc.
    + rewrite run_opt_out by reflexivity. cbn iota. cbn [app]. rewrite K.
      now rewrite !app_nil_r, !rev_app_distr, <- !app_assoc.
Qed.

Lemma search_here (r : regex) (b a : text) (cs : caps) (p' : pos) :
  exec r (b, a) = Some (cs, p') ->
  search r b a = Some (passed (b, a) p', cs).
Proof. intros H. destruct a; cbn [search]; now rewrite H. Qed.

Lemma startsWith_includes (w s : text) :
  startsWith w s = true -> includes w s = true.
Proof. intros H. destruct s; cbn [includes]; now rewrite H. Qed.

Lemma digits_free (x : ascii) (lv : text) :
  is_digit x = false ->
  Forall (fun y => is_digit y = true) lv ->
  free_of x lv = true.
Proof.
  intros Hx H. unfold free_of. apply forallb_forall. intros y Hy.
  rewrite Forall_forall in H. specialize (H y Hy). unfold isnt.
  apply negb_true_iff, Ascii.eqb_neq. intros ->. congruence.
Qed.

Lemma item_line_ordered (lv c : text) (ord : bool) :
  Forall (fun x => is_digit x = true) lv ->
  (ord = false -> includes data_ordered c = false) ->
  includes data_ordered (item_line lv ord c) = ord.
Proof.
  intros Hl Hc. unfold item_line, li_open. destruct ord.
  - replace ((txt "<li data-level=" ++ q ++ lv ++ q)
               ++ (txt " " ++ data_ordered) ++ txt ">" ++ c ++ txt "</li>")
      with ((txt "<li data-level=" ++ q ++ lv ++ q ++ txt " ")
              ++ data_ordered ++ txt ">" ++ c ++ txt "</li>")
      by (rewrite <- !app_assoc; reflexivity).
    apply includes_left, startsWith_includes, startsWith_app.
  - specialize (Hc eq_refl). cbn [app].
    rewrite <- !app_assoc.
    change (includes data_ordered
              (txt "<li data-level=" ++ q ++ lv ++ q ++ txt ">" ++ c
                 ++ txt "</li>"))
      with (includes data_ordered
              (q ++ lv ++ q ++ txt ">" ++ c ++ txt "</li>")).
    replace (q ++ lv ++ q ++ txt ">" ++ c ++ txt "</li>")
      with ((q ++ lv ++ q ++ txt ">") ++ c ++ txt "</li>")
      by now rewrite <- !app_assoc.
    unfold data_ordered at 1.
    change (txt "data-ordered=" ++ q ++ txt "true" ++ q)
      with ("d"%char :: (txt "ata-ordered=" ++ q ++ txt "true") ++ [dq]).
    rewrite includes_skip.
    + change ("d"%char :: (txt "ata-ordered=" ++ q ++ txt "true") ++ [dq])
        with ((txt "data-ordered=" ++ q ++ txt "true") ++ [dq]).
      apply includes_app_last; [reflexivity|exact Hc].
    + rewrite !free_of_app, (@digits_free "d" lv eq_refl Hl). reflexivity.
Qed.

Lemma classify_item (lv c : text) (ord : bool) :
  lv <> [] ->
  Forall (fun x => is_digit x = true) lv ->
  Forall (fun x => dot x = true) c ->
  (ord = false -> includes data_ordered c = false) ->
  classify (item_line lv ord c) = Some (parseInt lv, ord, c).
Proof.
  intros Hn Hl Hc Ho. unfold classify, js_match.
  rewrite (search_here _ _ _ (@exec_li lv c ord Hn Hl Hc)).
  unfold group. cbn [cap Nat.eqb].
  now rewrite item_line_ordered.
Qed.

Lemma item_content_parts (c : text) :
  item_content c = true ->
  line_content c = true
  /\ Forall (fun x => dot x = true) c
  /\ includes data_ordered c = false.
Proof.
  unfold item_content. intros H. apply andb_true_iff in H as [H1 H2].
  apply negb_true_iff in H2.
  destruct (line_content_parts c H1) as (_ & _ & Hd). auto.
Qed.

Lemma dot_free_nl (l : text) :
  Forall (fun x => dot x = true) l -> free_of nl l = true.
Proof.
  intros H. unfold free_of. apply forallb_forall. intros x Hx.
  rewrite Forall_forall in H. specialize (H x Hx). unfold isnt.
  apply negb_true_iff, Ascii.eqb_neq. intros ->. discriminate.
Qed.

Lemma digits_dot (lv : text) :
  Forall (fun x => is_digit x = true) lv ->
  Forall (fun x => dot x = true) lv.
Proof.
  apply Forall_impl. intros x Hx.
  unfold dot. apply negb_true_iff.
  destruct (is_lt x) eqn:E; [|reflexivity].
  unfold is_lt in E. apply orb_true_iff in E as [E|E];
    apply N.eqb_eq in E; unfold is_digit, between in Hx;
    rewrite E in Hx; discriminate.
Qed.

Lemma concrete_dot (w : text) :
  forallb dot w = true -> Forall (fun x => dot x = true) w.
Proof. intros H. apply Forall_forall. now apply forallb_forall. Qed.

Lemma item_line_dot (lv c : text) (ord : bool) :
  Forall (fun x => dot x = true) lv ->
  Forall (fun x => dot x = true) c ->
  Forall (fun x => dot x = true) (item_line lv ord c).
Proof.
  intros Hl Hc. unfold item_line, li_open.
  rewrite !Forall_app. repeat split; try assumption;
    try (apply concrete_dot; reflexivity).
  destruct ord; apply concrete_dot; reflexivity.
Qed.

(** Items of one kind at level 0, one per line, read by the loop of the
    list wrapper while a list of that kind is open. *)
Lemma wrap_loop_flat (ord : bool) (cs : list text) :
  forall res,
    Forall (fun c => Forall (fun x => dot x = true) c
                     /\ (ord = false -> includes data_ordered c = false)) cs ->
    wrap_loop (WState true [Frame 0 ord] res)
      (map (item_line (txt "0") ord) cs)
    = Some (WState true [Frame 0 ord] (res ++ map PItem cs)).
Proof.
  induction cs as [|c cs IH]; intros res H.
  - cbn [map wrap_loop]. now rewrite app_nil_r.
  - inversion H as [|? ? (Hd & Ho) Hcs]; subst.
    cbn [map wrap_loop]. unfold wrap_step.
    rewrite (@classify_item (txt "0") c ord) by
      (try discriminate; try (now repeat constructor); assumption).
    change (parseInt (txt "0")) with 0.
    unfold on_item. cbn [inList negb listStack level isOrdered Nat.eqb andb].
    rewrite eqb_reflx. cbn [result].
    rewrite (IH _ Hcs). now rewrite <- app_assoc.
Qed.

Lemma wrapListItems_flat (ord : bool) (c : text) (cs : list text) :
  Forall (fun c => Forall (fun x => dot x = true) c
                   /\ (ord = false -> includes data_ordered c = false))
    (c :: cs) ->
  wrapListItems (join [nl] (map (item_line (txt "0") ord) (c :: cs)))
  = Some (join [nl]
            (render (POpen ord)
               :: map (fun c => txt "<li>" ++ c ++ txt "</li>") (c :: cs)
               ++ [render (PClose ord)])).
Proof.
  intros H. unfold wrapListItems, wrap_pieces.
  rewrite split_char_join.
  - inversion H as [|? ? (Hd & Ho) Hcs]; subst.
    cbn [map wrap_loop]. unfold wrap_step.
    rewrite (@classify_item (txt "0") c ord) by
      (try discriminate; try (now repeat constructor); assumption).
    change (parseInt (txt "0")) with 0.
    unfold on_item. cbn [inList negb result app].
    rewrite (wrap_loop_flat _ Hcs).
    cbn [option_map result listStack close_all map isOrdered].
    f_equal. f_equal. rewrite !map_app, map_map. reflexivity.
  - discriminate.
  - apply forallb_forall. intros l Hl.
    apply in_map_iff in Hl as (c' & <- & Hc').
    rewrite Forall_forall in H. destruct (H c' Hc') as (Hd & _).
    apply dot_free_nl, item_line_dot; [now repeat constructor|exact Hd].
Qed.

Lemma replace_lines_map (r : regex) (f : text -> caps -> text)
    (src out : text -> text) (cs : list text) :
  (forall c, In c cs ->
     src c <> []
     /\ Forall (fun y => dot y = true) (src c)
     /\ forall b tail,
         at_bol (b, tail) = true ->
         at_eol (b, tail) = true ->
         exists ps,
           exec (Bol ;; r) (b, src c ++ tail)
           = Some (ps, (rev (src c) ++ b, tail))
           /\ f (src c) ps = out c) ->
  cs <> [] ->
  replace (Bol ;; r) f (join [nl] (map src cs)) = join [nl] (map out cs).
Proof.
  intros H Hn. unfold replace.
  pose proof (@replace_lines r f (map (fun c => (src c, out c)) cs)) as R.
  rewrite !map_map in R. cbn [fst snd] in R.
  apply R; [|now destruct cs|reflexivity].
  apply Forall_forall. intros lo Hlo.
  apply in_map_iff in Hlo as (c & <- & Hc). cbn [fst snd]. now apply H.
Qed.

Lemma exec_ol_at_tag (b a : text) :
  exec re_ol_item (b, "<"%char :: a) = None.
Proof.
  unfold re_ol_item. rewrite exec_bol. now destruct (at_bol _).
Qed.

Lemma tag_item_lines_kept (f : text -> caps -> text) (ord : bool)
    (cs : list text) :
  cs <> [] ->
  Forall (fun c => Forall (fun x => dot x = true) c) cs ->
  replace re_ol_item f (join [nl] (map (item_line (txt "0") ord) cs))
  = join [nl] (map (item_line (txt "0") ord) cs).
Proof.
  intros Hn H. unfold replace, re_ol_item.
  apply replace_lines_none; [|now destruct cs].
  apply Forall_forall. intros l Hl.
  apply in_map_iff in Hl as (c & <- & Hc).
  rewrite Forall_forall in H. specialize (H c Hc).
  split; [discriminate|]. split.
  - apply item_line_dot; [now repeat constructor|exact H].
  - intros b tail. apply exec_ol_at_tag.
Qed.

Lemma lists_flat_unordered (c : text) (cs : list text) :
  forallb item_content (c :: cs) = true ->
  parseLists (join [nl] (map (fun c => txt "- " ++ c) (c :: cs)))
  = Some (join [nl]
            (txt "<ul>"
               :: map (fun c => txt "<li>" ++ c ++ txt "</li>") (c :: cs)
               ++ [txt "</ul>"])).
Proof.
  intros H. rewrite forallb_forall in H.
  unfold parseLists, tag_list_lines. cbv zeta. unfold re_ul_item.
  rewrite (@replace_lines_map _ _ (fun c => txt "- " ++ c)
             (item_line (txt "0") false) (c :: cs)).
  - rewrite tag_item_lines_kept.
    + apply (@wrapListItems_flat false c cs).
      apply Forall_forall. intros c' Hc'.
      destruct (item_content_parts c' (H c' Hc')) as (_ & Hd & Ho). auto.
    + discriminate.
    + apply Forall_forall. intros c' Hc'.
      now destruct (item_content_parts c' (H c' Hc')) as (_ & Hd & _).
  - intros c' Hc'.
    destruct (item_content_parts c' (H c' Hc')) as (Hl & Hd & _).
    split; [discriminate|]. split.
    + apply Forall_app. split; [now repeat constructor|exact Hd].
    + intros b tail Hb He. eexists. split.
      * rewrite <- app_assoc.
        apply (@exec_ul_item [] c' b tail Hb eq_refl Hl He).
      * reflexivity.
  - discriminate.
Qed.

(** X19: a flat unordered list.  Item lines that start at the line start
    with a hyphen and a space become one [ul] element with one [li] per
    line, each holding the content of its line. *)
Theorem parseLists_flat_unordered (c : text) (cs : list text) :
  forallb item_content (c :: cs) = true ->
  parseLists (join [nl] (map (fun c => txt "- " ++ c) (c :: cs)))
  = Some (join [nl]
            (txt "<ul>"
               :: map (fun c => txt "<li>" ++ c ++ txt "</li>") (c :: cs)
               ++ [txt "</ul>"])).
Proof. exact (@lists_flat_unordered c cs). Qed.

Lemma parseLists_flat_unordered_witness :
  parseLists (lines ["- one"; "- two"]%string)
  = Some (lines ["<ul>"; "<li>one</li>"; "<li>two</li>"; "</ul>"]%string).
Proof.
  apply (@parseLists_flat_unordered (txt "one") [txt "two"]).
  reflexivity.
Defined.

(* ================================================================= *)
(** ** Items at a fractional level *)

Lemma uint_digits (d : Decimal.uint) :
  Forall (fun x => is_digit x = true) (txt (NilEmpty.string_of_uint d)).
Proof.
  induction d; cbn [NilEmpty.string_of_uint txt list_ascii_of_string];
    constructor; auto.
Qed.

Lemma dec_digits (n : nat) : Forall (fun x => is_digit x = true) (dec n).
Proof. apply uint_digits. Qed.

Lemma half_odd (n : nat) :
  Nat.odd n = true -> half n = dec (Nat.div2 n) ++ txt ".5".
Proof.
  intros H. unfold half. rewrite <- Nat.negb_odd, H. reflexivity.
Qed.

(** Where a run of digits ends is determined by the text. *)
Lemma digits_end (w w' : text) (x x' : ascii) (r r' : text) :
  Forall (fun y => is_digit y = true) w ->
  Forall (fun y => is_digit y = true) w' ->
  is_digit x = false ->
  is_digit x' = false ->
  w ++ x :: r = w' ++ x' :: r' ->
  x = x'.
Proof.
  revert w'. induction w as [|y w IH]; intros w' Hw Hw' Hx Hx' E.
  - destruct w' as [|y' w']; cbn [app] in E.
    + now injection E.
    + injection E as -> _. inversion Hw'; subst. congruence.
  - destruct w' as [|y' w']; cbn [app] in E.
    + injection E as -> _. inversion Hw; subst. congruence.
    + injection E as _ E. inversion Hw; inversion Hw'; subst.
      now apply (IH w').
Qed.

Lemma rev_app_cons_tail (x : ascii) (b a s : text) :
  rev (x :: b) ++ a = s -> exists l, tl s = l ++ a.
Proof.
  intros <-. cbn [rev]. rewrite <- app_assoc.
  destruct (rev b) as [|y r].
  - now exists [].
  - exists (r ++ [x]). cbn [app tl]. now rewrite <- app_assoc.
Qed.

Lemma exec_li_fraction (k : nat) (c : text) (ord : bool) :
  exec re_li ([], item_line (dec k ++ txt ".5") ord c) = None.
Proof.
  destruct (exec re_li ([], item_line (dec k ++ txt ".5") ord c))
    as [[cs p']|] eqn:E; [|reflexivity].
  exfalso. destruct (exec_fits _ _ _ E) as (w & a' & Ea & _ & F).
  unfold re_li, plus, star in F. inv F.
  match goal with H : fits (Lit _) _ _ _ |- _ => inv H end.
  match goal with H : fits (Seq _ _) _ _ _ |- _ => inv H end.
  match goal with H : fits (Grp _ _) _ _ _ |- _ => inv H end.
  match goal with H : fits (Rep _ _ _ _) _ _ _ |- _ => inv H end.
  match goal with H : fits (Seq _ _) _ _ _ |- _ => inv H end.
  match goal with H : fits (Lit _) _ _ _ |- _ => inv H end.
  unfold item_line, li_open in Ea.
  rewrite <- !app_assoc in Ea. unfold q in Ea.
  cbn [txt list_ascii_of_string app] in Ea. injection Ea as Ea.
  match goal with H : Forall _ ?w |- _ =>
    pose proof (@digits_end (dec k) w "." dq _ _ (dec_digits k) H
                  eq_refl eq_refl Ea) as X
  end.
  discriminate X.
Qed.

Lemma classify_fraction (k : nat) (c : text) (ord : bool) :
  includes (txt "<li data-level=") c = false ->
  classify (item_line (dec k ++ txt ".5") ord c) = None.
Proof.
  intros Hc. unfold classify.
  assert (E : js_match re_li (item_line (dec k ++ txt ".5") ord c) = None);
    [|now rewrite E].
  unfold js_match. apply search_none. intros b' a' Ea. cbn [rev app] in Ea.
  destruct b' as [|x b']; [cbn [rev app] in Ea; subst a';
                           apply exec_li_fraction|].
  destruct (exec re_li (x :: b', a')) as [o|] eqn:E; [|reflexivity].
  exfalso. apply exec_li_starts, startsWith_includes in E.
  assert (Ht : includes (txt "<li data-level=")
                 (tl (item_line (dec k ++ txt ".5") ord c)) = false).
  { unfold item_line, li_open. rewrite <- !app_assoc.
    cbn [txt list_ascii_of_string app tl].
    replace (includes _ _)
      with (includes (txt "<li data-level=")
              ((txt "li data-level=" ++ q ++ dec k ++ txt ".5" ++ q
                  ++ (if ord then txt " " ++ data_ordered else [])
                  ++ txt ">") ++ c ++ txt "</li>"))
      by (rewrite <- !app_assoc; reflexivity).
    change (txt "<li data-level=")
      with ("<"%char :: txt "li data-level=").
    rewrite includes_skip.
    - change ("<"%char :: txt "li data-level=")
        with (txt "<li data-level" ++ ["="%char]).
      now apply includes_app_last.
    - rewrite !free_of_app, (@digits_free "<" (dec k) eq_refl (dec_digits k)).
      now destruct ord. }
  destruct (@rev_app_cons_tail x b' a' _ Ea) as (l & El).
  rewrite El in Ht. apply includes_suffix in Ht. congruence.
Qed.

Lemma text_line_parts (l : text) :
  text_line l = true ->
  exists x w,
    l = x :: w /\ is_space x = false /\ is_digit x = false
    /\ Ascii.eqb x "-" = false
    /\ Forall (fun y => dot y = true) l
    /\ includes (txt "<li data-level=") l = false.
Proof.
  unfold text_line. intros H.
  apply andb_true_iff in H as [H H3]. apply andb_true_iff in H as [H1 H2].
  destruct l as [|x w]; [discriminate|].
  apply negb_true_iff in H1, H3.
  apply orb_false_iff in H1 as [H1 Hh]. apply orb_false_iff in H1 as [Hs Hg].
  exists x, w. repeat split; auto. now apply concrete_dot.
Qed.

Lemma exec_ul_none_at (x : ascii) (b a : text) :
  is_space x = false ->
  Ascii.eqb x "-" = false ->
  exec re_ul_item (b, x :: a) = None.
Proof.
  intros Hs Hx. unfold re_ul_item. rewrite exec_bol.
  destruct (at_bol _); [|reflexivity].
  rewrite run_seq, run_grp. unfold star. rewrite run_rep.
  cbn [rep]. rewrite Hs. cbn [andb halt]. cbn beta.
  rewrite run_seq. cbn [run fst snd lit txt list_ascii_of_string].
  now rewrite Hx.
Qed.

Lemma exec_ol_none_at (x : ascii) (b a : text) :
  is_space x = false ->
  is_digit x = false ->
  exec re_ol_item (b, x :: a) = None.
Proof.
  intros Hs Hx. unfold re_ol_item. rewrite exec_bol.
  destruct (at_bol _); [|reflexivity].
  rewrite run_seq, run_grp. unfold star. rewrite run_rep.
  cbn [rep]. rewrite Hs. cbn [andb halt]. cbn beta.
  rewrite run_seq. unfold plus. rewrite run_rep.
  now apply rep_owed_none.
Qed.

Lemma wrapListItems_untagged (s : text) :
  Forall (fun l => classify l = None) (split [nl] s) ->
  wrapListItems s = Some s.
Proof.
  intros H. unfold wrapListItems, wrap_pieces.
  rewrite wrap_loop_lines by exact H.
  cbn [option_map result listStack close_all map app].
  rewrite app_nil_r, map_map. cbn [render]. rewrite map_id.
  now rewrite join_split_lines.
Qed.

Lemma ul_after_line (f : text -> caps -> text) (above indent c : text) :
  text_line above = true ->
  forallb is_space indent = true ->
  line_content c = true ->
  replace re_ul_item f (above ++ nl :: indent ++ txt "- " ++ c)
  = above ++ nl :: f (indent ++ txt "- " ++ c) [(2, c); (1, indent)].
Proof.
  intros Ha Hi Hc.
  destruct (text_line_parts above Ha) as (x & w & -> & Hs & _ & Hx & Hd & _).
  destruct (line_content_parts c Hc) as (Hn & _ & Hcd).
  unfold replace. cbn [app].
  rewrite replace_go_cons, (@exec_ul_none_at x _ _ Hs Hx). f_equal.
  unfold re_ul_item.
  rewrite (@inside_line _ f x w _ [] Hd), replace_go_cons.
  rewrite (@line_end_none _ (x :: w) [] _ ltac:(discriminate) Hd).
  f_equal. f_equal.
  rewrite <- (app_nil_r (indent ++ txt "- " ++ c)) at 1.
  rewrite (@replace_go_match _ f _ (indent ++ txt "- " ++ c) []
             [(2, c); (1, indent)]).
  - rewrite replace_go_nil, exec_bol.
    assert (E : rev (indent ++ txt "- " ++ c)
                = rev c ++ rev (indent ++ txt "- "))
      by (rewrite (app_assoc indent (txt "- ") c); apply rev_app_distr).
    rewrite E, <- app_assoc, (@at_bol_inside c _ [] Hn Hcd).
    now rewrite app_nil_r.
  - destruct indent; discriminate.
  - rewrite <- !app_assoc.
    apply exec_ul_item; [reflexivity|exact Hi|exact Hc|reflexivity].
Qed.

(** X20: an item line after a blank line is not put in a list.  After a
    line of text, white space of odd length before the hyphen (one line
    feed for a blank line, or one space) is taken as the indentation of
    the item: the white space is removed, the item gets a level that ends
    in [.5], the list wrapper does not read its line as an item, and the
    line stays in the output as it is, outside any [ul]. *)
Theorem parseLists_item_after_blank_line (above indent c : text) :
  text_line above = true ->
  forallb is_space indent = true ->
  Nat.odd (length indent) = true ->
  line_content c = true ->
  includes (txt "<li data-level=") c = false ->
  parseLists (above ++ [nl] ++ indent ++ txt "- " ++ c)
  = Some (above ++ [nl]
            ++ item_line (dec (Nat.div2 (length indent)) ++ txt ".5") false c).
Proof.
  intros Ha Hi Ho Hc Hl.
  destruct (text_line_parts above Ha)
    as (x & w & Ex & Hs & Hg & Hx & Hd & Hla).
  destruct (line_content_parts c Hc) as (Hn & _ & Hcd).
  assert (Hdl : Forall (fun y => dot y = true)
                  (item_line (dec (Nat.div2 (length indent)) ++ txt ".5")
                     false c)).
  { apply item_line_dot; [|exact Hcd].
    apply Forall_app. split; [apply digits_dot, dec_digits|].
    now repeat constructor. }
  unfold parseLists, tag_list_lines. cbn [app].
  rewrite (@ul_after_line _ above indent c Ha Hi Hc).
  unfold group. cbn [cap Nat.eqb]. rewrite (@half_odd _ Ho).
  change (li_open (dec (Nat.div2 (length indent)) ++ txt ".5")
            ++ txt ">" ++ c ++ txt "</li>")
    with (item_line (dec (Nat.div2 (length indent)) ++ txt ".5") false c).
  change (above ++ nl
            :: item_line (dec (Nat.div2 (length indent)) ++ txt ".5") false c)
    with (join [nl]
            [above;
             item_line (dec (Nat.div2 (length indent)) ++ txt ".5") false c]).
  unfold replace, re_ol_item. rewrite replace_lines_none.
  - apply wrapListItems_untagged.
    rewrite split_char_join.
    + repeat constructor; [now apply classify_none|].
      now apply classify_fraction.
    + discriminate.
    + cbn [forallb]. now rewrite (@dot_free_nl _ Hd), (@dot_free_nl _ Hdl).
  - constructor; [|constructor; [|constructor]].
    + split; [subst above; discriminate|]. split; [exact Hd|].
      intros b tail. subst above. now apply exec_ol_none_at.
    + split; [discriminate|]. split; [exact Hdl|].
      intros b tail. apply exec_ol_at_tag.
  - discriminate.
Qed.

Lemma parseLists_item_after_blank_line_witness :
  parseLists (lines ["Intro"; ""; "- item"]%string)
  = Some (txt "Intro" ++ [nl]
            ++ txt "<li data-level=" ++ q ++ txt "0.5" ++ q
            ++ txt ">item</li>").
Proof.
  refine (@parseLists_item_after_blank_line (txt "Intro") [nl] (txt "item")
            _ _ _ _ _); reflexivity.
Defined.

(* ================================================================= *)
(** ** Ordered items *)







(* ================================================================= *)
(** ** Links *)

Lemma free_of_not (c : ascii) (s : text) :
  free_of c s = true -> Forall (fun x => ~ x = c) s.
Proof. apply free_of_Forall. Qed.

Lemma exec_link (t u : text) :
  t <> [] -> u <> [] ->
  free_of "]" t = true ->
  free_of ")" u = true ->
  exec re_link ([], txt "[" ++ t ++ txt "](" ++ u ++ txt ")")
  = Some ([(2, u); (1, t)],
          (rev (txt "[" ++ t ++ txt "](" ++ u ++ txt ")"), [])).
Proof.
  intros Ht Hu Hft Hfu. unfold exec, re_link.
  unfold free_of in Hft, Hfu. rewrite forallb_forall in Hft, Hfu.
  rewrite run_seq, run_lit_app, run_seq, run_grp.
  unfold plus. rewrite run_rep.
  apply rep_greedy_all.
  - now apply Forall_forall.
  - reflexivity.
  - exact I.
  - destruct t; [now destruct Ht|simpl; lia].
  - cbn beta. rewrite passed_app, run_seq, run_lit_app, run_seq, run_grp.
    rewrite run_rep.
    apply rep_greedy_all.
    + now apply Forall_forall.
    + reflexivity.
    + exact I.
    + destruct u; [now destruct Hu|simpl; lia].
    + cbn beta. rewrite passed_app.
      rewrite <- (app_nil_r (txt ")")) at 2. rewrite run_lit_app.
      unfold accept. now rewrite !rev_app_distr, <- !app_assoc.
Qed.

(** X22: a link to an address without a colon.  A bracketed text followed
    by an address in parentheses, neither holding a double quote or a
    colon, becomes an anchor with the address as [href] and the text as
    content. *)
Theorem parseLinks_relative_link (t u : text) :
  t <> [] -> u <> [] ->
  free_of "]" t = true ->
  free_of ")" u = true ->
  free_of dq (t ++ u) = true ->
  free_of ":" (t ++ u) = true ->
  parseLinks (txt "[" ++ t ++ txt "](" ++ u ++ txt ")")
  = txt "<a href=" ++ q ++ u ++ q ++ txt ">" ++ t ++ txt "</a>".
Proof.
  intros Ht Hu Hft Hfu Hq Hc. unfold parseLinks.
  rewrite free_of_app in Hq, Hc.
  apply andb_true_iff in Hq as [Hqt Hqu].
  apply andb_true_iff in Hc as [Hct Hcu].
  rewrite (@replace_must re_link_title _ (fun x => x = dq)).
  - rewrite (@replace_whole re_link _ _ _ (exec_link Ht Hu Hft Hfu)).
    + unfold group. cbn [cap Nat.eqb].
      apply (@replace_must re_autolink _ (fun x => x = ":"%char)).
      * unfold re_autolink. find_must.
      * apply free_of_not.
        rewrite !free_of_app, Hct, Hcu. reflexivity.
    + reflexivity.
  - unfold re_link_title. find_must.
  - apply free_of_not. rewrite !free_of_app, Hqt, Hqu. reflexivity.
Qed.

Lemma parseLinks_relative_link_witness :
  parseLinks (txt "[About me](/about.html)")
  = txt "<a href=" ++ q ++ txt "/about.html" ++ q ++ txt ">About me</a>".
Proof.
  refine (@parseLinks_relative_link (txt "About me") (txt "/about.html")
            _ _ _ _ _ _); try reflexivity; discriminate.
Defined.

(* ================================================================= *)
(** ** Markup that the later passes leave alone *)

Lemma includes_split (w : text) :
  forall s, includes w s = true -> exists l r, s = l ++ w ++ r.
Proof.
  induction s as [|c s IH]; cbn [includes]; intros H.
  - rewrite orb_false_r in H. destruct (startsWith_split _ _ H) as (r & E).
    now exists [], r.
  - apply orb_true_iff in H as [H|H].
    + destruct (startsWith_split _ _ H) as (r & E). now exists [], r.
    + destruct (IH H) as (l & r & ->). now exists (c :: l), r.
Qed.

Lemma includes_pair (R : ascii -> ascii -> bool) (w1 w2 s : text)
    (x y : ascii) :
  R x y = true ->
  pair_free R s = true ->
  includes (w1 ++ x :: y :: w2) s = false.
Proof.
  intros HR Hs.
  destruct (includes (w1 ++ x :: y :: w2) s) eqn:E; [|reflexivity].
  destruct (includes_split _ _ E) as (l & r & ->).
  rewrite <- app_assoc in Hs. cbn [app] in Hs. rewrite app_assoc in Hs.
  apply pair_free_here in Hs. congruence.
Qed.

(** Between lines without line feed, a pair whose second character is a
    line feed stands only at the end of a line. *)
Lemma pair_free_line (R : ascii -> ascii -> bool) (l : text) :
  forall r,
    (forall x y, R x y = true -> y = nl) ->
    free_of nl l = true ->
    pair_free R r = true ->
    match rev l, r with
    | x :: _, y :: _ => R x y = false
    | _, _ => True
    end ->
    pair_free R (l ++ r) = true.
Proof.
  induction l as [|x l IH]; intros r HR Hl Hr Hj; [exact Hr|].
  unfold free_of in Hl. cbn [forallb] in Hl.
  apply andb_true_iff in Hl as [Hx Hl].
  destruct l as [|z l].
  - cbn [app]. destruct r as [|y r]; [reflexivity|].
    rewrite pair_free_cons, Hr. cbn [rev app] in Hj. now rewrite Hj.
  - cbn [app]. rewrite pair_free_cons.
    change (z :: l ++ r) with ((z :: l) ++ r).
    rewrite (IH r HR Hl Hr).
    + rewrite andb_true_r. apply negb_true_iff.
      destruct (R x z) eqn:E; [|reflexivity].
      apply HR in E. subst z. cbn [forallb] in Hl. unfold isnt in Hl.
      now rewrite Ascii.eqb_refl in Hl.
    + destruct r as [|y r]; [now destruct (rev (z :: l))|].
      cbn [rev] in Hj |- *.
      destruct (rev l ++ [z]) as [|u v] eqn:Eu.
      * now destruct (rev l).
      * cbn [app] in Hj. exact Hj.
Qed.

Lemma join_lines_pair_free (R : ascii -> ascii -> bool) (ls : list text) :
  (forall x y, R x y = true -> y = nl) ->
  Forall (fun l =>
            free_of nl l = true
            /\ match l with [] => False | y :: _ => R nl y = false end
            /\ match rev l with [] => False | x :: _ => R x nl = false end)
    ls ->
  pair_free R (join [nl] ls) = true.
Proof.
  intros HR. induction 1 as [|l ls (Hl & Hh & Ht) Hls IH]; [reflexivity|].
  destruct ls as [|l' ls].
  - cbn [join]. rewrite <- (app_nil_r l).
    apply pair_free_line; auto. now destruct (rev l).
  - change (join [nl] (l :: l' :: ls)) with (l ++ nl :: join [nl] (l' :: ls)).
    apply pair_free_line; auto.
    + inversion Hls as [|? ? (_ & Hh' & _) _]; subst.
      destruct l' as [|y l']; [now destruct Hh'|].
      destruct ls as [|l2 ls].
      * cbn [join]. rewrite pair_free_cons, Hh'.
        cbn [join] in IH. now rewrite IH.
      * change (join [nl] ((y :: l') :: l2 :: ls))
          with (y :: l' ++ nl :: join [nl] (l2 :: ls)) in *.
        rewrite pair_free_cons, Hh'. now rewrite IH.
    + destruct (rev l); [now destruct Ht|exact Ht].
Qed.

Lemma markup_line_parts (l : text) :
  markup_line l = true ->
  (exists w, l = "<"%char :: w)
  /\ Forall (fun y => dot y = true) l
  /\ forallb calm l = true
  /\ includes (txt "<li data-level=") l = false
  /\ starts_clean (rev l) = true.
Proof.
  unfold markup_line. intros H.
  apply andb_true_iff in H as [H H5]. apply andb_true_iff in H as [H H4].
  apply andb_true_iff in H as [H H3]. apply andb_true_iff in H as [H1 H2].
  apply negb_true_iff in H4. repeat split; auto.
  - destruct (startsWith_split _ _ H1) as (w & ->). now exists w.
  - now apply concrete_dot.
Qed.

Lemma calm_free (c : ascii) (l : text) :
  calm c = false -> forallb calm l = true -> free_of c l = true.
Proof.
  intros Hc H. unfold free_of. rewrite forallb_forall in *.
  intros x Hx. specialize (H x Hx). unfold isnt.
  apply negb_true_iff, Ascii.eqb_neq. intros ->. congruence.
Qed.

Lemma rev_join_clean (ls : list text) :
  ls <> [] ->
  Forall (fun l => l <> [] /\ starts_clean (rev l) = true) ls ->
  join [nl] ls <> [] /\ starts_clean (rev (join [nl] ls)) = true.
Proof.
  intros Hn H. induction H as [|l ls (Hl & Hc) Hls IH]; [now destruct Hn|].
  destruct ls as [|l' ls]; [now split|].
  change (join [nl] (l :: l' :: ls)) with (l ++ nl :: join [nl] (l' :: ls)).
  destruct (IH ltac:(discriminate)) as (Hj & Hr). split.
  - destruct l; [now destruct Hl|discriminate].
  - rewrite rev_app_distr. cbn [rev]. rewrite <- app_assoc.
    destruct (rev (join [nl] (l' :: ls))) as [|x r] eqn:E.
    + apply (f_equal (@rev ascii)) in E. rewrite rev_involutive in E.
      now destruct Hj.
    + exact Hr.
Qed.

Lemma not_space_not_nl (x : ascii) : is_space x = false -> Ascii.eqb x nl = false.
Proof.
  intros H. destruct (Ascii.eqb x nl) eqn:E; [|reflexivity].
  apply Ascii.eqb_eq in E. subst x. discriminate.
Qed.

Lemma lines_pairs (R : ascii -> ascii -> bool) (ls : list text) :
  (forall x y, R x y = true -> y = nl) ->
  R nl "<"%char = false ->
  (forall x, is_space x = false -> R x nl = false) ->
  Forall (fun l => markup_line l = true) ls ->
  pair_free R (join [nl] ls) = true.
Proof.
  intros HR Hh Ht H. apply join_lines_pair_free; [exact HR|].
  revert H. apply Forall_impl. intros l Hl.
  destruct (markup_line_parts l Hl) as ((w & ->) & Hd & _ & _ & Hc).
  split; [now apply dot_free_nl|]. split; [exact Hh|].
  destruct (rev ("<"%char :: w)) as [|x r] eqn:E.
  - apply (f_equal (@rev ascii)) in E. rewrite rev_involutive in E.
    discriminate.
  - cbn [starts_clean] in Hc. apply negb_true_iff in Hc. now apply Ht.
Qed.

(** Lines of markup go through every pass after [parseHeaders] as they
    are, when the first starts with a block tag. *)
Lemma later_passes (ls : list text) :
  ls <> [] ->
  forallb markup_line ls = true ->
  isBlockElement (join [nl] ls) = true ->
  parseBlockquotes (join [nl] ls) = join [nl] ls
  /\ parseLists (join [nl] ls) = Some (join [nl] ls)
  /\ parseLinks (join [nl] ls) = join [nl] ls
  /\ parseImages (join [nl] ls) = join [nl] ls
  /\ parseEmphasis (join [nl] ls) = join [nl] ls
  /\ assemble (join [nl] ls) = join [nl] ls.
Proof.
  intros Hn H Hb.
  assert (HF : Forall (fun l => markup_line l = true) ls)
    by (apply Forall_forall; now apply forallb_forall).
  assert (Hfree : forall c, calm c = false -> c <> nl ->
                            free_of c (join [nl] ls) = true).
  { intros c Hc Hcn. apply free_of_join.
    - unfold free_of. cbn [forallb]. unfold isnt.
      rewrite andb_true_r. apply negb_true_iff, Ascii.eqb_neq. congruence.
    - apply forallb_forall. intros l Hl. rewrite Forall_forall in HF.
      destruct (markup_line_parts l (HF l Hl)) as (_ & _ & Hk & _).
      now apply calm_free. }
  assert (Hnone : forall r f,
             (forall b a, exec (Bol ;; r) (b, "<"%char :: a) = None) ->
             replace (Bol ;; r) f (join [nl] ls) = join [nl] ls).
  { intros r f Hr. unfold replace. apply replace_lines_none; [|exact Hn].
    revert HF. apply Forall_impl. intros l Hl.
    destruct (markup_line_parts l Hl) as ((w & ->) & Hd & _).
    split; [discriminate|]. split; [exact Hd|].
    intros b tail. apply Hr. }
  split; [|split; [|split; [|split; [|split]]]].
  - unfold parseBlockquotes, re_blockquote. apply Hnone.
    intros b a. rewrite exec_bol. now destruct (at_bol _).
  - unfold parseLists, tag_list_lines, re_ul_item, re_ol_item.
    rewrite !Hnone.
    + apply wrapListItems_untagged. rewrite split_char_join; [|exact Hn|].
      * revert HF. apply Forall_impl. intros l Hl.
        destruct (markup_line_parts l Hl) as (_ & _ & _ & Hi & _).
        now apply classify_none.
      * apply forallb_forall. intros l Hl. rewrite Forall_forall in HF.
        destruct (markup_line_parts l (HF l Hl)) as (_ & Hd & _).
        now apply dot_free_nl.
    + intros b a. apply exec_ol_at_tag.
    + intros b a. now apply exec_ul_none_at.
  - unfold parseLinks.
    rewrite (@replace_must re_link_title _ (fun x => x = "["%char));
      [|unfold re_link_title; find_must
       |apply free_of_not, Hfree; [reflexivity|discriminate]].
    rewrite (@replace_must re_link _ (fun x => x = "["%char));
      [|unfold re_link; find_must
       |apply free_of_not, Hfree; [reflexivity|discriminate]].
    apply (@replace_must re_autolink _ (fun x => x = ":"%char));
      [unfold re_autolink; find_must
      |apply free_of_not, Hfree; [reflexivity|discriminate]].
  - unfold parseImages.
    rewrite (@replace_must re_image_title _ (fun x => x = "["%char));
      [|unfold re_image_title; find_must
       |apply free_of_not, Hfree; [reflexivity|discriminate]].
    apply (@replace_must re_image _ (fun x => x = "["%char));
      [unfold re_image; find_must
      |apply free_of_not, Hfree; [reflexivity|discriminate]].
  - unfold parseEmphasis.
    rewrite (@replace_span_absent (txt "**") "*" _ _ eq_refl)
      by (apply Hfree; [reflexivity|discriminate]).
    rewrite (@replace_span_absent (txt "__") "_" _ _ eq_refl)
      by (apply Hfree; [reflexivity|discriminate]).
    rewrite (@replace_span_absent (txt "*") "*" _ _ eq_refl)
      by (apply Hfree; [reflexivity|discriminate]).
    rewrite (@replace_span_absent (txt "_") "_" _ _ eq_refl)
      by (apply Hfree; [reflexivity|discriminate]).
    apply (@replace_span_absent (txt "~~") "~" _ _ eq_refl).
    apply Hfree; [reflexivity|discriminate].
  - assert (Hc : join [nl] ls <> []
                 /\ starts_clean (rev (join [nl] ls)) = true).
    { apply rev_join_clean; [exact Hn|].
      revert HF. apply Forall_impl. intros l Hl.
      destruct (markup_line_parts l Hl) as ((w & ->) & _ & _ & _ & Hc).
      split; [discriminate|exact Hc]. }
    destruct Hc as (Hne & Hc).
    assert (Ht : trim (join [nl] ls) = join [nl] ls).
    { apply trim_fixed. unfold trimmed. rewrite Hc, andb_true_r.
      apply isBlockElement_head in Hb.
      destruct (join [nl] ls); [discriminate|]. now injection Hb as ->. }
    rewrite assemble_one_block; rewrite ?Ht, ?Hb; auto.
    + apply (@includes_pair two_newlines [] [] _ nl nl eq_refl).
      apply lines_pairs; auto.
      * intros x y E. unfold two_newlines in E.
        apply andb_true_iff in E as [_ E]. now apply Ascii.eqb_eq in E.
      * intros x Hx. unfold two_newlines.
        now rewrite (not_space_not_nl _ Hx).
    + apply (@includes_pair space_newline [" "%char] [] _ " " nl eq_refl).
      apply lines_pairs; auto.
      * intros x y E. unfold space_newline in E.
        apply andb_true_iff in E as [_ E]. now apply Ascii.eqb_eq in E.
      * intros x Hx. unfold space_newline.
        destruct (Ascii.eqb x " ") eqn:E; [|reflexivity].
        apply Ascii.eqb_eq in E. subst x. discriminate.
Qed.

(* ================================================================= *)
(** ** A heading through the whole parser *)

Lemma lower_underscore (c : ascii) : lower c = "_"%char -> c = "_"%char.
Proof.
  destruct c as [[] [] [] [] [] [] [] []]; vm_compute; intros H;
    first [reflexivity|discriminate].
Qed.

Lemma generateHeaderId_keeps (P : ascii -> Prop) (s : text) :
  Forall (fun c => P (lower c)) s ->
  P "-"%char ->
  Forall P (generateHeaderId s).
Proof.
  intros H Hh. unfold generateHeaderId. apply Forall_trim.
  assert (H1 : Forall P (toLowerCase s)).
  { unfold toLowerCase. apply Forall_forall. intros c Hc.
    apply in_map_iff in Hc as (c' & <- & Hc').
    rewrite Forall_forall in H. now apply H. }
  assert (H2 : Forall P
                 (replace (Cls (fun c => negb (is_slug_char c)))
                    (fun _ _ => []) (toLowerCase s))).
  { unfold replace. rewrite replace_go_cls. apply Forall_flat_map.
    revert H1. apply Forall_impl. intros c Hc.
    destruct (negb (is_slug_char c)); repeat constructor; auto. }
  pose proof (spaces_replaced (replace_replaced (plus is_space)
                                 (fun _ _ => txt "-") _) H2) as H3.
  revert H3. apply Forall_impl. intros c [[Hc _]| ->]; auto.
Qed.

Lemma slug_char_calm (x : ascii) :
  slug_char x = true -> x <> "_"%char ->
  dot x = true /\ calm x = true /\ isnt "<" x = true.
Proof.
  destruct x as [[] [] [] [] [] [] [] []]; intros H N;
    try discriminate; try (now repeat split); now destruct N.
Qed.

Lemma digit_calm (x : ascii) :
  is_digit x = true -> calm x = true /\ isnt "<" x = true.
Proof.
  destruct x as [[] [] [] [] [] [] [] []]; intros H;
    try discriminate; now split.
Qed.

Lemma tame_calm (x : ascii) :
  tame x = true ->
  calm x = true /\ isnt "<" x = true /\ isnt bt x = true
  /\ x <> "_"%char.
Proof.
  destruct x as [[] [] [] [] [] [] [] []]; intros H;
    try discriminate; repeat split; discriminate.
Qed.

Lemma simple_parts (c : text) :
  simple c = true ->
  line_content c = true
  /\ Forall (fun x => dot x = true) c
  /\ forallb calm c = true
  /\ free_of "<" c = true
  /\ free_of bt c = true
  /\ free_of "_" c = true.
Proof.
  unfold simple. intros H. apply andb_true_iff in H as [H1 H2].
  destruct (line_content_parts c H1) as (_ & _ & Hd).
  rewrite forallb_forall in H2.
  repeat split; auto; unfold free_of; apply forallb_forall; intros x Hx;
    destruct (tame_calm x (H2 x Hx)) as (Hc & Hl & Hb & Hu); auto.
  unfold isnt. apply negb_true_iff, Ascii.eqb_neq. exact Hu.
Qed.

Lemma includes_tag_other (y : ascii) (X : text) :
  Ascii.eqb "l" y = false ->
  includes (txt "<li data-level=") ("<"%char :: y :: X)
  = includes (txt "<li data-level=") (y :: X).
Proof.
  intros H.
  change (includes (txt "<li data-level=") ("<"%char :: y :: X))
    with (Ascii.eqb "<" "<"
          && (Ascii.eqb "l" y && startsWith (txt "i data-level=") X)
          || includes (txt "<li data-level=") (y :: X)).
  now rewrite H, andb_false_r.
Qed.

Lemma heading_markup (n : nat) (c : text) :
  1 <= n <= 6 ->
  simple c = true ->
  markup_line
    (txt "<h" ++ dec n ++ txt " id=" ++ q ++ generateHeaderId c ++ q
       ++ txt ">" ++ trim c ++ txt "</h" ++ dec n ++ txt ">") = true
  /\ isBlockElement
       (txt "<h" ++ dec n ++ txt " id=" ++ q ++ generateHeaderId c ++ q
          ++ txt ">" ++ trim c ++ txt "</h" ++ dec n ++ txt ">") = true.
Proof.
  intros Hn Hc.
  destruct (simple_parts c Hc) as (Hl & Hd & Hk & Hlt & _ & Hu).
  assert (Hslug : Forall (fun x => dot x = true /\ calm x = true
                                   /\ isnt "<" x = true)
                    (generateHeaderId c)).
  { pose proof (generateHeaderId_slug c) as H1.
    assert (H2 : Forall (fun x => x <> "_"%char) (generateHeaderId c)).
    { apply generateHeaderId_keeps; [|discriminate].
      apply free_of_Forall in Hu. revert Hu. apply Forall_impl.
      intros x Hx E. now apply Hx, lower_underscore. }
    rewrite Forall_forall in *. intros x Hx.
    now apply slug_char_calm; [apply H1|apply H2]. }
  assert (Hdig : Forall (fun x => dot x = true /\ calm x = true
                                  /\ isnt "<" x = true) (dec n)).
  { pose proof (dec_digits n) as H1. pose proof (digits_dot H1) as H2.
    rewrite Forall_forall in *. intros x Hx.
    destruct (digit_calm x (H1 x Hx)). auto. }
  assert (Htrim : Forall (fun x => dot x = true /\ calm x = true
                                   /\ isnt "<" x = true) (trim c)).
  { apply Forall_trim. rewrite forallb_forall in Hk.
    unfold free_of in Hlt. rewrite forallb_forall in Hlt.
    rewrite Forall_forall in *. auto. }
  assert (Hall : forall (f : ascii -> bool) s,
             Forall (fun x => dot x = true /\ calm x = true
                              /\ isnt "<" x = true) s ->
             (forall x, dot x = true -> calm x = true ->
                        isnt "<" x = true -> f x = true) ->
             forallb f s = true).
  { intros f s Hs Hf. apply forallb_forall. rewrite Forall_forall in Hs.
    intros x Hx. destruct (Hs x Hx) as (H1 & H2 & H3). auto. }
  split.
  - unfold markup_line.
    apply andb_true_iff; split;
      [apply andb_true_iff; split;
       [apply andb_true_iff; split; [apply andb_true_iff; split|]|]|].
    + reflexivity.
    + rewrite !forallb_app.
      rewrite (Hall dot _ Hdig), (Hall dot _ Hslug), (Hall dot _ Htrim);
        auto.
    + rewrite !forallb_app.
      rewrite (Hall calm _ Hdig), (Hall calm _ Hslug), (Hall calm _ Htrim);
        auto.
    + apply negb_true_iff.
      change (txt "<h" ++ dec n ++ txt " id=" ++ q ++ generateHeaderId c
                ++ q ++ txt ">" ++ trim c ++ txt "</h" ++ dec n ++ txt ">")
        with ("<"%char :: "h"%char
                :: dec n ++ txt " id=" ++ q ++ generateHeaderId c
                ++ q ++ txt ">" ++ trim c ++ txt "</h" ++ dec n ++ txt ">").
      rewrite includes_tag_other by reflexivity.
      replace ("h"%char :: dec n ++ txt " id=" ++ q ++ generateHeaderId c
                 ++ q ++ txt ">" ++ trim c ++ txt "</h" ++ dec n ++ txt ">")
        with ((txt "h" ++ dec n ++ txt " id=" ++ q ++ generateHeaderId c
                 ++ q ++ txt ">" ++ trim c)
                ++ txt "</h" ++ dec n ++ txt ">")
        by (rewrite <- !app_assoc; reflexivity).
      change (txt "<li data-level=") with ("<"%char :: txt "li data-level=").
      rewrite includes_skip.
      * change ("<"%char :: txt "li data-level=")
          with (txt "<li data-level=").
        change (txt "</h" ++ dec n ++ txt ">")
          with ("<"%char :: "/"%char :: txt "h" ++ dec n ++ txt ">").
        rewrite includes_tag_other by reflexivity.
        apply includes_free. unfold free_of.
        change ("/"%char :: txt "h" ++ dec n ++ txt ">")
          with (txt "/h" ++ dec n ++ txt ">").
        rewrite !forallb_app, (Hall (isnt "<") _ Hdig); auto.
      * unfold free_of. rewrite !forallb_app.
        rewrite (Hall (isnt "<") _ Hdig), (Hall (isnt "<") _ Hslug),
          (Hall (isnt "<") _ Htrim); auto.
    + rewrite !rev_app_distr. reflexivity.
  - destruct n as [|[|[|[|[|[|[|n]]]]]]]; try lia; reflexivity.
Qed.

Lemma code_passes_absent (s : text) :
  free_of bt s = true ->
  parseCodeBlocks s = s /\ parseInlineCode s = s.
Proof.
  intros H. apply free_of_not in H.
  unfold parseCodeBlocks, parseInlineCode. split.
  - rewrite (@replace_must re_fence_lang _ (fun x => x = bt));
      [|unfold re_fence_lang; find_must|exact H].
    apply (@replace_must re_fence _ (fun x => x = bt));
      [unfold re_fence; find_must|exact H].
  - apply (@replace_must re_inline_code _ (fun x => x = bt));
      [unfold re_inline_code; find_must|exact H].
Qed.

(** X23: a heading through the whole parser.  One to six hashes, a space
    and a content of one line without any character of inline syntax
    (backtick, asterisk, underscore, tilde, opening bracket, colon,
    opening angle bracket) give exactly one heading element, not wrapped
    in a paragraph: no later pass changes the element or its id. *)
Theorem parseMarkdown_heading (n : nat) (c : text) :
  1 <= n <= 6 ->
  simple c = true ->
  parseMarkdown (VString (repeat "#"%char n ++ txt " " ++ c))
  = Some (txt "<h" ++ dec n ++ txt " id=" ++ q ++ generateHeaderId c ++ q
            ++ txt ">" ++ trim c ++ txt "</h" ++ dec n ++ txt ">").
Proof.
  intros Hn Hc.
  destruct (simple_parts c Hc) as (Hl & Hd & _ & _ & Hb & _).
  destruct (line_content_parts c Hl) as (Hne & _ & _).
  assert (Hlc : starts_clean c = true /\ forallb dot c = true).
  { unfold line_content in Hl. apply andb_true_iff in Hl as [H1 H2].
    split; [|exact H2]. destruct c; [discriminate|exact H1]. }
  destruct Hlc as (Hs & Hdb).
  assert (Hfree : free_of bt (repeat "#"%char n ++ txt " " ++ c) = true).
  { rewrite !free_of_app, Hb, free_of_repeat by discriminate. reflexivity. }
  destruct (@code_passes_absent _ Hfree) as (E1 & E2).
  pose proof (@headers_level n (txt " ") c Hn ltac:(discriminate) eq_refl
                Hne Hs Hdb) as E3.
  destruct (@heading_markup n c Hn Hc) as (Hm & Hblock).
  set (O := txt "<h" ++ dec n ++ txt " id=" ++ q ++ generateHeaderId c ++ q
              ++ txt ">" ++ trim c ++ txt "</h" ++ dec n ++ txt ">") in *.
  destruct (@later_passes [O] ltac:(discriminate)) as (P1 & P2 & P3 & P4 & P5 & P6).
  { cbn [forallb]. now rewrite Hm. }
  { exact Hblock. }
  cbn [join] in P1, P2, P3, P4, P5, P6.
  unfold parseMarkdown.
  destruct n as [|n]; [lia|]. cbn [repeat app falsy is_string negb orb].
  change ("#"%char :: repeat "#"%char n ++ txt " " ++ c)
    with (repeat "#"%char (S n) ++ txt " " ++ c).
  unfold pipeline. rewrite E1, E2, E3, P1, P2, P3, P4, P5.
  f_equal. exact P6.
Qed.

Lemma parseMarkdown_heading_witness :
  parseMarkdown (VString (txt "### Getting started, step 1"))
  = Some (txt "<h3 id=" ++ q ++ txt "getting-started-step-1" ++ q
            ++ txt ">Getting started, step 1</h3>").
Proof.
  refine (@parseMarkdown_heading 3 (txt "Getting started, step 1") _ _).
  - lia.
  - reflexivity.
Defined.

(* ================================================================= *)
(** ** A flat list through the whole parser *)

Lemma plain_item_parts (c : text) :
  plain_item c = true -> simple c = true /\ item_content c = true.
Proof.
  unfold plain_item, item_content, simple. intros H.
  apply andb_true_iff in H as [H1 H2].
  apply andb_true_iff in H1 as [H0 H1].
  now rewrite H0, H1, H2.
Qed.

Lemma li_markup (c : text) :
  simple c = true ->
  markup_line (txt "<li>" ++ c ++ txt "</li>") = true.
Proof.
  intros Hc. destruct (simple_parts c Hc) as (_ & Hd & Hk & Hlt & _ & _).
  unfold markup_line.
  apply andb_true_iff; split;
    [apply andb_true_iff; split;
     [apply andb_true_iff; split; [apply andb_true_iff; split|]|]|].
  - reflexivity.
  - rewrite !forallb_app, (Forall_forallb _ Hd). reflexivity.
  - rewrite !forallb_app, Hk. reflexivity.
  - apply negb_true_iff.
    change (includes (txt "<li data-level=") (txt "<li>" ++ c ++ txt "</li>"))
      with (includes ("<"%char :: txt "li data-level=")
              ((txt "li>" ++ c) ++ txt "</li>")).
    rewrite includes_skip; [reflexivity|].
    now rewrite free_of_app, Hlt.
  - rewrite !rev_app_distr. reflexivity.
Qed.

Lemma hyphen_lines_kept (r : regex) (f : text -> caps -> text)
    (cs : list text) :
  (forall b a, exec (Bol ;; r) (b, "-"%char :: a) = None) ->
  cs <> [] ->
  Forall (fun c => Forall (fun x => dot x = true) c) cs ->
  replace (Bol ;; r) f (join [nl] (map (fun c => txt "- " ++ c) cs))
  = join [nl] (map (fun c => txt "- " ++ c) cs).
Proof.
  intros Hr Hn H. unfold replace.
  apply replace_lines_none; [|now destruct cs].
  apply Forall_forall. intros l Hl.
  apply in_map_iff in Hl as (c & <- & Hc).
  rewrite Forall_forall in H. specialize (H c Hc).
  split; [discriminate|]. split.
  - apply Forall_app. split; [now repeat constructor|exact H].
  - intros b tail. apply Hr.
Qed.

(** X24: a flat list through the whole parser.  Lines that each start
    with a hyphen and a space, followed by a content without inline
    syntax, give exactly one [ul] element with one [li] per line, not
    wrapped in a paragraph. *)
Theorem parseMarkdown_flat_list (c : text) (cs : list text) :
  forallb plain_item (c :: cs) = true ->
  parseMarkdown (VString (join [nl] (map (fun c => txt "- " ++ c) (c :: cs))))
  = Some (join [nl]
            (txt "<ul>"
               :: map (fun c => txt "<li>" ++ c ++ txt "</li>") (c :: cs)
               ++ [txt "</ul>"])).
Proof.
  intros H. rewrite forallb_forall in H.
  assert (Hs : forall x, In x (c :: cs) -> simple x = true)
    by (intros x Hx; now apply plain_item_parts, H).
  assert (Hd : Forall (fun x => Forall (fun y => dot y = true) x) (c :: cs)).
  { apply Forall_forall. intros x Hx.
    now destruct (simple_parts x (Hs x Hx)) as (_ & Hd & _). }
  set (I := join [nl] (map (fun c => txt "- " ++ c) (c :: cs))).
  assert (Hfree : free_of bt I = true).
  { apply free_of_join; [reflexivity|].
    apply forallb_forall. intros l Hl.
    apply in_map_iff in Hl as (x & <- & Hx).
    destruct (simple_parts x (Hs x Hx)) as (_ & _ & _ & _ & Hb & _).
    now rewrite free_of_app, Hb. }
  destruct (@code_passes_absent _ Hfree) as (E1 & E2).
  assert (E3 : parseHeaders I = I).
  { unfold parseHeaders, re_header.
    apply hyphen_lines_kept; [|discriminate|exact Hd].
    intros b a. rewrite exec_bol. destruct (at_bol _); [|reflexivity].
    rewrite run_seq, run_grp, run_rep. now apply rep_owed_none. }
  assert (E4 : parseBlockquotes I = I).
  { unfold parseBlockquotes, re_blockquote.
    apply hyphen_lines_kept; [|discriminate|exact Hd].
    intros b a. rewrite exec_bol. now destruct (at_bol _). }
  assert (E5 : parseLists I
               = Some (join [nl]
                         (txt "<ul>"
                            :: map (fun c => txt "<li>" ++ c ++ txt "</li>")
                                 (c :: cs)
                            ++ [txt "</ul>"]))).
  { apply lists_flat_unordered. apply forallb_forall. intros x Hx.
    now apply plain_item_parts, H. }
  destruct (@later_passes
              (txt "<ul>"
                 :: map (fun c => txt "<li>" ++ c ++ txt "</li>") (c :: cs)
                 ++ [txt "</ul>"]) ltac:(discriminate))
    as (P1 & P2 & P3 & P4 & P5 & P6).
  { apply forallb_forall. intros l Hl.
    destruct Hl as [<-|Hl]; [reflexivity|].
    apply in_app_or in Hl as [Hl|[<-|[]]]; [|reflexivity].
    apply in_map_iff in Hl as (x & <- & Hx). now apply li_markup, Hs. }
  { reflexivity. }
  assert (Hne : parseMarkdown (VString I) = pipeline I)
    by (unfold I; destruct cs; reflexivity).
  rewrite Hne. unfold pipeline. rewrite E1, E2, E3, E4, E5, P3, P4, P5.
  f_equal. exact P6.
Qed.

Lemma parseMarkdown_flat_list_witness :
  parseMarkdown (VString (lines ["- one"; "- two"]%string))
  = Some (lines ["<ul>"; "<li>one</li>"; "<li>two</li>"; "</ul>"]%string).
Proof.
  apply (@parseMarkdown_flat_list (txt "one") [txt "two"]).
  reflexivity.
Defined.

(* ================================================================= *)
(** ** Fenced code with a language *)

Lemma exec_fence_lang_named (lang body : text) :
  lang <> [] ->
  forallb is_word lang = true ->
  ~ In bt body ->
  exec re_fence_lang ([], fence ++ lang ++ [nl] ++ body ++ [nl] ++ fence)
  = Some ([(2, body); (1, lang)],
          (rev (fence ++ lang ++ [nl] ++ body ++ [nl] ++ fence), [])).
Proof.
  intros Hn Hl Hb. unfold exec, re_fence_lang.
  rewrite forallb_forall in Hl.
  rewrite run_seq, run_lit_app, run_seq.
  apply run_opt_in. rewrite run_grp. unfold plus. rewrite run_rep.
  apply rep_greedy_all.
  - now apply Forall_forall.
  - reflexivity.
  - exact I.
  - destruct lang; [now destruct Hn|simpl; lia].
  - cbn beta. rewrite passed_app, run_seq, run_lit_app, run_seq, run_grp.
    unfold lazy_star. rewrite run_rep.
    change ([nl] ++ fence) with (nl :: fence).
    erewrite lazy_any_scan with (tail := nl :: fence).
    + reflexivity.
    + intros w1 x w2 E. cbn [run fst snd].
      apply closing_fence_not_yet.
      intros Hin. apply Hb. rewrite E. apply in_or_app. now right.
    + cbn beta. rewrite passed_app.
      rewrite <- (app_nil_r (nl :: fence)) at 2. rewrite run_lit_app.
      unfold accept. f_equal. f_equal.
      rewrite !rev_app_distr. now rewrite <- !app_assoc.
Qed.

Lemma word_not_backtick (x : ascii) : is_word x = true -> x <> bt.
Proof. intros H ->. discriminate. Qed.

(** X25: a fenced block with a language.  When the opening fence is
    followed by a name made of letters, digits and underscores, the block
    becomes a [pre] and [code] element whose class is [language-] and the
    name, holding the trimmed body with every character written by
    [escaped]. *)
Theorem parseCodeBlocks_language (lang body : text) :
  lang <> [] ->
  forallb is_word lang = true ->
  ~ In bt body ->
  parseCodeBlocks (fence ++ lang ++ [nl] ++ body ++ [nl] ++ fence)
  = txt "<pre><code class=" ++ q ++ txt "language-" ++ lang ++ q ++ txt ">"
      ++ flat_map escaped (trim body) ++ txt "</code></pre>".
Proof.
  intros Hn Hl Hb. unfold parseCodeBlocks.
  rewrite (@replace_whole _ _ _ _ (@exec_fence_lang_named lang body Hn Hl Hb))
    by reflexivity.
  unfold group. cbn [cap Nat.eqb].
  rewrite escapeHtml_flat_map.
  rewrite replace_must with (P := fun c => c = bt).
  - now rewrite <- !app_assoc.
  - exact must_backtick_fence.
  - rewrite forallb_forall in Hl.
    repeat (apply Forall_app; split);
      try (vm_compute; repeat constructor; discriminate).
    + apply Forall_forall. intros x Hx. now apply word_not_backtick, Hl.
    + apply Forall_flat_map.
      assert (H : Forall (fun c => c <> bt) (trim body)).
      { apply Forall_trim, Forall_forall. intros c Hc ->. now apply Hb. }
      revert H. apply Forall_impl. intros c Hc. now apply escaped_no_backtick.
Qed.

Lemma parseCodeBlocks_language_witness :
  parseCodeBlocks (lines ["```js"; "if (a < b) go();"; "```"]%string)
  = txt "<pre><code class=" ++ q ++ txt "language-js" ++ q
      ++ txt ">if (a &lt; b) go();</code></pre>".
Proof.
  refine (@parseCodeBlocks_language (txt "js") (txt "if (a < b) go();")
            _ _ _).
  - discriminate.
  - reflexivity.
  - vm_compute. intros H. repeat (destruct H as [H|H]; [discriminate|]).
    exact H.
Defined.

(* ================================================================= *)
(** ** A language name with other characters *)

Lemma lit_none (w : text) (k : cont) :
  forall b a cs, startsWith w a = false -> lit w k b a cs = None.
Proof.
  induction w as [|c w IH]; intros b a cs H; [discriminate|].
  destruct a as [|x a]; [reflexivity|].
  cbn [startsWith] in H. cbn [lit]. rewrite (Ascii.eqb_sym x c).
  destruct (Ascii.eqb c x); [|reflexivity]. now apply IH.
Qed.

Lemma startsWith_app_false (w v : text) :
  forall a, startsWith w a = false -> startsWith (w ++ v) a = false.
Proof.
  induction w as [|c w IH]; intros a H; [discriminate|].
  destruct a as [|x a]; [reflexivity|].
  cbn [app startsWith] in *.
  destruct (Ascii.eqb c x); [|reflexivity]. now apply IH.
Qed.

(** Where a run of a class ends is determined by the text. *)
Lemma class_end (p : ascii -> bool) (w w' : text) (x x' : ascii)
    (r r' : text) :
  Forall (fun y => p y = true) w ->
  Forall (fun y => p y = true) w' ->
  p x = false ->
  p x' = false ->
  w ++ x :: r = w' ++ x' :: r' ->
  x = x'.
Proof.
  revert w'. induction w as [|y w IH]; intros w' Hw Hw' Hx Hx' E.
  - destruct w' as [|y' w']; cbn [app] in E.
    + now injection E.
    + injection E as -> _. inversion Hw'; subst. congruence.
  - destruct w' as [|y' w']; cbn [app] in E.
    + injection E as -> _. inversion Hw; subst. congruence.
    + injection E as _ E. inversion Hw; inversion Hw'; subst.
      now apply (IH w').
Qed.

(** A text between two fences that holds no backtick and is not given
    back by either pattern at its start is kept whole. *)
Lemma fenced_kept (r : regex) (f : text -> caps -> text) (M : text) :
  (forall b a, startsWith fence a = false -> exec r (b, a) = None) ->
  exec r ([], fence ++ M ++ fence) = None ->
  (forall b, exec r (b, fence) = None) ->
  M <> [] ->
  free_of bt M = true ->
  replace r f (fence ++ M ++ fence) = fence ++ M ++ fence.
Proof.
  intros Hs HA HB Hn Hf. unfold replace.
  destruct M as [|y M]; [now destruct Hn|].
  assert (Hy : Ascii.eqb bt y = false).
  { unfold free_of in Hf. cbn [forallb] in Hf.
    apply andb_true_iff in Hf as [Hy _]. unfold isnt in Hy.
    rewrite Ascii.eqb_sym. now apply negb_true_iff in Hy. }
  unfold fence in *. cbn [app] in *.
  rewrite replace_go_cons, HA. f_equal.
  rewrite replace_go_cons, Hs
    by (cbn [startsWith]; now rewrite Hy, !andb_false_r).
  f_equal.
  rewrite replace_go_cons, Hs
    by (cbn [startsWith]; now rewrite Hy, !andb_false_r).
  f_equal.
  change (y :: M ++ [bt; bt; bt]) with ((y :: M) ++ [bt; bt; bt]).
  rewrite replace_go_app_nomatch.
  - f_equal.
    rewrite replace_go_cons, HB. f_equal.
    rewrite replace_go_cons, Hs by reflexivity. f_equal.
    rewrite replace_go_cons, Hs by reflexivity. f_equal.
    rewrite replace_go_nil, Hs by reflexivity. reflexivity.
  - intros w1 x w2 E. apply Hs.
    apply free_of_Forall in Hf. rewrite E in Hf.
    apply Forall_app in Hf as [_ Hf]. inversion Hf as [|? ? Hx _]; subst.
    cbn [app startsWith]. apply Ascii.eqb_neq in Hx.
    now rewrite Ascii.eqb_sym, Hx.
Qed.

Lemma exec_fence_lang_other (w : text) (x : ascii) (tail : text) :
  Forall (fun y => is_word y = true) w ->
  is_word x = false ->
  x <> nl ->
  exec re_fence_lang ([], fence ++ w ++ x :: tail) = None.
Proof.
  intros Hw Hx Hn.
  destruct (exec re_fence_lang ([], fence ++ w ++ x :: tail))
    as [[cs p']|] eqn:E; [|reflexivity].
  exfalso. destruct (exec_fits _ _ _ E) as (u & a' & Ea & _ & F).
  unfold re_fence_lang, plus, lazy_star in F. inv F.
  match goal with H : fits (Lit _) _ _ _ |- _ => inv H end.
  match goal with H : fits (Seq _ _) _ _ _ |- _ => inv H end.
  match goal with H : fits (Seq _ _) _ _ _ |- _ => inv H end.
  match goal with H : fits (Lit _) _ _ _ |- _ => inv H end.
  rewrite <- !app_assoc in Ea. apply app_inv_head in Ea.
  match goal with H : fits (Opt _) _ _ _ |- _ => inv H end.
  - match goal with H : fits (Grp _ _) _ _ _ |- _ => inv H end.
    match goal with H : fits (Rep _ _ _ _) _ _ _ |- _ => inv H end.
    match goal with H : Forall _ ?w1 |- _ =>
      pose proof (@class_end is_word w w1 x nl _ _ Hw H Hx eq_refl Ea) as X
    end.
    now apply Hn.
  - cbn [app] in Ea.
    pose proof (@class_end is_word w [] x nl _ _ Hw (Forall_nil _) Hx
                  eq_refl Ea) as X.
    now apply Hn.
Qed.

Lemma exec_fence_other (w : text) (x : ascii) (tail : text) (b : text) :
  Forall (fun y => is_word y = true) w ->
  x <> nl ->
  exec re_fence (b, fence ++ w ++ x :: tail) = None.
Proof.
  intros Hw Hn. unfold exec, re_fence. rewrite run_seq. cbn [run fst snd].
  apply lit_none. unfold fence. cbn [app startsWith].
  rewrite !Ascii.eqb_refl. cbn [andb].
  destruct w as [|y w]; cbn [app startsWith].
  - apply Ascii.eqb_neq in Hn. now rewrite Ascii.eqb_sym, Hn.
  - inversion Hw as [|? ? Hy _]; subst.
    destruct (Ascii.eqb nl y) eqn:E; [|reflexivity].
    apply Ascii.eqb_eq in E. subst y. discriminate.
Qed.

(** X26: a fence whose language name holds a character other than
    letters, digits and underscores (as in c++, objective-c or
    shell-session) is not a code block: a text between two fences that
    starts with such a name and holds no backtick is left as it is. *)
Theorem parseCodeBlocks_language_other_characters (w : text) (x : ascii)
    (rest : text) :
  forallb is_word w = true ->
  is_word x = false ->
  x <> nl ->
  free_of bt (w ++ x :: rest) = true ->
  parseCodeBlocks (fence ++ (w ++ x :: rest) ++ fence)
  = fence ++ (w ++ x :: rest) ++ fence.
Proof.
  intros Hw Hx Hn Hf. unfold parseCodeBlocks.
  assert (HW : Forall (fun y => is_word y = true) w)
    by (apply Forall_forall; now apply forallb_forall).
  assert (Hne : w ++ x :: rest <> []) by (destruct w; discriminate).
  rewrite fenced_kept; auto.
  - apply fenced_kept; auto.
    + intros b a Ha. unfold exec, re_fence. rewrite run_seq.
      cbn [run fst snd]. now apply lit_none, startsWith_app_false.
    + rewrite <- app_assoc. cbn [app]. now apply exec_fence_other.
  - intros b a Ha. unfold exec, re_fence_lang. rewrite run_seq.
    cbn [run fst snd]. now apply lit_none.
  - rewrite <- app_assoc. cbn [app]. now apply exec_fence_lang_other.
Qed.

Lemma parseCodeBlocks_language_other_characters_witness :
  parseCodeBlocks (lines ["```c++"; "int x;"; "```"]%string)
  = lines ["```c++"; "int x;"; "```"]%string.
Proof.
  refine (@parseCodeBlocks_language_other_characters (txt "c") "+"
            (txt "+" ++ [nl] ++ txt "int x;" ++ [nl]) _ _ _ _).
  - reflexivity.
  - reflexivity.
  - discriminate.
  - reflexivity.
Defined.

(* ================================================================= *)
(** ** Images *)

Lemma exec_image (alt src : text) :
  src <> [] ->
  free_of "]" alt = true ->
  free_of ")" src = true ->
  exec re_image ([], txt "![" ++ alt ++ txt "](" ++ src ++ txt ")")
  = Some ([(2, src); (1, alt)],
          (rev (txt "![" ++ alt ++ txt "](" ++ src ++ txt ")"), [])).
Proof.
  intros Hs Hfa Hfs. unfold exec, re_image.
  unfold free_of in Hfa, Hfs. rewrite forallb_forall in Hfa, Hfs.
  rewrite run_seq, run_lit_app, run_seq, run_grp.
  unfold star. rewrite run_rep.
  apply rep_greedy_all.
  - now apply Forall_forall.
  - reflexivity.
  - exact I.
  - lia.
  - cbn beta. rewrite passed_app, run_seq, run_lit_app, run_seq, run_grp.
    unfold plus. rewrite run_rep.
    apply rep_greedy_all.
    + now apply Forall_forall.
    + reflexivity.
    + exact I.
    + destruct src; [now destruct Hs|simpl; lia].
    + cbn beta. rewrite passed_app.
      rewrite <- (app_nil_r (txt ")")) at 2. rewrite run_lit_app.
      unfold accept. now rewrite !rev_app_distr, <- !app_assoc.
Qed.

(** X27: [parseImages] on its own.  An exclamation mark, a bracketed
    text that may be empty and an address in parentheses, neither holding
    a double quote, become an [img] element with the address as [src] and
    the text as [alt]. *)
Theorem parseImages_alone (alt src : text) :
  src <> [] ->
  free_of "]" alt = true ->
  free_of ")" src = true ->
  free_of dq (alt ++ src) = true ->
  parseImages (txt "![" ++ alt ++ txt "](" ++ src ++ txt ")")
  = txt "<img src=" ++ q ++ src ++ q ++ txt " alt=" ++ q ++ alt ++ q
      ++ txt ">".
Proof.
  intros Hs Hfa Hfs Hq. unfold parseImages.
  rewrite free_of_app in Hq. apply andb_true_iff in Hq as [Hqa Hqs].
  rewrite (@replace_must re_image_title _ (fun x => x = dq)).
  - rewrite (@replace_whole re_image _ _ _ (@exec_image alt src Hs Hfa Hfs)).
    + unfold group. cbn [cap Nat.eqb]. reflexivity.
    + reflexivity.
  - unfold re_image_title. find_must.
  - apply free_of_not. rewrite !free_of_app, Hqa, Hqs. reflexivity.
Qed.

Lemma parseImages_alone_witness :
  parseImages (txt "![](photo.png)")
  = txt "<img src=" ++ q ++ txt "photo.png" ++ q ++ txt " alt=" ++ q ++ q
      ++ txt ">".
Proof.
  refine (@parseImages_alone [] (txt "photo.png") _ _ _ _);
    try reflexivity; discriminate.
Defined.

(* ================================================================= *)
(** ** Blog posts *)

Lemma replace_first_prefix (w r s : text) :
  replace_first w r (w ++ s) = r ++ s.
Proof.
  assert (E : forall t,
             replace_first w r t
             = if startsWith w t then r ++ skipn (length w) t
               else match t with
                    | [] => []
                    | c :: t' => c :: replace_first w r t'
                    end) by (intros [|c t]; reflexivity).
  rewrite E, startsWith_app. f_equal.
  rewrite skipn_app, skipn_all, Nat.sub_diag. reflexivity.
Qed.

Lemma join_split_char (c : ascii) (s : text) : join [c] (split [c] s) = s.
Proof.
  unfold split. induction s as [|x s IH]; [reflexivity|].
  cbn [split_go startsWith length Nat.sub].
  destruct (Ascii.eqb c x) eqn:E; cbn [andb].
  - apply Ascii.eqb_eq in E. subst x.
    destruct (split_go [c] 0 s) as [|p ps] eqn:Es.
    + now apply split_go_nonempty in Es.
    + change (join [c] ([] :: p :: ps)) with (c :: join [c] (p :: ps)).
      now rewrite IH.
  - destruct (split_go [c] 0 s) as [|p ps] eqn:Es.
    + now apply split_go_nonempty in Es.
    + now rewrite join_cons_head, IH.
Qed.

(** The front matter ends at the first line feed that three hyphens
    follow. *)
Lemma exec_frontmatter (body rest : text) :
  (forall w1 x w2,
      body = w1 ++ x :: w2 ->
      startsWith (nl :: txt "---") (x :: w2 ++ (nl :: txt "---") ++ rest)
      = false) ->
  exec re_frontmatter
    ([], (txt "---" ++ [nl]) ++ body ++ (nl :: txt "---") ++ rest)
  = Some ([(1, body)],
          (rev ((txt "---" ++ [nl]) ++ body ++ nl :: txt "---") ++ [], rest)).
Proof.
  intros Hb. unfold exec, re_frontmatter.
  rewrite run_seq, run_lit_app, run_seq, run_grp.
  unfold lazy_star. rewrite run_rep.
  erewrite lazy_any_scan with (tail := (nl :: txt "---") ++ rest).
  - reflexivity.
  - intros w1 x w2 E. cbn beta. apply lit_none. now apply Hb with (w1 := w1).
  - cbn beta. rewrite run_lit_app. unfold accept.
    rewrite passed_app. f_equal. f_equal. f_equal.
    rewrite !rev_app_distr. now rewrite <- !app_assoc.
Qed.

(** Two lines of front matter, the second of which does not start with
    three hyphens. *)
Lemma two_lines_scan (l1 l2 rest : text) :
  free_of nl l1 = true ->
  free_of nl l2 = true ->
  (forall t, startsWith (txt "---") (l2 ++ t) = false) ->
  forall w1 x w2,
    l1 ++ nl :: l2 = w1 ++ x :: w2 ->
    startsWith (nl :: txt "---") (x :: w2 ++ (nl :: txt "---") ++ rest)
    = false.
Proof.
  intros H1 H2 Hs w1 x w2 E.
  apply free_of_Forall in H1, H2.
  assert (Hx : x <> nl ->
               startsWith (nl :: txt "---")
                 (x :: w2 ++ (nl :: txt "---") ++ rest) = false).
  { intros Hn. cbn [startsWith].
    destruct (Ascii.eqb nl x) eqn:Ex; [|reflexivity].
    apply Ascii.eqb_eq in Ex. now destruct Hn. }
  apply app_eq_app in E as (l & [[E1 E2]|[E1 E2]]).
  - destruct l as [|y l].
    + cbn [app] in E2. injection E2 as -> ->.
      cbn [startsWith]. rewrite Ascii.eqb_refl. cbn [andb]. apply Hs.
    + cbn [app] in E2. injection E2 as -> _. apply Hx.
      rewrite E1 in H1. apply Forall_app in H1 as [_ H1]. now inversion H1.
  - destruct l as [|y l].
    + cbn [app] in E2. injection E2 as <- <-.
      cbn [startsWith]. rewrite Ascii.eqb_refl. cbn [andb]. apply Hs.
    + cbn [app] in E2. injection E2 as _ E2. apply Hx.
      rewrite E2 in H2. apply Forall_app in H2 as [_ H2]. now inversion H2.
Qed.

Lemma trim_after_space (t : text) :
  trimmed t = true -> trim (" "%char :: t) = t.
Proof.
  intros H. rewrite <- (trim_fixed t H) at 2. reflexivity.
Qed.

(** A line [key: value] of the front matter, for a key without colon:
    the value is what follows the first colon, trimmed. *)
Lemma split_field (key v : text) :
  free_of ":" key = true ->
  trimmed v = true ->
  exists parts,
    split (txt ":") (key ++ txt ": " ++ v) = key :: parts
    /\ Nat.ltb 0 (length parts) = true
    /\ trim (join (txt ":") parts) = v.
Proof.
  intros Hk Hv. exists (split (txt ":") (" "%char :: v)). split; [|split].
  - exact (@split_char ":" key (" "%char :: v) Hk).
  - destruct (split (txt ":") (" "%char :: v)) eqn:E; [|reflexivity].
    now apply split_go_nonempty in E.
  - change (txt ":") with [":"%char]. rewrite join_split_char.
    now apply trim_after_space.
Qed.

Lemma front_line_title (p : post) (v : text) :
  trimmed v = true -> front_line p (txt "title: " ++ v) = set_title p v.
Proof.
  intros Hv.
  destruct (@split_field (txt "title") v eq_refl Hv) as (parts & E1 & E2 & E3).
  unfold front_line.
  change (txt "title: " ++ v) with (txt "title" ++ txt ": " ++ v).
  rewrite E1, E2. cbv zeta. rewrite E3. reflexivity.
Qed.

Lemma front_line_date (p : post) (v : text) :
  trimmed v = true -> front_line p (txt "date: " ++ v) = set_date p v.
Proof.
  intros Hv.
  destruct (@split_field (txt "date") v eq_refl Hv) as (parts & E1 & E2 & E3).
  unfold front_line.
  change (txt "date: " ++ v) with (txt "date" ++ txt ": " ++ v).
  rewrite E1, E2. cbv zeta. rewrite E3. reflexivity.
Qed.

(** X28: a post that opens with a front matter of a title line and a date
    line: the title is the text after the first colon of its line, colons
    of its own included, the date likewise, and the content is the parse
    of what follows the closing hyphens, trimmed. *)
Theorem parseMarkdownPost_front_matter (T D rest s : text) :
  T <> [] ->
  trimmed T = true -> free_of nl T = true ->
  trimmed D = true -> free_of nl D = true ->
  let p :=
    parseMarkdownPost
      (txt "---" ++ [nl] ++ txt "title: " ++ T ++ [nl] ++ txt "date: " ++ D
         ++ [nl] ++ txt "---" ++ rest) s in
  title p = T /\ date p = D
  /\ content p = parseMarkdown (VString (trim rest)) /\ slug p = s.
Proof.
  intros Hn HT HfT HD HfD.
  assert (Hl1 : free_of nl (txt "title: " ++ T) = true)
    by (rewrite free_of_app, HfT; reflexivity).
  assert (Hl2 : free_of nl (txt "date: " ++ D) = true)
    by (rewrite free_of_app, HfD; reflexivity).
  set (body := (txt "title: " ++ T) ++ nl :: txt "date: " ++ D).
  set (w := (txt "---" ++ [nl]) ++ body ++ nl :: txt "---").
  assert (E : txt "---" ++ [nl] ++ txt "title: " ++ T ++ [nl] ++ txt "date: "
                ++ D ++ [nl] ++ txt "---" ++ rest
              = (txt "---" ++ [nl]) ++ body ++ (nl :: txt "---") ++ rest).
  { unfold body. cbn [txt list_ascii_of_string app].
    rewrite <- !app_assoc. reflexivity. }
  assert (E' : (txt "---" ++ [nl]) ++ body ++ (nl :: txt "---") ++ rest
               = w ++ rest).
  { unfold w. now rewrite <- !app_assoc. }
  cbv zeta. unfold parseMarkdownPost. rewrite E.
  rewrite (@exec_frontmatter body rest)
    by (apply two_lines_scan; [exact Hl1|exact Hl2|intros t; reflexivity]).
  fold w. rewrite E'. unfold group. cbn [cap Nat.eqb].
  rewrite passed_app, replace_first_prefix. cbn [app].
  unfold body. rewrite (@split_char nl _ _ Hl1), (@split_char_last nl _ Hl2).
  cbn [fold_left]. rewrite (@front_line_title _ T HT), (@front_line_date _ D HD).
  destruct T as [|t T]; [now destruct Hn|].
  cbn [set_date set_title set_excerpt title date excerpt slug content
       category tags readingTime].
  repeat split.
Qed.

Lemma parseMarkdownPost_front_matter_witness :
  let p :=
    parseMarkdownPost
      (txt "---" ++ [nl] ++ txt "title: " ++ txt "Rocq: a tour" ++ [nl]
         ++ txt "date: " ++ txt "2024-01-15" ++ [nl] ++ txt "---"
         ++ nl :: nl :: txt "Hello.") (txt "tour") in
  title p = txt "Rocq: a tour" /\ date p = txt "2024-01-15"
  /\ content p = parseMarkdown (VString (trim (nl :: nl :: txt "Hello.")))
  /\ slug p = txt "tour".
Proof.
  refine (@parseMarkdownPost_front_matter (txt "Rocq: a tour")
            (txt "2024-01-15") (nl :: nl :: txt "Hello.") (txt "tour")
            _ _ _ _ _);
    try reflexivity; discriminate.
Defined.

(** *** The generated excerpt *)

Lemma newline_run_matches (b a : text) :
  exec (plus (Ascii.eqb nl)) (b, nl :: a) <> None.
Proof.
  unfold exec, plus. rewrite run_rep. cbn [rep].
  rewrite Ascii.eqb_refl. cbn [more andb pred option_map].
  destruct (@rep_accept true (Ascii.eqb nl) a None (nl :: b) []) as (o & ->).
  discriminate.
Qed.

Lemma newline_run_length (b a : text) (cs : caps) (b' a' : text) :
  exec (plus (Ascii.eqb nl)) (b, a) = Some (cs, (b', a')) ->
  length a' < length a.
Proof.
  unfold exec, plus. rewrite run_rep. intros E.
  apply rep_some in E as (w & a0 & -> & _ & Hl & E).
  unfold accept in E. injection E as _ _ <-.
  rewrite length_app. lia.
Qed.

Lemma newlines_replaced (b a o : text) :
  replaced (plus (Ascii.eqb nl)) (fun _ _ => txt " ") b a o ->
  Forall (fun c => c <> nl) o.
Proof.
  intros H.
  induction H as [b E|b cs p' E|b x a o E H IH|b x a o cs E H IH
                 |b m a o cs Hm E H IH].
  - constructor.
  - destruct p' as [b' a']. apply newline_run_length in E. simpl in E. lia.
  - constructor; [|exact IH]. intros ->. now apply newline_run_matches in E.
  - apply newline_run_length in E. lia.
  - constructor; [discriminate|exact IH].
Qed.

Lemma marks_removed (s : text) :
  Forall (fun c => is_mark c = false)
    (replace (Cls is_mark) (fun _ _ => []) s).
Proof.
  unfold replace. rewrite replace_go_cls. apply Forall_flat_map.
  apply Forall_forall. intros c _. destruct (is_mark c) eqn:E.
  - constructor.
  - now repeat constructor.
Qed.

Lemma generated_excerpt_plain (s : text) :
  length (generated_excerpt s) <= 203
  /\ Forall (fun c => ~ In c ["#"%char; "*"%char; bt; nl])
       (generated_excerpt s).
Proof.
  unfold generated_excerpt.
  set (t := trim _).
  assert (Ht : Forall (fun c => is_mark c = false /\ c <> nl) t).
  { unfold t. apply Forall_trim. apply Forall_and.
    - apply (@Forall_replaced (plus (Ascii.eqb nl)) " " []
               (fun c => is_mark c = false) [] _ _ (replace_replaced _ _ _)).
      + now repeat constructor.
      + apply marks_removed.
    - exact (@newlines_replaced [] _ _ (replace_replaced _ _ _)). }
  assert (Hp : forall c, is_mark c = false /\ c <> nl ->
                         ~ In c ["#"%char; "*"%char; bt; nl]).
  { intros c [Hm Hn] [<-|[<-|[<-|[<-|[]]]]]; try discriminate.
    now apply Hn. }
  split.
  - rewrite length_app.
    assert (Hl : length (firstn excerptLength t) <= 200).
    { rewrite length_firstn. unfold excerptLength. lia. }
    revert Hl. generalize (length (firstn excerptLength t)). intros n Hl.
    destruct (Nat.ltb excerptLength (length t)); simpl; lia.
  - apply Forall_app. split.
    + rewrite <- (firstn_skipn excerptLength t) in Ht.
      apply Forall_app in Ht as [Ht _]. revert Ht. apply Forall_impl. exact Hp.
    + destruct (Nat.ltb excerptLength (length t)); [|constructor].
      repeat constructor; intros [E|[E|[E|[E|[]]]]]; discriminate.
Qed.

Lemma no_front_matter (markdown : text) :
  startsWith (txt "---" ++ [nl]) markdown = false ->
  exec re_frontmatter ([], markdown) = None.
Proof.
  intros H. unfold exec, re_frontmatter. rewrite run_seq.
  cbn [run fst snd]. now apply lit_none.
Qed.

(** X29: a post that does not open with three hyphens and a line feed has
    no front matter, and its excerpt is made of its text: at most 203
    characters, none of them a hash, an asterisk, a backtick or a line
    feed. *)
Theorem parseMarkdownPost_excerpt (markdown s : text) :
  startsWith (txt "---" ++ [nl]) markdown = false ->
  let e := excerpt (parseMarkdownPost markdown s) in
  length e <= 203 /\ Forall (fun c => ~ In c ["#"%char; "*"%char; bt; nl]) e.
Proof.
  intros H. cbv zeta. unfold parseMarkdownPost.
  rewrite (@no_front_matter _ H).
  cbn [title]. destruct (js_match re_title markdown) as [[m cs]|];
    cbn [set_title set_excerpt excerpt]; apply generated_excerpt_plain.
Qed.

Lemma parseMarkdownPost_excerpt_witness :
  let e := excerpt (parseMarkdownPost
                      (txt "# Title" ++ nl :: nl :: txt "Some *text*.")
                      (txt "a-post")) in
  length e <= 203 /\ Forall (fun c => ~ In c ["#"%char; "*"%char; bt; nl]) e.
Proof.
  refine (@parseMarkdownPost_excerpt _ _ _). reflexivity.
Defined.

(** *** The title made of the name of the file *)

Lemma forallb_holds (f : ascii -> bool) (w : text) :
  forallb f w = true -> Forall (fun c => f c = true) w.
Proof.
  intros H. apply Forall_forall. now apply forallb_forall.
Qed.

Lemma hyphens_to_spaces (ws : list text) :
  Forall (fun w => Forall (fun c => is_word c = true) w) ws ->
  flat_map (fun c => if Ascii.eqb "-" c then txt " " else [c])
    (join (txt "-") ws)
  = join (txt " ") ws.
Proof.
  assert (Hw : forall w, Forall (fun c => is_word c = true) w ->
                 flat_map (fun c => if Ascii.eqb "-" c then txt " " else [c]) w
                 = w).
  { induction w as [|c w IH]; intros H; [reflexivity|].
    inversion H as [|? ? Hc Hr]; subst. cbn [flat_map].
    rewrite (IH Hr). destruct (Ascii.eqb "-" c) eqn:E; [|reflexivity].
    apply Ascii.eqb_eq in E. subst c. discriminate. }
  induction ws as [|w ws IH]; intros H; [reflexivity|].
  inversion H as [|? ? H1 H2]; subst.
  destruct ws as [|w' ws]; [now apply Hw|].
  change (join (txt "-") (w :: w' :: ws))
    with (w ++ txt "-" ++ join (txt "-") (w' :: ws)).
  change (join (txt " ") (w :: w' :: ws))
    with (w ++ txt " " ++ join (txt " ") (w' :: ws)).
  rewrite flat_map_app, (Hw w H1). f_equal.
  change (txt "-" ++ ?t) with ("-"%char :: t). cbn [flat_map].
  rewrite (IH H2). reflexivity.
Qed.

Lemma capitalize_inside (w t : text) :
  Forall (fun c => is_word c = true) w ->
  capitalize_words true (w ++ t) = w ++ capitalize_words true t.
Proof.
  induction w as [|c w IH]; intros H; [reflexivity|].
  inversion H as [|? ? Hc Hr]; subst.
  cbn [app capitalize_words]. rewrite Hc. cbn [negb andb]. now rewrite IH.
Qed.

Lemma capitalize_word (w t : text) :
  slug_word w = true ->
  capitalize_words false (w ++ t) = capital w ++ capitalize_words true t.
Proof.
  unfold slug_word. destruct w as [|c w]; [discriminate|]. cbn [andb forallb].
  intros H. apply andb_true_iff in H as [Hc Hw].
  cbn [app capitalize_words capital]. rewrite Hc. cbn [negb andb].
  f_equal. apply capitalize_inside. now apply forallb_holds.
Qed.

Lemma capitalize_join (ws : list text) :
  forallb slug_word ws = true ->
  capitalize_words false (join (txt " ") ws)
  = join (txt " ") (map capital ws).
Proof.
  induction ws as [|w ws IH]; intros H; [reflexivity|].
  cbn [forallb] in H. apply andb_true_iff in H as [Hw Hws].
  destruct ws as [|w' ws].
  - cbn [join map]. rewrite <- (app_nil_r w) at 1.
    rewrite (@capitalize_word w [] Hw). cbn [capitalize_words].
    now rewrite app_nil_r.
  - change (join (txt " ") (w :: w' :: ws))
      with (w ++ txt " " ++ join (txt " ") (w' :: ws)).
    change (join (txt " ") (map capital (w :: w' :: ws)))
      with (capital w ++ txt " " ++ join (txt " ") (map capital (w' :: ws))).
    rewrite (@capitalize_word w _ Hw). f_equal.
    change (txt " " ++ ?t) with (" "%char :: t). cbn [capitalize_words].
    change (is_word " ") with false. cbn [andb]. f_equal. now apply IH.
Qed.

(** X30: a post without front matter and without any hash takes its title
    from the name of its file: the words between the hyphens, each with
    its first character in upper case, with spaces between them. *)
Theorem parseMarkdownPost_title_of_file_name (markdown : text)
    (ws : list text) :
  startsWith (txt "---" ++ [nl]) markdown = false ->
  free_of "#" markdown = true ->
  forallb slug_word ws = true ->
  title (parseMarkdownPost markdown (join (txt "-") ws))
  = join (txt " ") (map capital ws).
Proof.
  intros Hf Hh Hw. unfold parseMarkdownPost.
  rewrite (@no_front_matter _ Hf). cbn [title].
  rewrite (@js_match_must (fun x => x = "#"%char) re_title markdown).
  - cbn [set_title set_excerpt excerpt title].
    unfold replace. rewrite replace_go_cls, hyphens_to_spaces.
    + now apply capitalize_join.
    + apply Forall_forall. intros w Hin.
      rewrite forallb_forall in Hw. specialize (Hw w Hin).
      unfold slug_word in Hw. apply andb_true_iff in Hw as [_ Hw].
      now apply forallb_holds.
  - unfold re_title. find_must.
  - now apply free_of_Forall.
Qed.

Lemma parseMarkdownPost_title_of_file_name_witness :
  title (parseMarkdownPost (txt "Hello, world.")
           (join (txt "-") [txt "my"; txt "first"; txt "post"]))
  = join (txt " ") (map capital [txt "my"; txt "first"; txt "post"]).
Proof.
  refine (@parseMarkdownPost_title_of_file_name _ _ _ _ _); reflexivity.
Defined.
